(** * Storage allocation and freshness eviction engine

    A shallow embedding of the [entity] and [logic] packages of the
    fulfillment simulator (storage.go, storage_group.go, fulfilment.go)
    and the properties of its placement, pickup, move and discard
    operations.

    Modelling conventions.
    - [time.Time] is an integer number of nanoseconds; [time.Duration] is
      a signed 64-bit number of nanoseconds, with Go's wrap-around on
      [-] and [*] and the saturation of [time.Time.Sub] written out.
    - Every engine operation receives the instant [now] at which it runs;
      each [time.Now()] and [time.Since] inside that operation reads this
      instant.
    - A Go [map[string]*StoredOrder] is an association list: the list
      order is the order in which [range] enumerates the entries, which Go
      leaves unspecified.  Within one operation the enumeration follows the
      list; between operations a run may reorder the cells of any unit
      ([OpReorder]), so that the results about runs hold for every
      enumeration order the runtime may choose from one operation to the
      next.
    - Each [*StoredOrder] is referenced by exactly one map cell (it is
      created once in [PlaceOrder] and handed from cell to cell by a move),
      so the cell owns the record and an assignment through the pointer is a
      write to that cell.
    - Locks do not appear: the operations are modelled one at a time. *)

From Stdlib Require Import ZArith List String Bool Lia Permutation.
From Stdlib Require Import DecimalString DecimalNat Sorted.
Import ListNotations.

Local Open Scope Z_scope.

(* ------------------------------------------------------------------ *)
(** ** Signed 64-bit durations and instants *)

Module Duration.

Definition min_int64 : Z := - 2 ^ 63.
Definition max_int64 : Z := 2 ^ 63 - 1.

  (** Two's-complement reduction of an integer to the [int64] range. *)
Definition wrap (z : Z) : Z := (z + 2 ^ 63) mod 2 ^ 64 - 2 ^ 63.

Definition fits (z : Z) : Prop := min_int64 <= z <= max_int64.

Definition sub (a b : Z) : Z := wrap (a - b).
Definition mul (a b : Z) : Z := wrap (a * b).

  (** Go's [/] on signed integers truncates toward zero. *)
Definition div (a b : Z) : Z := wrap (Z.quot a b).

  (** [time.Time.Sub] saturates at the extreme durations. *)
Definition saturate (z : Z) : Z := Z.max min_int64 (Z.min max_int64 z).

End Duration.

(** [time.Since(t)] evaluated at the instant [now]. *)
Definition Since (now t : Z) : Z := Duration.saturate (now - t).

(** [time.Time.UnixMicro]. *)
Definition UnixMicro (t : Z) : Z := Duration.wrap (t / 1000).

(* ------------------------------------------------------------------ *)
(** ** config/constant.go and config/config.go *)

Definition ACTION_TYPE_PLACE : string := "place".
Definition ACTION_TYPE_MOVE : string := "move".
Definition ACTION_TYPE_PICKUP : string := "pickup".
Definition ACTION_TYPE_DISCARD : string := "discard".

Definition TEMP_TYPE_HOT : string := "hot".
Definition TEMP_TYPE_COLD : string := "cold".
Definition TEMP_TYPE_ROOM : string := "room".

Record FulfillmentConfig : Type := mkConfig {
  NumCoolers : Z;
  CoolerCap : Z;
  NumHeaters : Z;
  HeaterCap : Z;
  NumShelves : Z;
  ShelfCap : Z
}.

(* ------------------------------------------------------------------ *)
(** ** Go maps keyed by strings, as association lists *)

Module GoMap.
Section Ops.
Context {V : Type}.

Definition t : Type := list (string * V).

  (** [v, ok := m[k]] *)
Fixpoint get (k : string) (m : t) : option V :=
    match m with
    | [] => None
    | (k', v) :: rest => if String.eqb k k' then Some v else get k rest
    end.

  (** [m[k] = v]: an existing cell is overwritten where it is, a new key
      gets a new cell. *)
Fixpoint set (k : string) (v : V) (m : t) : t :=
    match m with
    | [] => [(k, v)]
    | (k', v') :: rest =>
        if String.eqb k k' then (k, v) :: rest else (k', v') :: set k v rest
    end.

  (** [delete(m, k)] *)
Fixpoint delete (k : string) (m : t) : t :=
    match m with
    | [] => []
    | (k', v') :: rest =>
        if String.eqb k k' then delete k rest else (k', v') :: delete k rest
    end.

  (** [len(m)] *)
Definition len (m : t) : Z := Z.of_nat (List.length m).

Definition keys (m : t) : list string := map fst m.

  (** The values in the order [for _, v := range m] visits them. *)
Definition values (m : t) : list V := map snd m.

End Ops.
Arguments t : clear implicits.
End GoMap.

(* ------------------------------------------------------------------ *)
(** ** entity/storage.go *)

Record Order : Type := mkOrder {
  ID : string;
  Name : string;
  Temperature : string;
  Freshness : Z;
  InitialFreshness : Z
}.

Record StoredOrder : Type := mkStoredOrder {
  Order_ : Order;
  PlacedAt : Z
}.

Record Storage : Type := mkStorage {
  Storage_Name : string;
  Capacity : Z;
  Orders : GoMap.t StoredOrder
}.

Record Action : Type := mkAction {
  Timestamp : Z;
  OrderID : string;
  Action_ : string
}.

Definition with_Orders (s : Storage) (m : GoMap.t StoredOrder) : Storage :=
  {| Storage_Name := Storage_Name s; Capacity := Capacity s; Orders := m |}.

Definition NewStorage (name : string) (capacity : Z) : Storage :=
  {| Storage_Name := name; Capacity := capacity; Orders := [] |}.

Definition GetOrder (s : Storage) (orderID : string) : option StoredOrder :=
  GoMap.get orderID (Orders s).

Definition Storage_Add (s : Storage) (order : StoredOrder) : bool * Storage :=
  match GoMap.get (ID (Order_ order)) (Orders s) with
  | Some _ =>
      (true, with_Orders s (GoMap.set (ID (Order_ order)) order (Orders s)))
  | None =>
      if GoMap.len (Orders s) <? Capacity s
      then (true, with_Orders s (GoMap.set (ID (Order_ order)) order (Orders s)))
      else (false, s)
  end.

Definition Storage_Remove (s : Storage) (orderID : string)
  : option StoredOrder * Storage :=
  match GoMap.get orderID (Orders s) with
  | Some so => (Some so, with_Orders s (GoMap.delete orderID (Orders s)))
  | None => (None, s)
  end.

Definition Storage_IsFull (s : Storage) : bool :=
  Capacity s <=? GoMap.len (Orders s).

Definition Storage_ListOrders (s : Storage) : list StoredOrder :=
  GoMap.values (Orders s).

(* ------------------------------------------------------------------ *)
(** ** entity/storage_group.go *)

Record StorageGroup : Type := mkGroup {
  Storages : list Storage
}.

(** The loop of [StorageGroup.Add] over the units still to visit. *)
Fixpoint addToUnits (units : list Storage) (order : StoredOrder)
  : bool * list Storage :=
  match units with
  | [] => (false, [])
  | storage :: rest =>
      if negb (Storage_IsFull storage) then
        let (ok, storage') := Storage_Add storage order in
        if ok then (true, storage' :: rest)
        else let (r, rest') := addToUnits rest order in (r, storage' :: rest')
      else
        let (r, rest') := addToUnits rest order in (r, storage :: rest')
  end.

Definition StorageGroup_Add (sg : StorageGroup) (order : StoredOrder)
  : bool * StorageGroup :=
  let (r, units) := addToUnits (Storages sg) order in (r, mkGroup units).

(** The loop of [StorageGroup.Remove]. *)
Fixpoint removeFromUnits (units : list Storage) (orderID : string)
  : option StoredOrder * list Storage :=
  match units with
  | [] => (None, [])
  | storage :: rest =>
      match Storage_Remove storage orderID with
      | (Some removedOrder, storage') => (Some removedOrder, storage' :: rest)
      | (None, storage') =>
          let (r, rest') := removeFromUnits rest orderID in (r, storage' :: rest')
      end
  end.

Definition StorageGroup_Remove (sg : StorageGroup) (orderID : string)
  : option StoredOrder * StorageGroup :=
  let (r, units) := removeFromUnits (Storages sg) orderID in (r, mkGroup units).

Definition RemainingFreshness (now : Z) (so : StoredOrder) : Z :=
  let elapsed := Since now (PlacedAt so) in
  if String.eqb (Temperature (Order_ so)) TEMP_TYPE_ROOM
  then Duration.sub (Freshness (Order_ so)) elapsed
  else Duration.sub (Duration.div (Freshness (Order_ so)) 2) elapsed.

(** One iteration of the inner loop of [GetLeastFreshOrder]; the pair
    ([leastFreshOrder], [found]) is an option. *)
Definition leastStep (now : Z) (least : option StoredOrder) (order : StoredOrder)
  : option StoredOrder :=
  match least with
  | None => Some order
  | Some leastFreshOrder =>
      if RemainingFreshness now order <? RemainingFreshness now leastFreshOrder
      then Some order
      else Some leastFreshOrder
  end.

Definition GetLeastFreshOrder (now : Z) (sg : StorageGroup) : option StoredOrder :=
  fold_left
    (fun least storage => fold_left (leastStep now) (Storage_ListOrders storage) least)
    (Storages sg) None.

Definition StorageGroup_ListOrders (sg : StorageGroup) : list StoredOrder :=
  flat_map Storage_ListOrders (Storages sg).

Definition StorageGroup_IsFull (sg : StorageGroup) : bool :=
  forallb Storage_IsFull (Storages sg).

(* ------------------------------------------------------------------ *)
(** ** logic/fulfilment.go *)

Record FulfillmentSystem : Type := mkSystem {
  CoolerGroup : StorageGroup;
  HeaterGroup : StorageGroup;
  ShelfGroup : StorageGroup;
  Actions : list Action
}.

(** [fmt.Sprintf("%s-%d", prefix, i)] for a positive [i]. *)
Definition unitName (prefix : string) (i : nat) : string :=
  (prefix ++ "-" ++ NilEmpty.string_of_uint (Nat.to_uint i))%string.

(** The loop [for i := 1; i <= n; i++] that fills one group. *)
Definition newUnits (prefix : string) (n cap : Z) : list Storage :=
  map (fun i => NewStorage (unitName prefix i) cap) (seq 1 (Z.to_nat n)).

Definition NewFulfillmentSystem (cfg : FulfillmentConfig) : FulfillmentSystem :=
  {| CoolerGroup := mkGroup (newUnits "Cooler" (NumCoolers cfg) (CoolerCap cfg));
     HeaterGroup := mkGroup (newUnits "Heater" (NumHeaters cfg) (HeaterCap cfg));
     ShelfGroup := mkGroup (newUnits "Shelf" (NumShelves cfg) (ShelfCap cfg));
     Actions := [] |}.

Definition logAction (fs : FulfillmentSystem) (orderID actionType : string)
  (executeTime : Z) : FulfillmentSystem :=
  {| CoolerGroup := CoolerGroup fs;
     HeaterGroup := HeaterGroup fs;
     ShelfGroup := ShelfGroup fs;
     Actions := Actions fs ++ [mkAction (UnixMicro executeTime) orderID actionType] |}.

(** The group the local variable [idealGroup] points to. *)
Inductive IdealGroup : Type := ToHeater | ToCooler.

Definition idealGroup (fs : FulfillmentSystem) (g : IdealGroup) : StorageGroup :=
  match g with
  | ToHeater => HeaterGroup fs
  | ToCooler => CoolerGroup fs
  end.

Definition with_ShelfGroup (fs : FulfillmentSystem) (sg : StorageGroup)
  : FulfillmentSystem :=
  {| CoolerGroup := CoolerGroup fs; HeaterGroup := HeaterGroup fs;
     ShelfGroup := sg; Actions := Actions fs |}.

Definition with_HeaterGroup (fs : FulfillmentSystem) (sg : StorageGroup)
  : FulfillmentSystem :=
  {| CoolerGroup := CoolerGroup fs; HeaterGroup := sg;
     ShelfGroup := ShelfGroup fs; Actions := Actions fs |}.

Definition with_CoolerGroup (fs : FulfillmentSystem) (sg : StorageGroup)
  : FulfillmentSystem :=
  {| CoolerGroup := sg; HeaterGroup := HeaterGroup fs;
     ShelfGroup := ShelfGroup fs; Actions := Actions fs |}.

Definition with_idealGroup (fs : FulfillmentSystem) (g : IdealGroup)
  (sg : StorageGroup) : FulfillmentSystem :=
  match g with
  | ToHeater => with_HeaterGroup fs sg
  | ToCooler => with_CoolerGroup fs sg
  end.

(** The freshness recomputation of [atomicMoveOrder] for an order that is
    not room temperature: [None] when the order has expired, otherwise the
    record after the two assignments through the pointer. *)
Definition refreshOrder (now : Z) (order : StoredOrder) : option StoredOrder :=
  let t := Since now (PlacedAt order) in
  let newRemaining :=
    Duration.sub (InitialFreshness (Order_ order)) (Duration.mul 2 t) in
  if newRemaining <=? 0 then None
  else Some {| Order_ := {| ID := ID (Order_ order);
                            Name := Name (Order_ order);
                            Temperature := Temperature (Order_ order);
                            Freshness := newRemaining;
                            InitialFreshness := InitialFreshness (Order_ order) |};
               PlacedAt := now |}.

(** The scan of the destination units: the first one with
    [len(Orders) < Capacity] receives the order. *)
Fixpoint putInFirstWithRoom (units : list Storage) (orderID : string)
  (order : StoredOrder) : option (list Storage) :=
  match units with
  | [] => None
  | destStorage :: rest =>
      if GoMap.len (Orders destStorage) <? Capacity destStorage
      then Some (with_Orders destStorage
                   (GoMap.set orderID order (Orders destStorage)) :: rest)
      else option_map (cons destStorage) (putInFirstWithRoom rest orderID order)
  end.

(** [atomicMoveOrder], on a source unit that is not one of the destination
    group's units (the engine moves from shelf units to the heater or the
    cooler group).  The result carries the source and the destination as the
    call leaves them.  [order] is the pointer held by the source map, so the
    assignments to [order.PlacedAt] and [order.Order.Freshness] change the
    source's cell before the destination is scanned. *)
Definition atomicMoveOrder (now : Z) (orderID : string) (source : Storage)
  (destination : StorageGroup) : bool * Storage * StorageGroup :=
  match GoMap.get orderID (Orders source) with
  | None => (false, source, destination)
  | Some order =>
      let updated : option (StoredOrder * Storage) :=
        if negb (String.eqb (Temperature (Order_ order)) TEMP_TYPE_ROOM) then
          match refreshOrder now order with
          | None => None
          | Some order' =>
              Some (order', with_Orders source (GoMap.set orderID order' (Orders source)))
          end
        else Some (order, source) in
      match updated with
      | None => (false, source, destination)
      | Some (order', source') =>
          match putInFirstWithRoom (Storages destination) orderID order' with
          | Some units =>
              (true,
               with_Orders source' (GoMap.delete orderID (Orders source')),
               mkGroup units)
          | None => (false, source', destination)
          end
      end
  end.

(** The loop [for _, shelf := range fs.ShelfGroup.Storages] around
    [atomicMoveOrder], left at the first successful move. *)
Fixpoint moveFromShelves (now : Z) (orderID : string) (shelves : list Storage)
  (destination : StorageGroup) : bool * list Storage * StorageGroup :=
  match shelves with
  | [] => (false, [], destination)
  | shelf :: rest =>
      let '(moved, shelf', destination') :=
        atomicMoveOrder now orderID shelf destination in
      if moved then (true, shelf' :: rest, destination')
      else
        let '(r, rest', destination'') :=
          moveFromShelves now orderID rest destination' in
        (r, shelf' :: rest', destination'')
  end.

(** The loop of [tryMoveFromShelfGroup] over the snapshot [orders]; the
    result names the order that was moved, if any. *)
Fixpoint tryMoveOrders (now : Z) (temp : string) (orders : list StoredOrder)
  (shelves : list Storage) (destination : StorageGroup)
  : option string * list Storage * StorageGroup :=
  match orders with
  | [] => (None, shelves, destination)
  | so :: rest =>
      if String.eqb (Temperature (Order_ so)) temp then
        let '(moved, shelves', destination') :=
          moveFromShelves now (ID (Order_ so)) shelves destination in
        if moved then (Some (ID (Order_ so)), shelves', destination')
        else tryMoveOrders now temp rest shelves' destination'
      else tryMoveOrders now temp rest shelves destination
  end.

Definition tryMoveFromShelfGroup (now : Z) (fs : FulfillmentSystem) (temp : string)
  : bool * FulfillmentSystem :=
  let target :=
    if String.eqb temp TEMP_TYPE_HOT then Some ToHeater
    else if String.eqb temp TEMP_TYPE_COLD then Some ToCooler
    else None in
  match target with
  | None => (false, fs)
  | Some g =>
      let orders := StorageGroup_ListOrders (ShelfGroup fs) in
      let '(moved, shelves, destination) :=
        tryMoveOrders now temp orders (Storages (ShelfGroup fs)) (idealGroup fs g) in
      let fs' := with_idealGroup (with_ShelfGroup fs (mkGroup shelves)) g destination in
      match moved with
      | Some orderID => (true, logAction fs' orderID ACTION_TYPE_MOVE now)
      | None => (false, fs')
      end
  end.

Definition discardOrderFromShelfGroup (now : Z) (fs : FulfillmentSystem)
  : FulfillmentSystem :=
  match GetLeastFreshOrder now (ShelfGroup fs) with
  | None => fs
  | Some candidate =>
      let (moved, fs1) :=
        tryMoveFromShelfGroup now fs (Temperature (Order_ candidate)) in
      if moved then fs1
      else
        match StorageGroup_Remove (ShelfGroup fs1) (ID (Order_ candidate)) with
        | (Some _, shelf') =>
            logAction (with_ShelfGroup fs1 shelf') (ID (Order_ candidate))
              ACTION_TYPE_DISCARD now
        | (None, shelf') => with_ShelfGroup fs1 shelf'
        end
  end.

(** [fs.ShelfGroup.Add(storedOrder)] followed, on success, by the place
    action; [None] when the shelf refused the order. *)
Definition placeOnShelf (now : Z) (fs : FulfillmentSystem) (storedOrder : StoredOrder)
  : option FulfillmentSystem :=
  let (ok, shelf') := StorageGroup_Add (ShelfGroup fs) storedOrder in
  if ok
  then Some (logAction (with_ShelfGroup fs shelf') (ID (Order_ storedOrder))
               ACTION_TYPE_PLACE now)
  else None.

(** The tail shared by both branches of [PlaceOrder]: discard when the
    shelf is full, then the last shelf insert; a refused insert drops the
    order without a trace. *)
Definition discardThenPlace (now : Z) (fs : FulfillmentSystem)
  (storedOrder : StoredOrder) : FulfillmentSystem :=
  let fs1 :=
    if StorageGroup_IsFull (ShelfGroup fs)
    then discardOrderFromShelfGroup now fs else fs in
  match placeOnShelf now fs1 storedOrder with
  | Some fs2 => fs2
  | None => fs1
  end.

Definition PlaceOrder (now : Z) (fs : FulfillmentSystem) (order : Order)
  : FulfillmentSystem :=
  let storedOrder := {| Order_ := order; PlacedAt := now |} in
  if String.eqb (Temperature order) TEMP_TYPE_HOT
     || String.eqb (Temperature order) TEMP_TYPE_COLD
  then
    let g := if String.eqb (Temperature order) TEMP_TYPE_HOT
             then ToHeater else ToCooler in
    let (ok, ideal') := StorageGroup_Add (idealGroup fs g) storedOrder in
    if ok
    then logAction (with_idealGroup fs g ideal') (ID order) ACTION_TYPE_PLACE now
    else
      match placeOnShelf now fs storedOrder with
      | Some fs1 => fs1
      | None =>
          let retried : option FulfillmentSystem * FulfillmentSystem :=
            if StorageGroup_IsFull (ShelfGroup fs) then
              let (moved, fs1) := tryMoveFromShelfGroup now fs (Temperature order) in
              if moved then (placeOnShelf now fs1 storedOrder, fs1)
              else (None, fs1)
            else (None, fs) in
          match retried with
          | (Some fs2, _) => fs2
          | (None, fs1) => discardThenPlace now fs1 storedOrder
          end
      end
  else
    match placeOnShelf now fs storedOrder with
    | Some fs1 => fs1
    | None => discardThenPlace now fs storedOrder
    end.

Definition PickupOrder (now : Z) (fs : FulfillmentSystem) (orderID : string)
  : FulfillmentSystem :=
  match StorageGroup_Remove (HeaterGroup fs) orderID with
  | (Some so, heater') =>
      logAction (with_HeaterGroup fs heater') (ID (Order_ so)) ACTION_TYPE_PICKUP now
  | (None, _) =>
      match StorageGroup_Remove (CoolerGroup fs) orderID with
      | (Some so, cooler') =>
          logAction (with_CoolerGroup fs cooler') (ID (Order_ so))
            ACTION_TYPE_PICKUP now
      | (None, _) =>
          match StorageGroup_Remove (ShelfGroup fs) orderID with
          | (Some so, shelf') =>
              logAction (with_ShelfGroup fs shelf') (ID (Order_ so))
                ACTION_TYPE_PICKUP now
          | (None, _) => fs
          end
      end
  end.

(** The inner loop of [ReallocateOrders] for one shelf order: the move
    attempts over the shelf units, with the move action at the first
    success. *)
Definition moveToIdeal (now : Z) (fs : FulfillmentSystem) (orderID : string)
  (g : IdealGroup) : FulfillmentSystem :=
  let '(moved, shelves, destination) :=
    moveFromShelves now orderID (Storages (ShelfGroup fs)) (idealGroup fs g) in
  let fs' := with_idealGroup (with_ShelfGroup fs (mkGroup shelves)) g destination in
  if moved then logAction fs' orderID ACTION_TYPE_MOVE now else fs'.

(** The loop of one tick over the snapshot [shelfOrders]. *)
Fixpoint reallocateLoop (now : Z) (shelfOrders : list StoredOrder)
  (fs : FulfillmentSystem) : FulfillmentSystem :=
  match shelfOrders with
  | [] => fs
  | so :: rest =>
      let fs' :=
        if String.eqb (Temperature (Order_ so)) TEMP_TYPE_HOT
           && negb (StorageGroup_IsFull (HeaterGroup fs))
        then moveToIdeal now fs (ID (Order_ so)) ToHeater
        else if String.eqb (Temperature (Order_ so)) TEMP_TYPE_COLD
                && negb (StorageGroup_IsFull (CoolerGroup fs))
        then moveToIdeal now fs (ID (Order_ so)) ToCooler
        else fs in
      reallocateLoop now rest fs'
  end.

(** The body of [case <-ticker.C] in [ReallocateOrders]. *)
Definition reallocateTick (now : Z) (fs : FulfillmentSystem) : FulfillmentSystem :=
  if negb (StorageGroup_IsFull (ShelfGroup fs)) then fs
  else reallocateLoop now (StorageGroup_ListOrders (ShelfGroup fs)) fs.

(** What the [select] of [ReallocateOrders] receives. *)
Inductive LoopEvent : Type :=
| Tick (now : Z)
| Stop.

(** [ReallocateOrders] on the events its two channels deliver. *)
Fixpoint ReallocateOrders (events : list LoopEvent) (fs : FulfillmentSystem)
  : FulfillmentSystem :=
  match events with
  | [] => fs
  | Tick now :: rest => ReallocateOrders rest (reallocateTick now fs)
  | Stop :: _ => fs
  end.

(* ------------------------------------------------------------------ *)
(** ** Sequential runs of the engine *)

(** Go leaves unspecified the order in which [range] visits a map.  Between
    two operations the runtime may present the cells of a unit in another
    order: [swapCells i] exchanges the cells at positions [i] and [i+1], and
    every reordering is a sequence of such exchanges. *)
Fixpoint swapCells {A : Type} (i : nat) (l : list A) : list A :=
  match i, l with
  | O, a :: b :: rest => b :: a :: rest
  | S i', a :: rest => a :: swapCells i' rest
  | _, _ => l
  end.

Fixpoint updateUnit (n : nat) (f : Storage -> Storage) (units : list Storage)
  : list Storage :=
  match n, units with
  | O, s :: rest => f s :: rest
  | S n', s :: rest => s :: updateUnit n' f rest
  | _, [] => []
  end.

Inductive GroupName : Type := Heaters | Coolers | Shelves.

(** The cells [i] and [i+1] of unit number [n] of group [g] change places. *)
Definition reorderUnit (fs : FulfillmentSystem) (g : GroupName) (n i : nat)
  : FulfillmentSystem :=
  let f := fun s => with_Orders s (swapCells i (Orders s)) in
  match g with
  | Heaters =>
      with_HeaterGroup fs (mkGroup (updateUnit n f (Storages (HeaterGroup fs))))
  | Coolers =>
      with_CoolerGroup fs (mkGroup (updateUnit n f (Storages (CoolerGroup fs))))
  | Shelves =>
      with_ShelfGroup fs (mkGroup (updateUnit n f (Storages (ShelfGroup fs))))
  end.

(** The operations a run is made of: the two entry points, one tick of the
    reallocation loop, the engine's internal steps taken on their own (a move
    of one order off the shelf, a move attempt for a temperature class, a
    discard), and a change of the enumeration order of one unit's map. *)
Inductive Op : Type :=
| OpPlace (order : Order)
| OpPickup (orderID : string)
| OpTick
| OpMove (orderID : string) (g : IdealGroup)
| OpTryMove (temp : string)
| OpDiscard
| OpReorder (g : GroupName) (unit position : nat).

Definition step (now : Z) (op : Op) (fs : FulfillmentSystem) : FulfillmentSystem :=
  match op with
  | OpPlace order => PlaceOrder now fs order
  | OpPickup orderID => PickupOrder now fs orderID
  | OpTick => reallocateTick now fs
  | OpMove orderID g => moveToIdeal now fs orderID g
  | OpTryMove temp => snd (tryMoveFromShelfGroup now fs temp)
  | OpDiscard => discardOrderFromShelfGroup now fs
  | OpReorder g unit position => reorderUnit fs g unit position
  end.

(** A run: each operation with the instant at which it executes. *)
Fixpoint run (trace : list (Z * Op)) (fs : FulfillmentSystem) : FulfillmentSystem :=
  match trace with
  | [] => fs
  | (now, op) :: rest => run rest (step now op fs)
  end.

Definition placedIDs (trace : list (Z * Op)) : list string :=
  flat_map (fun e => match snd e with OpPlace order => [ID order] | _ => [] end) trace.

(* ------------------------------------------------------------------ *)
(** ** Observations on the storage state *)

(** [occupancy <= capacity] for one unit. *)
Definition within_capacity (s : Storage) : Prop :=
  GoMap.len (Orders s) <= Capacity s.

Definition group_within_capacity (sg : StorageGroup) : Prop :=
  Forall within_capacity (Storages sg).

Definition system_within_capacity (fs : FulfillmentSystem) : Prop :=
  group_within_capacity (HeaterGroup fs)
  /\ group_within_capacity (CoolerGroup fs)
  /\ group_within_capacity (ShelfGroup fs).

(** Every cell of the unit is filed under the id of the order it holds. *)
Definition keyed (s : Storage) : Prop :=
  Forall (fun e => fst e = ID (Order_ (snd e))) (Orders s).

Definition unit_ids (s : Storage) : list string := GoMap.keys (Orders s).

Definition units_ids (units : list Storage) : list string :=
  flat_map unit_ids units.

Definition all_units (fs : FulfillmentSystem) : list Storage :=
  Storages (HeaterGroup fs) ++ Storages (CoolerGroup fs) ++ Storages (ShelfGroup fs).

Definition all_ids (fs : FulfillmentSystem) : list string :=
  units_ids (all_units fs).

(** The number of cells filed under the id [x] in a list of ids. *)
Abbreviation occ l x := (count_occ string_dec l x).

(** [_, ok := s.GetOrder(orderID)] *)
Definition holds (s : Storage) (orderID : string) : bool :=
  match GetOrder s orderID with Some _ => true | None => false end.

Definition group_holds (sg : StorageGroup) (orderID : string) : bool :=
  existsb (fun s => holds s orderID) (Storages sg).

(** The units of the whole system in which [orderID] is stored. *)
Definition holders (fs : FulfillmentSystem) (orderID : string) : list Storage :=
  filter (fun s => holds s orderID) (all_units fs).

(** How a unit may change under the engine: it keeps its name and its
    capacity, and stays within capacity if it was. *)
Definition evolves (s s' : Storage) : Prop :=
  Storage_Name s' = Storage_Name s
  /\ Capacity s' = Capacity s
  /\ (within_capacity s -> within_capacity s').

(** A shelf unit, which never receives a moved order, moreover keeps its
    cells filed under the ids of their orders. *)
Definition shelf_evolves (s s' : Storage) : Prop :=
  evolves s s' /\ (keyed s -> keyed s').

Definition system_evolves (fs fs' : FulfillmentSystem) : Prop :=
  Forall2 shelf_evolves (Storages (ShelfGroup fs)) (Storages (ShelfGroup fs'))
  /\ Forall2 evolves (Storages (HeaterGroup fs)) (Storages (HeaterGroup fs'))
  /\ Forall2 evolves (Storages (CoolerGroup fs)) (Storages (CoolerGroup fs')).

(** What the engine relies on when it frees a shelf slot: every shelf unit
    is within capacity and files its cells under the ids of their orders,
    and some shelf unit can hold at least one order. *)
Definition shelf_ready (fs : FulfillmentSystem) : Prop :=
  Forall within_capacity (Storages (ShelfGroup fs))
  /\ Forall keyed (Storages (ShelfGroup fs))
  /\ Exists (fun s => 1 <= Capacity s) (Storages (ShelfGroup fs)).

(** [sg'] is [sg] after the cell of [orderID], holding [so], was deleted
    from the first unit that had one. *)
Definition removed_from (sg sg' : StorageGroup) (orderID : string)
  (so : StoredOrder) : Prop :=
  exists before s after,
    Storages sg = before ++ s :: after
    /\ existsb (fun u => holds u orderID) before = false
    /\ GetOrder s orderID = Some so
    /\ Storages sg' = before
                      ++ with_Orders s (GoMap.delete orderID (Orders s)) :: after.

(* ------------------------------------------------------------------ *)
(** ** The freshness model in the words of the design document *)

Inductive StorageClass : Type := HeaterClass | CoolerClass | ShelfClass.

Definition isHotOrCold (temp : string) : bool :=
  String.eqb temp TEMP_TYPE_HOT || String.eqb temp TEMP_TYPE_COLD.

(** Section 4.3: nominal freshness minus the time since the last placement,
    except that a hot or cold order sitting on the shelf keeps only half of
    its nominal freshness. *)
Definition spec_RemainingFreshness (cls : StorageClass) (now : Z) (so : StoredOrder)
  : Z :=
  let elapsed := now - PlacedAt so in
  match cls with
  | ShelfClass =>
      if isHotOrCold (Temperature (Order_ so))
      then Z.quot (Freshness (Order_ so)) 2 - elapsed
      else Freshness (Order_ so) - elapsed
  | _ => Freshness (Order_ so) - elapsed
  end.

(** Section 4.4, move: the double-rate formula on the original nominal
    freshness and the original placement instant. *)
Definition spec_moveRemaining (now : Z) (so : StoredOrder) : Z :=
  Z.quot (InitialFreshness (Order_ so)) 2 - (now - PlacedAt so).

(* ------------------------------------------------------------------ *)
(** ** RunHarness: the pickup delay *)

(** [minPickup + time.Duration(rand.Int63n(int64(maxPickup-minPickup)))],
    with [draw] the number [rand.Int63n] hands back; [None] is the panic of
    [rand.Int63n] on a bound that is not positive. *)
Definition pickupDelay (minPickup maxPickup draw : Z) : option Z :=
  let n := Duration.sub maxPickup minPickup in
  if n <=? 0 then None else Some (Duration.wrap (minPickup + draw)).

(* ------------------------------------------------------------------ *)
(** ** Side conditions and vocabulary of the further properties *)

(** The freshness arithmetic of [so] at the instant [now] stays inside the
    64-bit range. *)
Definition freshness_fits (now : Z) (so : StoredOrder) : Prop :=
  Duration.fits (Freshness (Order_ so))
  /\ Duration.fits (now - PlacedAt so)
  /\ Duration.fits (Freshness (Order_ so) - (now - PlacedAt so))
  /\ Duration.fits (Z.quot (Freshness (Order_ so)) 2 - (now - PlacedAt so)).

(** At the instant [now] the order has used up its initial freshness at the
    double rate (and the arithmetic that says so does not overflow). *)
Definition expired (now : Z) (so : StoredOrder) : Prop :=
  Duration.fits (now - PlacedAt so)
  /\ Duration.fits (2 * (now - PlacedAt so))
  /\ Duration.fits (InitialFreshness (Order_ so) - 2 * (now - PlacedAt so))
  /\ InitialFreshness (Order_ so) - 2 * (now - PlacedAt so) <= 0.

(** [fs'] carries the log of [fs] followed by entries that are all stamped
    with the instant [now] and whose action type is one of [kinds]. *)
Definition appends (now : Z) (kinds : list string) (fs fs' : FulfillmentSystem)
  : Prop :=
  exists new,
    Actions fs' = Actions fs ++ new
    /\ Forall (fun a => Timestamp a = UnixMicro now /\ In (Action_ a) kinds) new.

(** The ids stored in the heater or the cooler group. *)
Definition ideal_ids (fs : FulfillmentSystem) (g : IdealGroup) : list string :=
  units_ids (Storages (idealGroup fs g)).

(** The id [x], if the heater or the cooler group of [fs] stores it, is
    stored in the same group of [fs']. *)
Definition keeps_ideal (x : string) (fs fs' : FulfillmentSystem) : Prop :=
  forall g, In x (ideal_ids fs g) -> In x (ideal_ids fs' g).

(** Some unit of [units] holds exactly [so] under the id of its order. *)
Definition stores (units : list Storage) (so : StoredOrder) : Prop :=
  exists s, In s units /\ GetOrder s (ID (Order_ so)) = Some so.

(** Every order stored in [units] has the temperature [T]. *)
Definition all_temperature (T : string) (units : list Storage) : Prop :=
  Forall (fun s =>
            Forall (fun e : string * StoredOrder => Temperature (Order_ (snd e)) = T)
              (Orders s))
    units.

(** The heater group stores hot orders only, the cooler group cold ones. *)
Definition sorted_by_temperature (fs : FulfillmentSystem) : Prop :=
  all_temperature TEMP_TYPE_HOT (Storages (HeaterGroup fs))
  /\ all_temperature TEMP_TYPE_COLD (Storages (CoolerGroup fs)).

Definition idealTemperature (g : IdealGroup) : string :=
  match g with
  | ToHeater => TEMP_TYPE_HOT
  | ToCooler => TEMP_TYPE_COLD
  end.

(** What the shelf units hold under the id of an order of the snapshot
    [orders] has that order's temperature. *)
Definition agree (orders : list StoredOrder) (shelves : list Storage) : Prop :=
  forall so s o,
    In so orders -> In s shelves ->
    GetOrder s (ID (Order_ so)) = Some o ->
    Temperature (Order_ o) = Temperature (Order_ so).

(** Every cell of the heater and of the cooler group is filed under the id
    of the order it holds. *)
Definition ideal_keyed (fs : FulfillmentSystem) : Prop :=
  Forall keyed (Storages (HeaterGroup fs))
  /\ Forall keyed (Storages (CoolerGroup fs)).

(** The order ids named by the place actions of a log, in log order. *)
Definition placeActions (log : list Action) : list string :=
  map OrderID (filter (fun a => String.eqb (Action_ a) ACTION_TYPE_PLACE) log).

(** [fs'] carries the log of [fs] followed by entries that name ids of
    [ids] only. *)
Definition names (ids : list string) (fs fs' : FulfillmentSystem) : Prop :=
  exists new,
    Actions fs' = Actions fs ++ new
    /\ Forall (fun a => In (OrderID a) ids) new.

(** Every cell of every unit of [units] satisfies [P]. *)
Definition cells_ok (P : string * StoredOrder -> Prop) (units : list Storage) : Prop :=
  Forall (fun s => Forall P (Orders s)) units.

Definition system_ok (P : string * StoredOrder -> Prop) (fs : FulfillmentSystem)
  : Prop :=
  cells_ok P (Storages (HeaterGroup fs))
  /\ cells_ok P (Storages (CoolerGroup fs))
  /\ cells_ok P (Storages (ShelfGroup fs)).

(** The cell holds an order that was handed to [PlaceOrder] during [trace]:
    it is filed under that order's id and has its id, name, temperature and
    initial freshness; a room-temperature order is stored exactly as it was
    placed. *)
Definition placed_as (trace : list (Z * Op)) (cell : string * StoredOrder) : Prop :=
  exists now order,
    In (now, OpPlace order) trace
    /\ fst cell = ID order
    /\ ID (Order_ (snd cell)) = ID order
    /\ Name (Order_ (snd cell)) = Name order
    /\ Temperature (Order_ (snd cell)) = Temperature order
    /\ InitialFreshness (Order_ (snd cell)) = InitialFreshness order
    /\ (Temperature order = TEMP_TYPE_ROOM ->
        snd cell = {| Order_ := order; PlacedAt := now |}).

(** The action types an operation can append to the log. *)
Definition actionKinds (op : Op) : list string :=
  match op with
  | OpPlace _ => [ACTION_TYPE_MOVE; ACTION_TYPE_DISCARD; ACTION_TYPE_PLACE]
  | OpPickup _ => [ACTION_TYPE_PICKUP]
  | OpTick => [ACTION_TYPE_MOVE]
  | OpMove _ _ => [ACTION_TYPE_MOVE]
  | OpTryMove _ => [ACTION_TYPE_MOVE]
  | OpDiscard => [ACTION_TYPE_MOVE; ACTION_TYPE_DISCARD]
  | OpReorder _ _ _ => []
  end.

(** The number of units of a list that hold [orderID]. *)
Definition holding (units : list Storage) (orderID : string) : nat :=
  List.length (filter (fun s => holds s orderID) units).

(* ------------------------------------------------------------------ *)
(** ** Concrete orders and units used by the examples below *)

Definition second : Z := 1000000000.

Definition hotA : Order :=
  {| ID := "A"; Name := "soup"; Temperature := TEMP_TYPE_HOT;
     Freshness := 10 * second; InitialFreshness := 10 * second |}.

Definition hotB : Order :=
  {| ID := "B"; Name := "stew"; Temperature := TEMP_TYPE_HOT;
     Freshness := 100 * second; InitialFreshness := 100 * second |}.

Definition roomC : Order :=
  {| ID := "C"; Name := "bread"; Temperature := TEMP_TYPE_ROOM;
     Freshness := 60 * second; InitialFreshness := 60 * second |}.

(** One heater of capacity 1, one cooler of capacity 1, one shelf of
    capacity 2. *)
Definition smallConfig : FulfillmentConfig :=
  {| NumCoolers := 1; CoolerCap := 1; NumHeaters := 1; HeaterCap := 1;
     NumShelves := 1; ShelfCap := 2 |}.

(** A shelf unit of capacity 1 holding [hotA], placed at instant 0. *)
Definition shelfWithA : Storage :=
  {| Storage_Name := "Shelf-1"; Capacity := 1;
     Orders := [("A"%string, {| Order_ := hotA; PlacedAt := 0 |})] |}.

(** A heater group whose only unit is already full. *)
Definition fullHeater : StorageGroup :=
  mkGroup [{| Storage_Name := "Heater-1"; Capacity := 1;
              Orders := [("B"%string, {| Order_ := hotB; PlacedAt := 0 |})] |}].

Definition emptyHeater : StorageGroup :=
  mkGroup [NewStorage "Heater-1" 1].

(** A short run: two placements, a reallocation tick and a pickup. *)
Definition sampleRun : list (Z * Op) :=
  [(0, OpPlace hotA); (0, OpPlace hotB); (second, OpTick);
   (2 * second, OpPickup "A")].

Definition hotH : Order :=
  {| ID := "H"; Name := "curry"; Temperature := TEMP_TYPE_HOT;
     Freshness := 30 * second; InitialFreshness := 30 * second |}.

(** [H] takes the only heater slot, [A] and [B] overflow to the shelf and
    fill it; five seconds later [H] is picked up.  At that instant [A] has
    used up its ten seconds of freshness at the double rate. *)
Definition expiredRun : list (Z * Op) :=
  [(0, OpPlace hotH); (0, OpPlace hotA); (0, OpPlace hotB);
   (5 * second, OpPickup "H")].

(** [A] takes the heater slot, [B] and [C] fill the shelf. *)
Definition shelfFullRun : list (Z * Op) :=
  [(0, OpPlace hotA); (0, OpPlace hotB); (0, OpPlace roomC)].

Definition roomE : Order :=
  {| ID := "E"; Name := "toast"; Temperature := TEMP_TYPE_ROOM;
     Freshness := 3 * second; InitialFreshness := 3 * second |}.

(** [H] takes the heater slot, [A] and [E] fill the shelf; one second later
    the hot order [B] arrives and finds both the heater and the shelf full. *)
Definition overflowRun : list (Z * Op) :=
  [(0, OpPlace hotH); (0, OpPlace hotA); (0, OpPlace roomE);
   (second, OpPlace hotB)].






(** After [shelfFullRun], [A] is picked up from the heater and the next tick
    moves [B] from the full shelf into the heater. *)
Definition movedRun : list (Z * Op) :=
  shelfFullRun ++ [(second, OpPickup "A"); (2 * second, OpTick)].

(** The configurations and orders of test/fulfillment_test.go; the tests
    leave [InitialFreshness] at its zero value. *)
Definition shelfOnlyConfig : FulfillmentConfig :=
  {| NumCoolers := 0; CoolerCap := 0; NumHeaters := 0; HeaterCap := 0;
     NumShelves := 1; ShelfCap := 2 |}.

Definition reallocationConfig : FulfillmentConfig :=
  {| NumCoolers := 1; CoolerCap := 2; NumHeaters := 1; HeaterCap := 2;
     NumShelves := 1; ShelfCap := 4 |}.

Definition testOrder (id temp : string) (seconds : Z) : Order :=
  {| ID := id; Name := ""; Temperature := temp;
     Freshness := seconds * second; InitialFreshness := 0 |}.

(* ================================================================== *)
(** * Properties *)

(** ** The repository's tests, replayed *)

(** TestDiscardAllRoomTemperatureOrderFromShelfGroup: the third room order
    pushes out the first, the least fresh. *)
Example test_discard_room_orders :
  let fs :=
    run [(0, OpPlace (testOrder "1" TEMP_TYPE_ROOM 5));
         (0, OpPlace (testOrder "2" TEMP_TYPE_ROOM 10));
         (0, OpPlace (testOrder "3" TEMP_TYPE_ROOM 15))]
      (NewFulfillmentSystem shelfOnlyConfig) in
  map (fun u => (holds u "1", holds u "2", holds u "3")) (Storages (ShelfGroup fs))
  = [(false, true, true)].
Proof. reflexivity. Qed.

(** TestDiscardHybridOrderFromShelfGroup: the hot order on the shelf decays
    at the double rate and is the one discarded. *)
Example test_discard_hybrid_orders :
  let fs :=
    run [(0, OpPlace (testOrder "1" TEMP_TYPE_ROOM 5));
         (0, OpPlace (testOrder "2" TEMP_TYPE_HOT 8));
         (0, OpPlace (testOrder "3" TEMP_TYPE_ROOM 15))]
      (NewFulfillmentSystem shelfOnlyConfig) in
  map (fun u => (holds u "1", holds u "2", holds u "3")) (Storages (ShelfGroup fs))
  = [(true, false, true)].
Proof. reflexivity. Qed.

(** TestMultipleOrderReallocation: after the pickups of orders 1 and 2, order
    3 is in the heater, order 4 in the cooler, and order 1 is not on the
    shelf. *)
Example test_multiple_order_reallocation :
  let fs :=
    run [(0, OpPlace (testOrder "1" TEMP_TYPE_HOT 5));
         (0, OpPlace (testOrder "2" TEMP_TYPE_COLD 10));
         (0, OpPlace (testOrder "3" TEMP_TYPE_HOT 15));
         (0, OpPlace (testOrder "4" TEMP_TYPE_COLD 20));
         (6, OpPickup "1"); (6, OpPickup "2")]
      (NewFulfillmentSystem reallocationConfig) in
  group_holds (HeaterGroup fs) "3" = true
  /\ group_holds (CoolerGroup fs) "4" = true
  /\ group_holds (ShelfGroup fs) "1" = false.
Proof. repeat split; reflexivity. Qed.

(** ** Durations *)

Lemma wrap_fits (z : Z) : Duration.fits z -> Duration.wrap z = z.
Proof.
  unfold Duration.fits, Duration.wrap, Duration.min_int64, Duration.max_int64.
  intros H.
  rewrite Z.mod_small by lia. lia.
Qed.

Lemma saturate_fits (z : Z) : Duration.fits z -> Duration.saturate z = z.
Proof.
  unfold Duration.fits, Duration.saturate. lia.
Qed.

Lemma quot2_fits (z : Z) : Duration.fits z -> Duration.fits (Z.quot z 2).
Proof.
  unfold Duration.fits, Duration.min_int64, Duration.max_int64.
  intros H.
  Z.to_euclidean_division_equations. lia.
Qed.

Lemma Since_fits (now t : Z) : Duration.fits (now - t) -> Since now t = now - t.
Proof. apply saturate_fits. Qed.

(** ** Go maps *)

Module GoMapFacts.
Section Facts.
Context {V : Type}.
Implicit Types (m : GoMap.t V) (k : string) (v : V).

Lemma get_None_keys k m : GoMap.get k m = None <-> ~ In k (GoMap.keys m).
  Proof.
    induction m as [| [k' v'] rest IH]; simpl.
    - tauto.
    - destruct (String.eqb_spec k k') as [-> | Hne].
      + split; [discriminate | intros H; exfalso; apply H; now left].
      + rewrite IH. split.
        * intros H [E | HIn]; [congruence | tauto].
        * intros H HIn. apply H. now right.
  Qed.

Lemma get_Some_keys k m v : GoMap.get k m = Some v -> In k (GoMap.keys m).
  Proof.
    intros H. destruct (in_dec string_dec k (GoMap.keys m)) as [HIn | HNot]; auto.
    apply get_None_keys in HNot. congruence.
  Qed.

Lemma get_Some_In k m v : GoMap.get k m = Some v -> In (k, v) m.
  Proof.
    induction m as [| [k' v'] rest IH]; simpl; [discriminate |].
    destruct (String.eqb_spec k k') as [-> | Hne].
    - intros [= ->]. now left.
    - intros H. right. now apply IH.
  Qed.

Lemma keys_get k m : In k (GoMap.keys m) -> exists v, GoMap.get k m = Some v.
  Proof.
    intros HIn. destruct (GoMap.get k m) as [v |] eqn:E; eauto.
    apply get_None_keys in E. tauto.
  Qed.

Lemma set_get_same k m v : GoMap.get k m = Some v -> GoMap.set k v m = m.
  Proof.
    induction m as [| [k' v'] rest IH]; simpl; [discriminate |].
    destruct (String.eqb_spec k k') as [-> | Hne].
    - now intros [= ->].
    - intros H. now rewrite IH.
  Qed.

Lemma get_set_same k m v : GoMap.get k (GoMap.set k v m) = Some v.
  Proof.
    induction m as [| [k' v'] rest IH]; simpl.
    - now rewrite String.eqb_refl.
    - destruct (String.eqb_spec k k') as [-> | Hne]; simpl.
      + now rewrite String.eqb_refl.
      + destruct (String.eqb_spec k k'); [contradiction | exact IH].
  Qed.

Lemma get_set_other k k' m v :
    k' <> k -> GoMap.get k' (GoMap.set k v m) = GoMap.get k' m.
  Proof.
    intros Hne. induction m as [| [k0 v0] rest IH]; simpl.
    - destruct (String.eqb_spec k' k); [contradiction | reflexivity].
    - destruct (String.eqb_spec k k0) as [-> | Hk]; simpl.
      + destruct (String.eqb_spec k' k0); [contradiction | reflexivity].
      + destruct (String.eqb_spec k' k0); [reflexivity | exact IH].
  Qed.

Lemma get_delete_same k m : GoMap.get k (GoMap.delete k m) = None.
  Proof.
    induction m as [| [k' v'] rest IH]; simpl; [reflexivity |].
    destruct (String.eqb_spec k k') as [-> | Hne]; simpl; [exact IH |].
    destruct (String.eqb_spec k k'); [contradiction | exact IH].
  Qed.

Lemma get_delete_other k k' m :
    k' <> k -> GoMap.get k' (GoMap.delete k m) = GoMap.get k' m.
  Proof.
    intros Hne. induction m as [| [k0 v0] rest IH]; simpl; [reflexivity |].
    destruct (String.eqb_spec k k0) as [-> | Hk]; simpl.
    - destruct (String.eqb_spec k' k0); [contradiction | exact IH].
    - destruct (String.eqb_spec k' k0); [reflexivity | exact IH].
  Qed.

Lemma keys_set_present k m v :
    In k (GoMap.keys m) -> GoMap.keys (GoMap.set k v m) = GoMap.keys m.
  Proof.
    induction m as [| [k' v'] rest IH]; simpl; [tauto |].
    destruct (String.eqb_spec k k') as [-> | Hne]; simpl; [reflexivity |].
    intros [E | HIn]; [congruence |]. f_equal. now apply IH.
  Qed.

Lemma keys_set_absent k m v :
    ~ In k (GoMap.keys m) -> GoMap.keys (GoMap.set k v m) = GoMap.keys m ++ [k].
  Proof.
    induction m as [| [k' v'] rest IH]; simpl; [reflexivity |].
    destruct (String.eqb_spec k k') as [-> | Hne]; simpl; [tauto |].
    intros H. f_equal. apply IH. tauto.
  Qed.

Lemma len_set_present k m v :
    In k (GoMap.keys m) -> GoMap.len (GoMap.set k v m) = GoMap.len m.
  Proof.
    intros H. unfold GoMap.len.
    rewrite <- (length_map fst (GoMap.set k v m)), <- (length_map fst m).
    fold (GoMap.keys (GoMap.set k v m)). fold (GoMap.keys m).
    now rewrite keys_set_present.
  Qed.

Lemma len_set_absent k m v :
    ~ In k (GoMap.keys m) -> GoMap.len (GoMap.set k v m) = GoMap.len m + 1.
  Proof.
    intros H. unfold GoMap.len.
    rewrite <- (length_map fst (GoMap.set k v m)), <- (length_map fst m).
    fold (GoMap.keys (GoMap.set k v m)). fold (GoMap.keys m).
    rewrite keys_set_absent by assumption. rewrite length_app. simpl. lia.
  Qed.

Lemma len_set_le k m v : GoMap.len (GoMap.set k v m) <= GoMap.len m + 1.
  Proof.
    destruct (in_dec string_dec k (GoMap.keys m)).
    - rewrite len_set_present by assumption. lia.
    - rewrite len_set_absent by assumption. lia.
  Qed.

Lemma len_nonneg m : 0 <= GoMap.len m.
  Proof. unfold GoMap.len. lia. Qed.

Lemma len_delete_le k m : GoMap.len (GoMap.delete k m) <= GoMap.len m.
  Proof.
    unfold GoMap.len. induction m as [| [k' v'] rest IH]; simpl; [lia |].
    destruct (String.eqb k k'); simpl; lia.
  Qed.

Lemma len_delete_lt k m :
    In k (GoMap.keys m) -> GoMap.len (GoMap.delete k m) < GoMap.len m.
  Proof.
    unfold GoMap.len. induction m as [| [k' v'] rest IH]; simpl; [tauto |].
    destruct (String.eqb_spec k k') as [-> | Hne].
    - intros _. pose proof (len_delete_le k' rest) as L. unfold GoMap.len in L. lia.
    - intros [E | HIn]; [congruence |]. simpl. specialize (IH HIn). lia.
  Qed.

Lemma keys_delete k m :
    GoMap.keys (GoMap.delete k m)
    = filter (fun x => negb (String.eqb k x)) (GoMap.keys m).
  Proof.
    induction m as [| [k' v'] rest IH]; simpl; [reflexivity |].
    destruct (String.eqb k k'); simpl; now rewrite IH.
  Qed.

Lemma Forall_set (P : string * V -> Prop) k m v :
    P (k, v) -> Forall P m -> Forall P (GoMap.set k v m).
  Proof.
    intros Hk. induction m as [| [k' v'] rest IH]; simpl; intros H.
    - now constructor.
    - inversion H; subst. destruct (String.eqb k k'); constructor; auto.
  Qed.

Lemma Forall_delete (P : string * V -> Prop) k m :
    Forall P m -> Forall P (GoMap.delete k m).
  Proof.
    induction m as [| [k' v'] rest IH]; simpl; intros H; [constructor |].
    inversion H; subst. destruct (String.eqb k k'); [| constructor]; auto.
  Qed.

Lemma values_nil m : GoMap.values m = [] <-> m = [].
  Proof. destruct m; simpl; split; congruence. Qed.

End Facts.
End GoMapFacts.
Import GoMapFacts.

(** ** The freshness helper *)

Lemma RemainingFreshness_exact (now : Z) (so : StoredOrder) :
  Duration.fits (Freshness (Order_ so)) ->
  Duration.fits (now - PlacedAt so) ->
  Duration.fits (Freshness (Order_ so) - (now - PlacedAt so)) ->
  Duration.fits (Z.quot (Freshness (Order_ so)) 2 - (now - PlacedAt so)) ->
  RemainingFreshness now so =
    if String.eqb (Temperature (Order_ so)) TEMP_TYPE_ROOM
    then Freshness (Order_ so) - (now - PlacedAt so)
    else Z.quot (Freshness (Order_ so)) 2 - (now - PlacedAt so).
Proof.
  intros HF He Hd Hh. unfold RemainingFreshness.
  rewrite Since_fits by assumption.
  destruct (String.eqb _ _).
  - unfold Duration.sub. now apply wrap_fits.
  - unfold Duration.sub, Duration.div.
    pose proof (quot2_fits _ HF) as Hq.
    rewrite (wrap_fits _ Hq). now apply wrap_fits.
Qed.

(** C2, as amended.  The remaining freshness the code computes looks at the
    order's temperature and never at the unit the order sits in: for a hot,
    cold or room order stored anywhere it is the value the freshness model
    prescribes for that order on the shelf, that is nominal freshness minus
    elapsed time for a room order and half the nominal freshness minus
    elapsed time for a hot or cold one (no 64-bit overflow assumed). *)
Theorem RemainingFreshness_is_shelf_formula (now : Z) (so : StoredOrder) :
  In (Temperature (Order_ so)) [TEMP_TYPE_HOT; TEMP_TYPE_COLD; TEMP_TYPE_ROOM] ->
  Duration.fits (Freshness (Order_ so)) ->
  Duration.fits (now - PlacedAt so) ->
  Duration.fits (Freshness (Order_ so) - (now - PlacedAt so)) ->
  Duration.fits (Z.quot (Freshness (Order_ so)) 2 - (now - PlacedAt so)) ->
  RemainingFreshness now so = spec_RemainingFreshness ShelfClass now so.
Proof.
  intros Ht HF He Hd Hh.
  rewrite RemainingFreshness_exact by assumption.
  unfold spec_RemainingFreshness, isHotOrCold.
  simpl in Ht. destruct Ht as [E | [E | [E | []]]]; rewrite <- E; reflexivity.
Qed.

Lemma RemainingFreshness_is_shelf_formula_witness :
  RemainingFreshness (2 * second) {| Order_ := hotA; PlacedAt := 0 |}
  = spec_RemainingFreshness ShelfClass (2 * second) {| Order_ := hotA; PlacedAt := 0 |}.
Proof.
  apply (RemainingFreshness_is_shelf_formula (2 * second)
           {| Order_ := hotA; PlacedAt := 0 |}).
  - simpl. left. reflexivity.
  - unfold Duration.fits. vm_compute. split; discriminate.
  - unfold Duration.fits. vm_compute. split; discriminate.
  - unfold Duration.fits. vm_compute. split; discriminate.
  - unfold Duration.fits. vm_compute. split; discriminate.
Defined.

(** C2, as stated, fails: a hot order that [PlaceOrder] has put into the
    heater, its ideal class, is still rated at half its nominal freshness.
    Two seconds after placement the code reports 3 s where the single-rate
    formula gives 8 s. *)
Lemma RemainingFreshness_in_heater_counterexample :
  let fs := PlaceOrder 0 (NewFulfillmentSystem smallConfig) hotA in
  exists so,
    StorageGroup_ListOrders (HeaterGroup fs) = [so]
    /\ StorageGroup_ListOrders (ShelfGroup fs) = []
    /\ Temperature (Order_ so) = TEMP_TYPE_HOT
    /\ RemainingFreshness (2 * second) so = 3 * second
    /\ spec_RemainingFreshness HeaterClass (2 * second) so = 8 * second
    /\ RemainingFreshness (2 * second) so
       <> spec_RemainingFreshness HeaterClass (2 * second) so.
Proof.
  exists {| Order_ := hotA; PlacedAt := 0 |}.
  repeat split; try reflexivity.
  vm_compute. discriminate.
Qed.

(** ** The atomic move *)

Lemma refreshOrder_exact (now : Z) (order : StoredOrder) :
  Duration.fits (now - PlacedAt order) ->
  Duration.fits (2 * (now - PlacedAt order)) ->
  Duration.fits (InitialFreshness (Order_ order) - 2 * (now - PlacedAt order)) ->
  refreshOrder now order =
    if InitialFreshness (Order_ order) - 2 * (now - PlacedAt order) <=? 0
    then None
    else Some {| Order_ :=
                   {| ID := ID (Order_ order);
                      Name := Name (Order_ order);
                      Temperature := Temperature (Order_ order);
                      Freshness :=
                        InitialFreshness (Order_ order) - 2 * (now - PlacedAt order);
                      InitialFreshness := InitialFreshness (Order_ order) |};
                 PlacedAt := now |}.
Proof.
  intros He H2 Hr. unfold refreshOrder.
  rewrite Since_fits by assumption.
  unfold Duration.sub, Duration.mul.
  rewrite (wrap_fits _ H2). rewrite (wrap_fits _ Hr). reflexivity.
Qed.

Lemma refreshOrder_ID (now : Z) (order order' : StoredOrder) :
  refreshOrder now order = Some order' ->
  ID (Order_ order') = ID (Order_ order)
  /\ Temperature (Order_ order') = Temperature (Order_ order).
Proof.
  unfold refreshOrder. destruct (_ <=? 0); [discriminate |].
  intros [= <-]. simpl. auto.
Qed.

Lemma putInFirstWithRoom_None (units : list Storage) (orderID : string)
  (order : StoredOrder) :
  putInFirstWithRoom units orderID order = None
  <-> Forall (fun d => Capacity d <= GoMap.len (Orders d)) units.
Proof.
  induction units as [| d rest IH]; simpl.
  - split; [constructor | reflexivity].
  - destruct (Z.ltb_spec (GoMap.len (Orders d)) (Capacity d)) as [Hlt | Hge].
    + split; [discriminate |]. intros H. inversion H; subst. lia.
    + destruct (putInFirstWithRoom rest orderID order) eqn:E; simpl.
      * split; [discriminate |]. intros H. inversion H; subst.
        apply IH in H3. discriminate.
      * split; [| reflexivity]. intros _. constructor; [lia |]. now apply IH.
Qed.

Lemma putInFirstWithRoom_Some (units units' : list Storage) (orderID : string)
  (order : StoredOrder) :
  putInFirstWithRoom units orderID order = Some units' ->
  exists before d after,
    units = before ++ d :: after
    /\ units' = before
                ++ with_Orders d (GoMap.set orderID order (Orders d)) :: after
    /\ GoMap.len (Orders d) < Capacity d
    /\ Forall (fun d => Capacity d <= GoMap.len (Orders d)) before.
Proof.
  revert units'. induction units as [| d rest IH]; simpl; intros units'.
  - discriminate.
  - destruct (Z.ltb_spec (GoMap.len (Orders d)) (Capacity d)) as [Hlt | Hge].
    + intros [= <-]. exists [], d, rest. repeat split; auto.
    + destruct (putInFirstWithRoom rest orderID order) as [rest' |] eqn:E;
        simpl; [| discriminate].
      intros [= <-].
      destruct (IH rest' eq_refl) as (before & d0 & after & -> & -> & Hlt & Hfull).
      exists (d :: before), d0, after. repeat split; auto.
Qed.

(** The three ways an atomic move returns, read off the code. *)
Lemma atomicMoveOrder_cases (now : Z) (orderID : string) (source : Storage)
  (destination : StorageGroup) :
  (* the order is not in the source *)
  (GetOrder source orderID = None
   /\ atomicMoveOrder now orderID source destination = (false, source, destination))
  \/
  (* the order has expired *)
  (exists order,
      GetOrder source orderID = Some order
      /\ Temperature (Order_ order) <> TEMP_TYPE_ROOM
      /\ refreshOrder now order = None
      /\ atomicMoveOrder now orderID source destination = (false, source, destination))
  \/
  (* the order is movable *)
  (exists order order',
      GetOrder source orderID = Some order
      /\ ((Temperature (Order_ order) = TEMP_TYPE_ROOM /\ order' = order)
          \/ (Temperature (Order_ order) <> TEMP_TYPE_ROOM
              /\ refreshOrder now order = Some order'))
      /\ let source1 :=
           with_Orders source (GoMap.set orderID order' (Orders source)) in
         match putInFirstWithRoom (Storages destination) orderID order' with
         | Some units =>
             atomicMoveOrder now orderID source destination
             = (true, with_Orders source (GoMap.delete orderID (Orders source1)),
                mkGroup units)
         | None =>
             atomicMoveOrder now orderID source destination
             = (false, source1, destination)
         end).
Proof.
  unfold atomicMoveOrder, GetOrder.
  destruct (GoMap.get orderID (Orders source)) as [order |] eqn:Eget.
  2: { left. auto. }
  right.
  destruct (String.eqb_spec (Temperature (Order_ order)) TEMP_TYPE_ROOM)
    as [Eroom | Nroom]; simpl.
  - right. exists order, order. split; [reflexivity |]. split; [left; auto |].
    rewrite (set_get_same _ _ _ Eget).
    assert (Es : with_Orders source (Orders source) = source) by now destruct source.
    rewrite Es.
    destruct (putInFirstWithRoom _ _ _); reflexivity.
  - destruct (refreshOrder now order) as [order' |] eqn:Eref.
    + right. exists order, order'. split; [reflexivity |]. split; [right; auto |].
      simpl. destruct (putInFirstWithRoom _ _ _); reflexivity.
    + left. exists order. auto.
Qed.

Lemma atomicMoveOrder_absent (now : Z) (orderID : string) (source : Storage)
  (destination : StorageGroup) :
  GetOrder source orderID = None ->
  atomicMoveOrder now orderID source destination = (false, source, destination).
Proof.
  unfold atomicMoveOrder, GetOrder. now intros ->.
Qed.

(** A failed move never touches the destination and never changes which
    ids the source holds. *)
Lemma atomicMoveOrder_failure (now : Z) (orderID : string) (source source' : Storage)
  (destination destination' : StorageGroup) :
  atomicMoveOrder now orderID source destination = (false, source', destination') ->
  destination' = destination
  /\ Capacity source' = Capacity source
  /\ unit_ids source' = unit_ids source.
Proof.
  destruct (atomicMoveOrder_cases now orderID source destination)
    as [[_ E] | [(order & _ & _ & _ & E) | (order & order' & Hget & _ & E)]].
  - rewrite E. intros [= <- <-]. auto.
  - rewrite E. intros [= <- <-]. auto.
  - simpl in E. destruct (putInFirstWithRoom _ _ _).
    + rewrite E. discriminate.
    + rewrite E. intros [= <- <-]. repeat split.
      unfold unit_ids. simpl. apply keys_set_present.
      eapply get_Some_keys. exact Hget.
Qed.

(** The paths of a failed move that do leave the source as it was: the
    order is absent, it has expired, or it is a room temperature order. *)
Lemma atomicMoveOrder_failure_unchanged (now : Z) (orderID : string)
  (source source' : Storage) (destination destination' : StorageGroup) :
  atomicMoveOrder now orderID source destination = (false, source', destination') ->
  match GetOrder source orderID with
  | None => True
  | Some order =>
      Temperature (Order_ order) = TEMP_TYPE_ROOM \/ refreshOrder now order = None
  end ->
  source' = source /\ destination' = destination.
Proof.
  intros E H.
  destruct (atomicMoveOrder_cases now orderID source destination)
    as [[_ E'] | [(order & _ & _ & _ & E') | (order & order' & Hget & Hord & E')]].
  - rewrite E' in E. now injection E as <- <-.
  - rewrite E' in E. now injection E as <- <-.
  - rewrite Hget in H. simpl in E'.
    destruct (putInFirstWithRoom _ _ _); rewrite E' in E; [discriminate |].
    injection E as <- <-. split; [| reflexivity].
    destruct Hord as [[_ ->] | [Hne Href]].
    + unfold GetOrder in Hget. rewrite (set_get_same _ _ _ Hget).
      now destruct source.
    + destruct H as [H | H]; congruence.
Qed.

(** The remaining path: an order that is neither room temperature nor
    expired, and a destination without room.  The move fails, and the
    source's cell now holds the refreshed record. *)
Lemma atomicMoveOrder_no_room_rewrites (now : Z) (orderID : string)
  (source : Storage) (destination : StorageGroup) (order order' : StoredOrder) :
  GetOrder source orderID = Some order ->
  Temperature (Order_ order) <> TEMP_TYPE_ROOM ->
  refreshOrder now order = Some order' ->
  Forall (fun d => Capacity d <= GoMap.len (Orders d)) (Storages destination) ->
  exists source',
    atomicMoveOrder now orderID source destination = (false, source', destination)
    /\ GetOrder source' orderID = Some order'
    /\ Freshness (Order_ order')
       = Duration.sub (InitialFreshness (Order_ order))
           (Duration.mul 2 (Since now (PlacedAt order)))
    /\ PlacedAt order' = now.
Proof.
  intros Hget Hne Href Hfull.
  apply (putInFirstWithRoom_None _ orderID order') in Hfull.
  unfold atomicMoveOrder. unfold GetOrder in Hget. rewrite Hget.
  apply String.eqb_neq in Hne. rewrite Hne. simpl. rewrite Href, Hfull.
  eexists. split; [reflexivity |].
  split; [unfold GetOrder; simpl; apply get_set_same |].
  unfold refreshOrder in Href. destruct (_ <=? 0); [discriminate |].
  injection Href as <-. simpl. auto.
Qed.

(** C1: the code departs from the claim on the path on which no destination
    unit has room.  The hot order [A] sits on the shelf since instant 0 with
    ten seconds of freshness; one second later a move into the full heater
    group is attempted.  The call returns [false] and leaves the heater as it
    was, yet the order on the shelf now carries a freshness of eight seconds
    and a placement instant of one second. *)
Theorem atomicMoveOrder_failed_move_rewrites_order :
  GetOrder shelfWithA "A" = Some {| Order_ := hotA; PlacedAt := 0 |}
  /\ exists source',
      atomicMoveOrder second "A" shelfWithA fullHeater = (false, source', fullHeater)
      /\ option_map (fun so => Freshness (Order_ so)) (GetOrder source' "A")
         = Some (8 * second)
      /\ option_map PlacedAt (GetOrder source' "A") = Some second
      /\ source' <> shelfWithA.
Proof.
  split; [reflexivity |].
  eexists. split; [vm_compute; reflexivity |].
  split; [reflexivity |]. split; [reflexivity |].
  vm_compute. discriminate.
Qed.

(** The same rewrite inside the engine.  Placing [B] in [overflowRun] first
    attempts to move the hot shelf order [A] into the full heater, then
    discards [E].  No move is logged and [A] is still on the shelf, with a
    freshness of eight seconds and a placement instant of one second. *)
Example failed_move_rewrite_in_PlaceOrder :
  let fs := run overflowRun (NewFulfillmentSystem smallConfig) in
  map (fun a => (OrderID a, Action_ a)) (Actions fs)
  = [("H", "place"); ("A", "place"); ("E", "place"); ("E", "discard");
     ("B", "place")]%string
  /\ map (fun so => (ID (Order_ so), Freshness (Order_ so), PlacedAt so))
       (StorageGroup_ListOrders (ShelfGroup fs))
     = [("A"%string, 8 * second, second); ("B"%string, 100 * second, second)].
Proof. split; reflexivity. Qed.

(** What the rewrite costs.  Moved into a free heater four seconds after its
    placement, [A] keeps [10 - 2*4 = 2] seconds.  If a move into the full
    heater was attempted at second one, the same move at second four is
    computed from the rewritten placement instant and leaves [A] with
    [10 - 2*3 = 4] seconds. *)
Example failed_move_extends_freshness :
  let stored (r : bool * Storage * StorageGroup) :=
    map (fun so => Freshness (Order_ so)) (StorageGroup_ListOrders (snd r)) in
  stored (atomicMoveOrder (4 * second) "A" shelfWithA emptyHeater) = [2 * second]
  /\ stored (atomicMoveOrder (4 * second) "A"
               (snd (fst (atomicMoveOrder second "A" shelfWithA fullHeater)))
               emptyHeater)
     = [4 * second].
Proof. split; reflexivity. Qed.

(** C3, as amended.  For an order of the source that is not room
    temperature, with [remaining] the original nominal freshness minus twice
    the time since placement (no 64-bit overflow assumed):
    - when [remaining <= 0] the move is refused and nothing changes;
    - when [0 < remaining] and some destination unit has room, the move
      succeeds;
    - after a successful move the order has left the source and sits in a
      destination unit with stored freshness [remaining] and placement
      instant [now];
    - when the nominal freshness is an even number of nanoseconds,
      [remaining] is twice the double-rate remaining freshness of the
      freshness model, so the refusal test agrees with that formula. *)
Theorem atomicMoveOrder_refreshes_freshness (now : Z) (orderID : string)
  (source : Storage) (destination : StorageGroup) (order : StoredOrder) :
  GetOrder source orderID = Some order ->
  Temperature (Order_ order) <> TEMP_TYPE_ROOM ->
  Duration.fits (now - PlacedAt order) ->
  Duration.fits (2 * (now - PlacedAt order)) ->
  Duration.fits (InitialFreshness (Order_ order) - 2 * (now - PlacedAt order)) ->
  let remaining := InitialFreshness (Order_ order) - 2 * (now - PlacedAt order) in
  let moved :=
    {| Order_ := {| ID := ID (Order_ order);
                    Name := Name (Order_ order);
                    Temperature := Temperature (Order_ order);
                    Freshness := remaining;
                    InitialFreshness := InitialFreshness (Order_ order) |};
       PlacedAt := now |} in
  (remaining <= 0 ->
   atomicMoveOrder now orderID source destination = (false, source, destination))
  /\ (0 < remaining ->
      Exists (fun d => GoMap.len (Orders d) < Capacity d) (Storages destination) ->
      fst (fst (atomicMoveOrder now orderID source destination)) = true)
  /\ (forall source' destination',
         atomicMoveOrder now orderID source destination
         = (true, source', destination') ->
         0 < remaining
         /\ GetOrder source' orderID = None
         /\ exists d, In d (Storages destination')
                      /\ GetOrder d orderID = Some moved)
  /\ (Z.even (InitialFreshness (Order_ order)) = true ->
      remaining = 2 * spec_moveRemaining now order
      /\ (remaining <= 0 <-> spec_moveRemaining now order <= 0)).
Proof.
  intros Hget Hroom He H2 Hr remaining moved.
  pose proof (refreshOrder_exact now order He H2 Hr) as Eref.
  fold remaining in Eref. fold moved in Eref.
  assert (Hcode : atomicMoveOrder now orderID source destination =
    if remaining <=? 0 then (false, source, destination)
    else match putInFirstWithRoom (Storages destination) orderID moved with
         | Some units =>
             (true,
              with_Orders source
                (GoMap.delete orderID (GoMap.set orderID moved (Orders source))),
              mkGroup units)
         | None =>
             (false, with_Orders source (GoMap.set orderID moved (Orders source)),
              destination)
         end).
  { unfold atomicMoveOrder. unfold GetOrder in Hget. rewrite Hget.
    apply String.eqb_neq in Hroom. rewrite Hroom. simpl. rewrite Eref.
    destruct (remaining <=? 0); [reflexivity |].
    destruct (putInFirstWithRoom _ _ _); reflexivity. }
  repeat split.
  - intros Hle. rewrite Hcode.
    destruct (Z.leb_spec remaining 0); [reflexivity | lia].
  - intros Hpos Hroom'. rewrite Hcode.
    destruct (Z.leb_spec remaining 0); [lia |].
    destruct (putInFirstWithRoom (Storages destination) orderID moved) eqn:E;
      [reflexivity |].
    apply putInFirstWithRoom_None in E.
    apply Exists_exists in Hroom'. destruct Hroom' as (d & Hd & Hlt).
    rewrite Forall_forall in E. specialize (E d Hd). lia.
  - rewrite Hcode in H. destruct (Z.leb_spec remaining 0); [discriminate | lia].
  - rewrite Hcode in H. destruct (remaining <=? 0); [discriminate |].
    destruct (putInFirstWithRoom _ _ _); [| discriminate].
    injection H as <- _. unfold GetOrder. simpl. apply get_delete_same.
  - rewrite Hcode in H. destruct (remaining <=? 0); [discriminate |].
    destruct (putInFirstWithRoom _ _ _) as [units |] eqn:E; [| discriminate].
    injection H as _ <-.
    destruct (putInFirstWithRoom_Some _ _ _ _ E)
      as (before & d & after & _ & -> & _ & _).
    eexists. simpl. split.
    + apply in_or_app. right. left. reflexivity.
    + unfold GetOrder. simpl. apply get_set_same.
  - unfold remaining, spec_moveRemaining.
    destruct (Zeven_ex (InitialFreshness (Order_ order))) as [k Ek].
    { now apply Zeven_bool_iff. }
    rewrite Ek. rewrite Z.mul_comm, Z.quot_mul by lia. lia.
  - unfold remaining, spec_moveRemaining.
    destruct (Zeven_ex (InitialFreshness (Order_ order))) as [k Ek].
    { now apply Zeven_bool_iff. }
    rewrite Ek. rewrite (Z.mul_comm 2 k), Z.quot_mul by lia. lia.
  - unfold remaining, spec_moveRemaining.
    destruct (Zeven_ex (InitialFreshness (Order_ order))) as [k Ek].
    { now apply Zeven_bool_iff. }
    rewrite Ek. rewrite (Z.mul_comm 2 k), Z.quot_mul by lia. lia.
Qed.

Lemma atomicMoveOrder_refreshes_freshness_witness :
  fst (fst (atomicMoveOrder second "A" shelfWithA emptyHeater)) = true.
Proof.
  assert (Hfits : forall z, (Duration.min_int64 <=? z) && (z <=? Duration.max_int64) = true ->
                            Duration.fits z).
  { intros z H. apply andb_prop in H. destruct H as [H1 H2].
    split; [now apply Z.leb_le | now apply Z.leb_le]. }
  refine (proj1 (proj2 (atomicMoveOrder_refreshes_freshness second "A" shelfWithA
                          emptyHeater {| Order_ := hotA; PlacedAt := 0 |}
                          eq_refl _ _ _ _)) _ _).
  - discriminate.
  - apply Hfits. reflexivity.
  - apply Hfits. reflexivity.
  - apply Hfits. reflexivity.
  - reflexivity.
  - constructor. reflexivity.
Defined.

(** C3, as stated, fails on the value that is stored.  One second after its
    placement the hot order [A] (ten seconds of nominal freshness) is moved
    into a free heater: the double-rate formula gives [10/2 - 1 = 4] seconds,
    the code stores [10 - 2*1 = 8] seconds. *)
Lemma atomicMoveOrder_stored_freshness_counterexample :
  let order := {| Order_ := hotA; PlacedAt := 0 |} in
  GetOrder shelfWithA "A" = Some order
  /\ spec_moveRemaining second order = 4 * second
  /\ exists source' destination' moved,
      atomicMoveOrder second "A" shelfWithA emptyHeater
      = (true, source', destination')
      /\ StorageGroup_ListOrders destination' = [moved]
      /\ Freshness (Order_ moved) = 8 * second
      /\ PlacedAt moved = second
      /\ Freshness (Order_ moved) <> spec_moveRemaining second order.
Proof.
  simpl. split; [reflexivity |]. split; [reflexivity |].
  do 3 eexists. split; [vm_compute; reflexivity |].
  split; [reflexivity |]. split; [reflexivity |]. split; [reflexivity |].
  vm_compute. discriminate.
Qed.

(** ** Units and groups *)

Lemma with_Orders_same (s : Storage) : with_Orders s (Orders s) = s.
Proof. now destruct s. Qed.

Lemma holds_true_iff (s : Storage) (orderID : string) :
  holds s orderID = true <-> In orderID (unit_ids s).
Proof.
  unfold holds, GetOrder, unit_ids.
  destruct (GoMap.get orderID (Orders s)) eqn:E.
  - split; [intros _; eapply get_Some_keys; eauto | reflexivity].
  - split; [discriminate |]. apply get_None_keys in E. tauto.
Qed.

Lemma holds_false_iff (s : Storage) (orderID : string) :
  holds s orderID = false <-> ~ In orderID (unit_ids s).
Proof.
  rewrite <- holds_true_iff. destruct (holds s orderID); split; congruence.
Qed.

Lemma Storage_IsFull_false (s : Storage) :
  Storage_IsFull s = false <-> GoMap.len (Orders s) < Capacity s.
Proof. unfold Storage_IsFull. rewrite Z.leb_gt. tauto. Qed.

Lemma Storage_IsFull_true (s : Storage) :
  Storage_IsFull s = true <-> Capacity s <= GoMap.len (Orders s).
Proof. unfold Storage_IsFull. rewrite Z.leb_le. tauto. Qed.

(** [Storage.Add]: an id already in the unit is overwritten, a new id needs
    a free slot. *)
Lemma Storage_Add_spec (s : Storage) (order : StoredOrder) :
  (holds s (ID (Order_ order)) = true \/ GoMap.len (Orders s) < Capacity s ->
   Storage_Add s order
   = (true, with_Orders s (GoMap.set (ID (Order_ order)) order (Orders s))))
  /\ (holds s (ID (Order_ order)) = false /\ Capacity s <= GoMap.len (Orders s) ->
      Storage_Add s order = (false, s)).
Proof.
  unfold Storage_Add, holds, GetOrder.
  destruct (GoMap.get (ID (Order_ order)) (Orders s)).
  - split; [reflexivity | intros [? _]; discriminate].
  - destruct (Z.ltb_spec (GoMap.len (Orders s)) (Capacity s)).
    + split; [reflexivity | intros [_ ?]; lia].
    + split; [intros [? | ?]; [discriminate | lia] | reflexivity].
Qed.

Lemma Storage_Remove_spec (s : Storage) (orderID : string) :
  match GetOrder s orderID with
  | Some so =>
      Storage_Remove s orderID
      = (Some so, with_Orders s (GoMap.delete orderID (Orders s)))
  | None => Storage_Remove s orderID = (None, s)
  end.
Proof.
  unfold Storage_Remove, GetOrder.
  destruct (GoMap.get orderID (Orders s)); reflexivity.
Qed.

(** [StorageGroup.Add] is first-fit: it fails, changing nothing, when every
    unit is full, and otherwise inserts into the first unit that is not. *)
Lemma addToUnits_spec (units : list Storage) (order : StoredOrder) :
  (forallb Storage_IsFull units = true /\ addToUnits units order = (false, units))
  \/ (exists before s after,
         units = before ++ s :: after
         /\ forallb Storage_IsFull before = true
         /\ Storage_IsFull s = false
         /\ addToUnits units order
            = (true,
               before
               ++ with_Orders s (GoMap.set (ID (Order_ order)) order (Orders s))
               :: after)).
Proof.
  induction units as [| s rest IH]; simpl.
  - left. auto.
  - destruct (Storage_IsFull s) eqn:Efull; simpl.
    + destruct IH as [[Hall E] | (before & s0 & after & -> & Hb & Hs & E)].
      * left. rewrite E. auto.
      * right. exists (s :: before), s0, after. simpl. rewrite Efull, E. auto.
    + right. exists [], s, rest. simpl.
      apply Storage_IsFull_false in Efull as Hlt.
      rewrite (proj1 (Storage_Add_spec s order) (or_intror Hlt)). auto.
Qed.

Lemma StorageGroup_Add_full (sg : StorageGroup) (order : StoredOrder) :
  StorageGroup_IsFull sg = true -> StorageGroup_Add sg order = (false, sg).
Proof.
  unfold StorageGroup_IsFull, StorageGroup_Add. intros Hfull.
  destruct (addToUnits_spec (Storages sg) order)
    as [[_ E] | (before & s & after & E & _ & Hs & _)].
  - rewrite E. now destruct sg.
  - rewrite E, forallb_app in Hfull. simpl in Hfull. rewrite Hs in Hfull.
    rewrite andb_false_r in Hfull. discriminate.
Qed.

Lemma StorageGroup_Add_not_full (sg : StorageGroup) (order : StoredOrder) :
  StorageGroup_IsFull sg = false -> fst (StorageGroup_Add sg order) = true.
Proof.
  unfold StorageGroup_IsFull, StorageGroup_Add. intros Hfull.
  destruct (addToUnits_spec (Storages sg) order)
    as [[Hall _] | (before & s & after & _ & _ & _ & E)].
  - congruence.
  - now rewrite E.
Qed.

Lemma StorageGroup_Add_false (sg sg' : StorageGroup) (order : StoredOrder) :
  StorageGroup_Add sg order = (false, sg') ->
  sg' = sg /\ StorageGroup_IsFull sg = true.
Proof.
  intros E. destruct (StorageGroup_IsFull sg) eqn:Efull.
  - rewrite (StorageGroup_Add_full _ _ Efull) in E. injection E as <-. auto.
  - apply (StorageGroup_Add_not_full _ order) in Efull. rewrite E in Efull.
    discriminate.
Qed.

(** [StorageGroup.Remove] takes the order out of the first unit that holds
    its id, and changes nothing when no unit does. *)
Lemma removeFromUnits_spec (units : list Storage) (orderID : string) :
  (existsb (fun s => holds s orderID) units = false
   /\ removeFromUnits units orderID = (None, units))
  \/ (exists before s after so,
         units = before ++ s :: after
         /\ existsb (fun s => holds s orderID) before = false
         /\ GetOrder s orderID = Some so
         /\ removeFromUnits units orderID
            = (Some so,
               before ++ with_Orders s (GoMap.delete orderID (Orders s)) :: after)).
Proof.
  induction units as [| s rest IH]; simpl.
  - left. auto.
  - pose proof (Storage_Remove_spec s orderID) as Hs. unfold holds.
    destruct (GetOrder s orderID) as [so |] eqn:Eget; rewrite Hs; simpl.
    + right. exists [], s, rest, so. auto.
    + destruct IH as [[Hall E] | (before & s0 & after & so & -> & Hb & Hs0 & E)].
      * left. rewrite E. auto.
      * right. exists (s :: before), s0, after, so. simpl.
        rewrite Eget, E. auto.
Qed.

Lemma StorageGroup_Remove_absent (sg : StorageGroup) (orderID : string) :
  group_holds sg orderID = false -> StorageGroup_Remove sg orderID = (None, sg).
Proof.
  unfold group_holds, StorageGroup_Remove. intros H.
  destruct (removeFromUnits_spec (Storages sg) orderID)
    as [[_ E] | (before & s & after & so & E & _ & Hs & _)].
  - rewrite E. now destruct sg.
  - rewrite E, existsb_app in H. simpl in H. unfold holds in H at 2.
    rewrite Hs in H. rewrite orb_true_r in H. discriminate.
Qed.

Lemma StorageGroup_Remove_present (sg : StorageGroup) (orderID : string) :
  group_holds sg orderID = true ->
  exists before s after so,
    Storages sg = before ++ s :: after
    /\ existsb (fun s => holds s orderID) before = false
    /\ GetOrder s orderID = Some so
    /\ StorageGroup_Remove sg orderID
       = (Some so,
          mkGroup (before
                   ++ with_Orders s (GoMap.delete orderID (Orders s)) :: after)).
Proof.
  unfold group_holds, StorageGroup_Remove. intros H.
  destruct (removeFromUnits_spec (Storages sg) orderID)
    as [[Hn _] | (before & s & after & so & E & Hb & Hs & Er)].
  - congruence.
  - exists before, s, after, so. rewrite Er. auto.
Qed.

Lemma group_holds_iff (sg : StorageGroup) (orderID : string) :
  group_holds sg orderID = true <-> In orderID (units_ids (Storages sg)).
Proof.
  unfold group_holds, units_ids. rewrite existsb_exists, in_flat_map.
  split; intros (s & Hs & H); exists s; split; auto; now apply holds_true_iff.
Qed.

(** ** The least fresh order *)

Lemma GetLeastFreshOrder_fold (now : Z) (sg : StorageGroup) :
  GetLeastFreshOrder now sg
  = fold_left (leastStep now) (StorageGroup_ListOrders sg) None.
Proof.
  unfold GetLeastFreshOrder, StorageGroup_ListOrders.
  generalize (@None StoredOrder).
  induction (Storages sg) as [| s rest IH]; simpl; intros acc.
  - reflexivity.
  - rewrite fold_left_app. apply IH.
Qed.

Lemma leastFold_from (now : Z) (l : list StoredOrder) (a : StoredOrder) :
  exists r,
    fold_left (leastStep now) l (Some a) = Some r
    /\ ((r = a
         /\ Forall (fun x => RemainingFreshness now a <= RemainingFreshness now x) l)
        \/ (exists l1 l2,
               l = l1 ++ r :: l2
               /\ RemainingFreshness now r < RemainingFreshness now a
               /\ Forall (fun x => RemainingFreshness now r
                                   < RemainingFreshness now x) l1
               /\ Forall (fun x => RemainingFreshness now r
                                   <= RemainingFreshness now x) l2)).
Proof.
  revert a. induction l as [| x l IH]; intros a; simpl.
  - exists a. split; [reflexivity |]. left. auto.
  - destruct (Z.ltb_spec (RemainingFreshness now x) (RemainingFreshness now a))
      as [Hlt | Hge].
    + destruct (IH x) as (r & Er & [[-> Hall] | (l1 & l2 & -> & Hr & H1 & H2)]).
      * exists x. split; [exact Er |]. right. exists [], l. auto.
      * exists r. split; [exact Er |]. right. exists (x :: l1), l2.
        split; [reflexivity |]. split; [lia |]. split; [| exact H2].
        constructor; [exact Hr | exact H1].
    + destruct (IH a) as (r & Er & [[-> Hall] | (l1 & l2 & -> & Hr & H1 & H2)]).
      * exists a. split; [exact Er |]. left. split; auto.
      * exists r. split; [exact Er |]. right. exists (x :: l1), l2.
        split; [reflexivity |]. split; [exact Hr |]. split; [| exact H2].
        constructor; [lia | exact H1].
Qed.

Lemma GetLeastFreshOrder_None (now : Z) (sg : StorageGroup) :
  GetLeastFreshOrder now sg = None <-> StorageGroup_ListOrders sg = [].
Proof.
  rewrite GetLeastFreshOrder_fold.
  destruct (StorageGroup_ListOrders sg) as [| a l]; simpl.
  - tauto.
  - destruct (leastFold_from now l a) as (r & Er & _). rewrite Er.
    split; discriminate.
Qed.

Lemma GetLeastFreshOrder_Some (now : Z) (sg : StorageGroup) (so : StoredOrder) :
  GetLeastFreshOrder now sg = Some so ->
  exists l1 l2,
    StorageGroup_ListOrders sg = l1 ++ so :: l2
    /\ Forall (fun x => RemainingFreshness now so < RemainingFreshness now x) l1
    /\ Forall (fun x => RemainingFreshness now so <= RemainingFreshness now x) l2.
Proof.
  rewrite GetLeastFreshOrder_fold.
  destruct (StorageGroup_ListOrders sg) as [| a l]; simpl; [discriminate |].
  destruct (leastFold_from now l a) as (r & Er & H). rewrite Er. intros [= <-].
  destruct H as [[-> Hall] | (l1 & l2 & -> & Hr & H1 & H2)].
  - exists [], l. auto.
  - exists (a :: l1), l2. split; [reflexivity |]. split; [| exact H2].
    constructor; [exact Hr | exact H1].
Qed.

Lemma GetLeastFreshOrder_minimal (now : Z) (sg : StorageGroup) (so : StoredOrder) :
  GetLeastFreshOrder now sg = Some so ->
  In so (StorageGroup_ListOrders sg)
  /\ Forall (fun x => RemainingFreshness now so <= RemainingFreshness now x)
       (StorageGroup_ListOrders sg).
Proof.
  intros H. destruct (GetLeastFreshOrder_Some _ _ _ H) as (l1 & l2 & -> & H1 & H2).
  split.
  - apply in_or_app. right. now left.
  - apply Forall_app. split.
    + eapply Forall_impl; [| exact H1]. simpl. intros. lia.
    + constructor; [lia | exact H2].
Qed.

(** ** How units evolve *)

Lemma evolves_refl (s : Storage) : evolves s s.
Proof. unfold evolves. auto. Qed.

Lemma evolves_trans (a b c : Storage) : evolves a b -> evolves b c -> evolves a c.
Proof.
  unfold evolves. intros (N1 & C1 & W1) (N2 & C2 & W2).
  repeat split; [congruence | congruence | auto].
Qed.

Lemma shelf_evolves_refl (s : Storage) : shelf_evolves s s.
Proof. split; [apply evolves_refl | auto]. Qed.

Lemma shelf_evolves_trans (a b c : Storage) :
  shelf_evolves a b -> shelf_evolves b c -> shelf_evolves a c.
Proof.
  intros [E1 K1] [E2 K2]. split; [eapply evolves_trans; eauto | auto].
Qed.

Lemma Forall2_same {A : Type} (R : A -> A -> Prop) (l : list A) :
  (forall x, R x x) -> Forall2 R l l.
Proof. intros H. induction l; constructor; auto. Qed.

Lemma Forall2_chain {A : Type} (R : A -> A -> Prop) (l1 l2 l3 : list A) :
  (forall a b c, R a b -> R b c -> R a c) ->
  Forall2 R l1 l2 -> Forall2 R l2 l3 -> Forall2 R l1 l3.
Proof.
  intros HT H12. revert l3. induction H12; intros l3 H23; inversion H23; subst.
  - constructor.
  - constructor; eauto.
Qed.

Lemma Forall2_middle {A : Type} (R : A -> A -> Prop) (before after : list A)
  (x y : A) :
  (forall x, R x x) -> R x y ->
  Forall2 R (before ++ x :: after) (before ++ y :: after).
Proof.
  intros HR Hxy. apply Forall2_app; [now apply Forall2_same |].
  constructor; [exact Hxy | now apply Forall2_same].
Qed.

Lemma Forall2_weaken {A : Type} (R R' : A -> A -> Prop) (l l' : list A) :
  (forall x y, R x y -> R' x y) -> Forall2 R l l' -> Forall2 R' l l'.
Proof. intros H F. induction F; constructor; auto. Qed.

Lemma shelf_evolves_evolves (l l' : list Storage) :
  Forall2 shelf_evolves l l' -> Forall2 evolves l l'.
Proof. apply Forall2_weaken. now intros x y [H _]. Qed.

Lemma evolves_set_present (s : Storage) (k : string) (v : StoredOrder) :
  In k (unit_ids s) -> evolves s (with_Orders s (GoMap.set k v (Orders s))).
Proof.
  intros H. unfold evolves, within_capacity. simpl.
  rewrite len_set_present by exact H. auto.
Qed.

Lemma evolves_set_room (s : Storage) (k : string) (v : StoredOrder) :
  GoMap.len (Orders s) < Capacity s ->
  evolves s (with_Orders s (GoMap.set k v (Orders s))).
Proof.
  intros H. unfold evolves, within_capacity. simpl.
  pose proof (len_set_le k (Orders s) v). repeat split. lia.
Qed.

Lemma evolves_delete (s : Storage) (k : string) :
  evolves s (with_Orders s (GoMap.delete k (Orders s))).
Proof.
  unfold evolves, within_capacity. simpl.
  pose proof (len_delete_le k (Orders s)). repeat split. lia.
Qed.

Lemma keyed_set (s : Storage) (k : string) (v : StoredOrder) :
  k = ID (Order_ v) -> keyed s -> keyed (with_Orders s (GoMap.set k v (Orders s))).
Proof. unfold keyed. simpl. intros E H. now apply Forall_set. Qed.

Lemma keyed_delete (s : Storage) (k : string) :
  keyed s -> keyed (with_Orders s (GoMap.delete k (Orders s))).
Proof. unfold keyed. simpl. apply Forall_delete. Qed.

Lemma keyed_get (s : Storage) (k : string) (v : StoredOrder) :
  keyed s -> GetOrder s k = Some v -> k = ID (Order_ v).
Proof.
  unfold keyed, GetOrder. intros H E. apply get_Some_In in E.
  rewrite Forall_forall in H. exact (H _ E).
Qed.

Lemma shelf_evolves_add (s : Storage) (order : StoredOrder) :
  shelf_evolves s (snd (Storage_Add s order)).
Proof.
  unfold Storage_Add.
  destruct (GoMap.get (ID (Order_ order)) (Orders s)) eqn:E; simpl.
  - split; [| now apply keyed_set].
    apply evolves_set_present. eapply get_Some_keys; eauto.
  - destruct (Z.ltb_spec (GoMap.len (Orders s)) (Capacity s)); simpl.
    + split; [now apply evolves_set_room | now apply keyed_set].
    + apply shelf_evolves_refl.
Qed.

Lemma shelf_evolves_remove (s : Storage) (orderID : string) :
  shelf_evolves s (snd (Storage_Remove s orderID)).
Proof.
  unfold Storage_Remove. destruct (GoMap.get orderID (Orders s)); simpl.
  - split; [apply evolves_delete | apply keyed_delete].
  - apply shelf_evolves_refl.
Qed.

Lemma addToUnits_evolves (units : list Storage) (order : StoredOrder) :
  Forall2 shelf_evolves units (snd (addToUnits units order)).
Proof.
  induction units as [| s rest IH]; simpl; [constructor |].
  pose proof (shelf_evolves_add s order) as Hs.
  destruct (Storage_IsFull s); simpl.
  - destruct (addToUnits rest order). simpl in *.
    constructor; [apply shelf_evolves_refl | exact IH].
  - destruct (Storage_Add s order) as [[|] s']; simpl in *.
    + constructor; [exact Hs | apply Forall2_same, shelf_evolves_refl].
    + destruct (addToUnits rest order). simpl in *. constructor; auto.
Qed.

Lemma removeFromUnits_evolves (units : list Storage) (orderID : string) :
  Forall2 shelf_evolves units (snd (removeFromUnits units orderID)).
Proof.
  induction units as [| s rest IH]; simpl; [constructor |].
  pose proof (shelf_evolves_remove s orderID) as Hs.
  destruct (Storage_Remove s orderID) as [[so |] s']; simpl in *.
  - constructor; [exact Hs | apply Forall2_same, shelf_evolves_refl].
  - destruct (removeFromUnits rest orderID). simpl in *. constructor; auto.
Qed.

Lemma atomicMoveOrder_source_evolves (now : Z) (orderID : string)
  (source : Storage) (destination : StorageGroup) :
  shelf_evolves source (snd (fst (atomicMoveOrder now orderID source destination))).
Proof.
  destruct (atomicMoveOrder_cases now orderID source destination)
    as [[_ E] | [(order & _ & _ & _ & E) | (order & order' & Hget & Hord & E)]].
  - rewrite E. apply shelf_evolves_refl.
  - rewrite E. apply shelf_evolves_refl.
  - simpl in E.
    assert (H1 : shelf_evolves source
                   (with_Orders source (GoMap.set orderID order' (Orders source)))).
    { split.
      - apply evolves_set_present. eapply get_Some_keys. exact Hget.
      - intros K. apply keyed_set; [| exact K].
        rewrite (keyed_get _ _ _ K Hget).
        destruct Hord as [[_ ->] | [_ Href]]; [reflexivity |].
        symmetry. exact (proj1 (refreshOrder_ID _ _ _ Href)). }
    destruct (putInFirstWithRoom _ _ _); rewrite E; simpl; [| exact H1].
    eapply shelf_evolves_trans; [exact H1 |].
    set (source1 := with_Orders source (GoMap.set orderID order' (Orders source))).
    split; [exact (evolves_delete source1 orderID) | exact (keyed_delete source1 orderID)].
Qed.

Lemma putInFirstWithRoom_evolves (units units' : list Storage) (orderID : string)
  (order : StoredOrder) :
  putInFirstWithRoom units orderID order = Some units' ->
  Forall2 evolves units units'.
Proof.
  intros H. apply putInFirstWithRoom_Some in H.
  destruct H as (before & d & after & -> & -> & Hlt & _).
  apply Forall2_middle; [apply evolves_refl | now apply evolves_set_room].
Qed.

Lemma atomicMoveOrder_destination_evolves (now : Z) (orderID : string)
  (source : Storage) (destination : StorageGroup) :
  Forall2 evolves (Storages destination)
    (Storages (snd (atomicMoveOrder now orderID source destination))).
Proof.
  destruct (atomicMoveOrder_cases now orderID source destination)
    as [[_ E] | [(order & _ & _ & _ & E) | (order & order' & Hget & Hord & E)]].
  - rewrite E. apply Forall2_same, evolves_refl.
  - rewrite E. apply Forall2_same, evolves_refl.
  - simpl in E.
    destruct (putInFirstWithRoom _ _ _) eqn:Eput; rewrite E; simpl.
    + eapply putInFirstWithRoom_evolves; eauto.
    + apply Forall2_same, evolves_refl.
Qed.

Lemma moveFromShelves_evolves (now : Z) (orderID : string) (shelves : list Storage)
  (destination : StorageGroup) :
  Forall2 shelf_evolves shelves
    (snd (fst (moveFromShelves now orderID shelves destination)))
  /\ Forall2 evolves (Storages destination)
       (Storages (snd (moveFromShelves now orderID shelves destination))).
Proof.
  revert destination. induction shelves as [| shelf rest IH]; intros destination; simpl.
  - split; [constructor | apply Forall2_same, evolves_refl].
  - pose proof (atomicMoveOrder_source_evolves now orderID shelf destination) as Hs.
    pose proof (atomicMoveOrder_destination_evolves now orderID shelf destination) as Hd.
    destruct (atomicMoveOrder now orderID shelf destination)
      as [[moved shelf'] destination']. simpl in Hs, Hd.
    destruct moved; simpl.
    + split; [| exact Hd].
      constructor; [exact Hs | apply Forall2_same, shelf_evolves_refl].
    + specialize (IH destination').
      destruct (moveFromShelves now orderID rest destination')
        as [[r rest'] destination'']. simpl in *.
      destruct IH as [IH1 IH2]. split.
      * constructor; auto.
      * eapply Forall2_chain; [exact evolves_trans | exact Hd | exact IH2].
Qed.

Lemma tryMoveOrders_evolves (now : Z) (temp : string) (orders : list StoredOrder)
  (shelves : list Storage) (destination : StorageGroup) :
  Forall2 shelf_evolves shelves
    (snd (fst (tryMoveOrders now temp orders shelves destination)))
  /\ Forall2 evolves (Storages destination)
       (Storages (snd (tryMoveOrders now temp orders shelves destination))).
Proof.
  revert shelves destination.
  induction orders as [| so rest IH]; intros shelves destination; simpl.
  - split; [apply Forall2_same, shelf_evolves_refl | apply Forall2_same, evolves_refl].
  - destruct (String.eqb (Temperature (Order_ so)) temp); [| apply IH].
    pose proof (moveFromShelves_evolves now (ID (Order_ so)) shelves destination)
      as [Hs Hd].
    destruct (moveFromShelves now (ID (Order_ so)) shelves destination)
      as [[moved shelves'] destination']. simpl in Hs, Hd.
    destruct moved; simpl; [auto |].
    destruct (IH shelves' destination') as [IH1 IH2]. split.
    + eapply Forall2_chain; [exact shelf_evolves_trans | exact Hs | exact IH1].
    + eapply Forall2_chain; [exact evolves_trans | exact Hd | exact IH2].
Qed.

(** ** How the system evolves *)

Lemma system_evolves_refl (fs : FulfillmentSystem) : system_evolves fs fs.
Proof.
  repeat split;
    [apply Forall2_same, shelf_evolves_refl | apply Forall2_same, evolves_refl ..].
Qed.

Lemma system_evolves_trans (a b c : FulfillmentSystem) :
  system_evolves a b -> system_evolves b c -> system_evolves a c.
Proof.
  intros (S1 & H1 & C1) (S2 & H2 & C2). repeat split.
  - eapply Forall2_chain; [exact shelf_evolves_trans | eauto ..].
  - eapply Forall2_chain; [exact evolves_trans | eauto ..].
  - eapply Forall2_chain; [exact evolves_trans | eauto ..].
Qed.

Lemma system_evolves_logAction (fs : FulfillmentSystem) (orderID kind : string)
  (t : Z) : system_evolves fs (logAction fs orderID kind t).
Proof. exact (system_evolves_refl fs). Qed.

Lemma system_evolves_shelf (fs : FulfillmentSystem) (shelves : list Storage) :
  Forall2 shelf_evolves (Storages (ShelfGroup fs)) shelves ->
  system_evolves fs (with_ShelfGroup fs (mkGroup shelves)).
Proof.
  intros H. repeat split; simpl; [exact H | apply Forall2_same, evolves_refl ..].
Qed.

Lemma system_evolves_ideal (fs : FulfillmentSystem) (g : IdealGroup)
  (units : list Storage) :
  Forall2 evolves (Storages (idealGroup fs g)) units ->
  system_evolves fs (with_idealGroup fs g (mkGroup units)).
Proof.
  intros H. destruct g; repeat split; simpl in *;
    first [exact H | apply Forall2_same, shelf_evolves_refl
           | apply Forall2_same, evolves_refl].
Qed.

Lemma system_evolves_move (fs : FulfillmentSystem) (g : IdealGroup)
  (shelves : list Storage) (destination : StorageGroup) :
  Forall2 shelf_evolves (Storages (ShelfGroup fs)) shelves ->
  Forall2 evolves (Storages (idealGroup fs g)) (Storages destination) ->
  system_evolves fs
    (with_idealGroup (with_ShelfGroup fs (mkGroup shelves)) g destination).
Proof.
  intros Hs Hd. destruct destination as [units].
  eapply system_evolves_trans; [apply system_evolves_shelf; exact Hs |].
  apply system_evolves_ideal. destruct g; exact Hd.
Qed.

Lemma StorageGroup_Add_evolves (sg : StorageGroup) (order : StoredOrder) :
  Forall2 shelf_evolves (Storages sg) (Storages (snd (StorageGroup_Add sg order))).
Proof.
  unfold StorageGroup_Add.
  pose proof (addToUnits_evolves (Storages sg) order) as H.
  destruct (addToUnits (Storages sg) order). exact H.
Qed.

Lemma StorageGroup_Remove_evolves (sg : StorageGroup) (orderID : string) :
  Forall2 shelf_evolves (Storages sg)
    (Storages (snd (StorageGroup_Remove sg orderID))).
Proof.
  unfold StorageGroup_Remove.
  pose proof (removeFromUnits_evolves (Storages sg) orderID) as H.
  destruct (removeFromUnits (Storages sg) orderID). exact H.
Qed.

Lemma tryMoveFromShelfGroup_evolves (now : Z) (fs : FulfillmentSystem)
  (temp : string) :
  system_evolves fs (snd (tryMoveFromShelfGroup now fs temp)).
Proof.
  unfold tryMoveFromShelfGroup.
  destruct (if String.eqb temp TEMP_TYPE_HOT then Some ToHeater
            else if String.eqb temp TEMP_TYPE_COLD then Some ToCooler else None)
    as [g |]; [| apply system_evolves_refl].
  pose proof (tryMoveOrders_evolves now temp (StorageGroup_ListOrders (ShelfGroup fs))
                (Storages (ShelfGroup fs)) (idealGroup fs g)) as [Hs Hd].
  destruct (tryMoveOrders now temp _ _ _) as [[moved shelves] destination].
  simpl in Hs, Hd.
  pose proof (system_evolves_move fs g shelves destination Hs Hd) as H.
  destruct moved; simpl; [| exact H].
  eapply system_evolves_trans; [exact H | apply system_evolves_logAction].
Qed.

Lemma discardOrderFromShelfGroup_evolves (now : Z) (fs : FulfillmentSystem) :
  system_evolves fs (discardOrderFromShelfGroup now fs).
Proof.
  unfold discardOrderFromShelfGroup.
  destruct (GetLeastFreshOrder now (ShelfGroup fs)) as [candidate |];
    [| apply system_evolves_refl].
  pose proof (tryMoveFromShelfGroup_evolves now fs (Temperature (Order_ candidate)))
    as H1.
  destruct (tryMoveFromShelfGroup now fs _) as [moved fs1]. simpl in H1.
  destruct moved; [exact H1 |].
  pose proof (StorageGroup_Remove_evolves (ShelfGroup fs1) (ID (Order_ candidate)))
    as H2.
  destruct (StorageGroup_Remove (ShelfGroup fs1) _) as [r [shelves]]. simpl in H2.
  eapply system_evolves_trans; [exact H1 |].
  destruct r.
  - eapply system_evolves_trans; [| apply system_evolves_logAction].
    now apply system_evolves_shelf.
  - now apply system_evolves_shelf.
Qed.

Lemma placeOnShelf_evolves (now : Z) (fs fs' : FulfillmentSystem)
  (storedOrder : StoredOrder) :
  placeOnShelf now fs storedOrder = Some fs' -> system_evolves fs fs'.
Proof.
  unfold placeOnShelf.
  pose proof (StorageGroup_Add_evolves (ShelfGroup fs) storedOrder) as H.
  destruct (StorageGroup_Add (ShelfGroup fs) storedOrder) as [ok [shelves]].
  simpl in H. destruct ok; [| discriminate]. intros [= <-].
  eapply system_evolves_trans; [| apply system_evolves_logAction].
  now apply system_evolves_shelf.
Qed.

Lemma discardThenPlace_evolves (now : Z) (fs : FulfillmentSystem)
  (storedOrder : StoredOrder) :
  system_evolves fs (discardThenPlace now fs storedOrder).
Proof.
  unfold discardThenPlace.
  set (fs1 := if StorageGroup_IsFull (ShelfGroup fs)
              then discardOrderFromShelfGroup now fs else fs).
  assert (H1 : system_evolves fs fs1).
  { unfold fs1. destruct (StorageGroup_IsFull (ShelfGroup fs));
      [apply discardOrderFromShelfGroup_evolves | apply system_evolves_refl]. }
  destruct (placeOnShelf now fs1 storedOrder) as [fs2 |] eqn:E; [| exact H1].
  eapply system_evolves_trans; [exact H1 | eapply placeOnShelf_evolves; eauto].
Qed.

Lemma PlaceOrder_evolves (now : Z) (fs : FulfillmentSystem) (order : Order) :
  system_evolves fs (PlaceOrder now fs order).
Proof.
  unfold PlaceOrder.
  set (storedOrder := {| Order_ := order; PlacedAt := now |}).
  destruct (String.eqb (Temperature order) TEMP_TYPE_HOT
            || String.eqb (Temperature order) TEMP_TYPE_COLD).
  - set (g := if String.eqb (Temperature order) TEMP_TYPE_HOT
              then ToHeater else ToCooler).
    pose proof (StorageGroup_Add_evolves (idealGroup fs g) storedOrder) as Hi.
    destruct (StorageGroup_Add (idealGroup fs g) storedOrder) as [ok [units]].
    simpl in Hi. destruct ok.
    { eapply system_evolves_trans; [| apply system_evolves_logAction].
      apply system_evolves_ideal. now apply shelf_evolves_evolves. }
    destruct (placeOnShelf now fs storedOrder) as [fs1 |] eqn:E1.
    { eapply placeOnShelf_evolves; eauto. }
    destruct (StorageGroup_IsFull (ShelfGroup fs)).
    + pose proof (tryMoveFromShelfGroup_evolves now fs (Temperature order)) as Ht.
      destruct (tryMoveFromShelfGroup now fs (Temperature order)) as [moved fs1].
      simpl in Ht. destruct moved.
      * destruct (placeOnShelf now fs1 storedOrder) as [fs2 |] eqn:E2.
        -- eapply system_evolves_trans; [exact Ht |].
           eapply placeOnShelf_evolves; eauto.
        -- eapply system_evolves_trans; [exact Ht |].
           apply discardThenPlace_evolves.
      * eapply system_evolves_trans; [exact Ht |]. apply discardThenPlace_evolves.
    + apply discardThenPlace_evolves.
  - destruct (placeOnShelf now fs storedOrder) as [fs1 |] eqn:E1.
    + eapply placeOnShelf_evolves; eauto.
    + apply discardThenPlace_evolves.
Qed.

Lemma PickupOrder_evolves (now : Z) (fs : FulfillmentSystem) (orderID : string) :
  system_evolves fs (PickupOrder now fs orderID).
Proof.
  unfold PickupOrder.
  pose proof (StorageGroup_Remove_evolves (HeaterGroup fs) orderID) as Hh.
  destruct (StorageGroup_Remove (HeaterGroup fs) orderID) as [[so |] [units]].
  { eapply system_evolves_trans; [| apply system_evolves_logAction].
    apply (system_evolves_ideal fs ToHeater). now apply shelf_evolves_evolves. }
  pose proof (StorageGroup_Remove_evolves (CoolerGroup fs) orderID) as Hc.
  destruct (StorageGroup_Remove (CoolerGroup fs) orderID) as [[so |] [units']].
  { eapply system_evolves_trans; [| apply system_evolves_logAction].
    apply (system_evolves_ideal fs ToCooler). now apply shelf_evolves_evolves. }
  pose proof (StorageGroup_Remove_evolves (ShelfGroup fs) orderID) as Hs.
  destruct (StorageGroup_Remove (ShelfGroup fs) orderID) as [[so |] [units'']].
  - eapply system_evolves_trans; [| apply system_evolves_logAction].
    now apply system_evolves_shelf.
  - apply system_evolves_refl.
Qed.

Lemma moveToIdeal_evolves (now : Z) (fs : FulfillmentSystem) (orderID : string)
  (g : IdealGroup) : system_evolves fs (moveToIdeal now fs orderID g).
Proof.
  unfold moveToIdeal.
  pose proof (moveFromShelves_evolves now orderID (Storages (ShelfGroup fs))
                (idealGroup fs g)) as [Hs Hd].
  destruct (moveFromShelves now orderID _ _) as [[moved shelves] destination].
  simpl in Hs, Hd.
  pose proof (system_evolves_move fs g shelves destination Hs Hd) as H.
  destruct moved; [| exact H].
  eapply system_evolves_trans; [exact H | apply system_evolves_logAction].
Qed.

Lemma reallocateLoop_evolves (now : Z) (shelfOrders : list StoredOrder)
  (fs : FulfillmentSystem) : system_evolves fs (reallocateLoop now shelfOrders fs).
Proof.
  revert fs. induction shelfOrders as [| so rest IH]; intros fs; simpl.
  - apply system_evolves_refl.
  - eapply system_evolves_trans; [| apply IH].
    destruct (_ && _); [apply moveToIdeal_evolves |].
    destruct (_ && _); [apply moveToIdeal_evolves | apply system_evolves_refl].
Qed.

Lemma reallocateTick_evolves (now : Z) (fs : FulfillmentSystem) :
  system_evolves fs (reallocateTick now fs).
Proof.
  unfold reallocateTick. destruct (negb _);
    [apply system_evolves_refl | apply reallocateLoop_evolves].
Qed.

Lemma swapCells_Permutation {A : Type} (i : nat) (l : list A) :
  Permutation (swapCells i l) l.
Proof.
  revert l. induction i as [| i IH]; intros l.
  - destruct l as [| a [| b rest]]; simpl; auto. apply perm_swap.
  - destruct l as [| a rest]; simpl; auto.
Qed.

Lemma reorder_shelf_evolves (i : nat) (s : Storage) :
  shelf_evolves s (with_Orders s (swapCells i (Orders s))).
Proof.
  pose proof (swapCells_Permutation i (Orders s)) as P.
  unfold shelf_evolves, evolves, within_capacity, keyed, GoMap.len. simpl.
  rewrite (Permutation_length P). repeat split; auto.
  apply Permutation_Forall. now apply Permutation_sym.
Qed.

Lemma updateUnit_related (R : Storage -> Storage -> Prop) (n : nat)
  (f : Storage -> Storage) (units : list Storage) :
  (forall s, R s s) -> (forall s, R s (f s)) ->
  Forall2 R units (updateUnit n f units).
Proof.
  intros Hrefl Hf. revert units.
  induction n as [| n IH]; intros [| s rest]; simpl; constructor; auto.
  now apply Forall2_same.
Qed.

Lemma reorderUnit_evolves (fs : FulfillmentSystem) (g : GroupName) (n i : nat) :
  system_evolves fs (reorderUnit fs g n i).
Proof.
  unfold reorderUnit. destruct g.
  - apply (system_evolves_ideal fs ToHeater).
    apply updateUnit_related; [apply evolves_refl |].
    intros s. apply reorder_shelf_evolves.
  - apply (system_evolves_ideal fs ToCooler).
    apply updateUnit_related; [apply evolves_refl |].
    intros s. apply reorder_shelf_evolves.
  - apply system_evolves_shelf.
    apply updateUnit_related; [apply shelf_evolves_refl |].
    intros s. apply reorder_shelf_evolves.
Qed.

Lemma step_evolves (now : Z) (op : Op) (fs : FulfillmentSystem) :
  system_evolves fs (step now op fs).
Proof.
  destruct op; simpl.
  - apply PlaceOrder_evolves.
  - apply PickupOrder_evolves.
  - apply reallocateTick_evolves.
  - apply moveToIdeal_evolves.
  - apply tryMoveFromShelfGroup_evolves.
  - apply discardOrderFromShelfGroup_evolves.
  - apply reorderUnit_evolves.
Qed.

Lemma run_evolves (trace : list (Z * Op)) (fs : FulfillmentSystem) :
  system_evolves fs (run trace fs).
Proof.
  revert fs. induction trace as [| [now op] rest IH]; intros fs; simpl.
  - apply system_evolves_refl.
  - eapply system_evolves_trans; [apply step_evolves | apply IH].
Qed.

Lemma ReallocateOrders_evolves (events : list LoopEvent) (fs : FulfillmentSystem) :
  system_evolves fs (ReallocateOrders events fs).
Proof.
  revert fs. induction events as [| [now |] rest IH]; intros fs; simpl.
  - apply system_evolves_refl.
  - eapply system_evolves_trans; [apply reallocateTick_evolves | apply IH].
  - apply system_evolves_refl.
Qed.

(** ** Occupancy never exceeds capacity *)

Lemma evolves_within_capacity (l l' : list Storage) :
  Forall2 evolves l l' -> Forall within_capacity l -> Forall within_capacity l'.
Proof.
  intros F. induction F as [| s s' l l' (_ & _ & H) F IH]; intros W.
  - constructor.
  - inversion W; subst. constructor; auto.
Qed.

Lemma shelves_stay_within_capacity (shelves shelves' : list Storage) :
  Forall2 shelf_evolves shelves shelves' ->
  Forall within_capacity shelves -> Forall within_capacity shelves'.
Proof.
  intros F. apply evolves_within_capacity. now apply shelf_evolves_evolves.
Qed.

Lemma system_evolves_within_capacity (fs fs' : FulfillmentSystem) :
  system_evolves fs fs' -> system_within_capacity fs -> system_within_capacity fs'.
Proof.
  intros (S & H & C) (Wh & Wc & Ws). unfold system_within_capacity,
    group_within_capacity in *.
  repeat split; eapply evolves_within_capacity; eauto.
  now apply shelf_evolves_evolves.
Qed.

Lemma newUnits_within_capacity (prefix : string) (n cap : Z) :
  0 <= cap -> Forall within_capacity (newUnits prefix n cap).
Proof.
  intros H. unfold newUnits. apply Forall_map. apply Forall_forall.
  intros i _. unfold within_capacity. simpl. exact H.
Qed.

(** C5.  Occupancy never exceeds capacity.
    - [Storage.Add] of an id the unit already holds reports success,
      overwrites the cell where it is and leaves the occupancy unchanged; of
      a new id it succeeds exactly when the occupancy is strictly below the
      capacity; either way a unit within capacity stays within capacity.
    - [Storage.Remove], [StorageGroup.Add] and [StorageGroup.Remove] keep
      units within capacity.
    - An atomic move leaves its source and every destination unit within
      capacity.
    - Every operation of the engine (place, pickup, reallocation tick, move,
      move attempt, discard), and every change of a map's enumeration order,
      keeps every unit within capacity.
    - Hence, from the empty system built for a configuration with
      non-negative capacities, every unit is within capacity after any run. *)
Theorem occupancy_within_capacity :
  (forall s order,
      (holds s (ID (Order_ order)) = true ->
       fst (Storage_Add s order) = true
       /\ GetOrder (snd (Storage_Add s order)) (ID (Order_ order)) = Some order
       /\ unit_ids (snd (Storage_Add s order)) = unit_ids s
       /\ GoMap.len (Orders (snd (Storage_Add s order))) = GoMap.len (Orders s))
      /\ (holds s (ID (Order_ order)) = false ->
          (fst (Storage_Add s order) = true
           <-> GoMap.len (Orders s) < Capacity s))
      /\ (within_capacity s -> within_capacity (snd (Storage_Add s order))))
  /\ (forall s sg order orderID,
         (within_capacity s -> within_capacity (snd (Storage_Remove s orderID)))
         /\ (group_within_capacity sg ->
             group_within_capacity (snd (StorageGroup_Add sg order)))
         /\ (group_within_capacity sg ->
             group_within_capacity (snd (StorageGroup_Remove sg orderID))))
  /\ (forall now orderID source destination,
         within_capacity source ->
         group_within_capacity destination ->
         within_capacity (snd (fst (atomicMoveOrder now orderID source destination)))
         /\ group_within_capacity
              (snd (atomicMoveOrder now orderID source destination)))
  /\ (forall now op fs,
         system_within_capacity fs -> system_within_capacity (step now op fs))
  /\ (forall cfg trace,
         0 <= CoolerCap cfg -> 0 <= HeaterCap cfg -> 0 <= ShelfCap cfg ->
         system_within_capacity (run trace (NewFulfillmentSystem cfg))).
Proof.
  split; [| split; [| split; [| split]]].
  - intros s order. split; [| split].
    + intros Hh.
      rewrite (proj1 (Storage_Add_spec s order) (or_introl Hh)). simpl.
      apply holds_true_iff in Hh.
      split; [reflexivity |]. split; [apply get_set_same |].
      split; [now apply keys_set_present | now apply len_set_present].
    + intros Hh. destruct (Z.lt_ge_cases (GoMap.len (Orders s)) (Capacity s)) as [Hlt | Hge].
      * rewrite (proj1 (Storage_Add_spec s order) (or_intror Hlt)). simpl. tauto.
      * rewrite (proj2 (Storage_Add_spec s order) (conj Hh Hge)). simpl.
        split; [discriminate | lia].
    + exact (proj2 (proj2 (proj1 (shelf_evolves_add s order)))).
  - intros s sg order orderID. split; [| split].
    + exact (proj2 (proj2 (proj1 (shelf_evolves_remove s orderID)))).
    + apply shelves_stay_within_capacity, StorageGroup_Add_evolves.
    + apply shelves_stay_within_capacity, StorageGroup_Remove_evolves.
  - intros now orderID source destination Ws Wd. split.
    + exact (proj2 (proj2 (proj1
               (atomicMoveOrder_source_evolves now orderID source destination))) Ws).
    + eapply evolves_within_capacity;
        [apply atomicMoveOrder_destination_evolves | exact Wd].
  - intros now op fs. apply system_evolves_within_capacity, step_evolves.
  - intros cfg trace Hc Hh Hs.
    eapply system_evolves_within_capacity; [apply run_evolves |].
    repeat split; simpl; now apply newUnits_within_capacity.
Qed.

Lemma occupancy_within_capacity_witness :
  system_within_capacity (run shelfFullRun (NewFulfillmentSystem smallConfig)).
Proof.
  apply (proj2 (proj2 (proj2 (proj2 occupancy_within_capacity)))); simpl; lia.
Defined.

(** ** Where the ids are *)

Lemma units_ids_app (a b : list Storage) :
  units_ids (a ++ b) = units_ids a ++ units_ids b.
Proof. unfold units_ids. apply flat_map_app. Qed.

Lemma units_ids_cons (s : Storage) (l : list Storage) :
  units_ids (s :: l) = unit_ids s ++ units_ids l.
Proof. reflexivity. Qed.

Lemma units_ids_middle (before after : list Storage) (s : Storage) (x : string) :
  occ (units_ids (before ++ s :: after)) x
  = (occ (units_ids before) x + occ (unit_ids s) x + occ (units_ids after) x)%nat.
Proof.
  rewrite units_ids_app. simpl. rewrite !count_occ_app. lia.
Qed.

Lemma occ_keys_set (k : string) (v : StoredOrder) (m : GoMap.t StoredOrder)
  (x : string) :
  (occ (GoMap.keys (GoMap.set k v m)) x
   <= occ (GoMap.keys m) x + (if string_dec k x then 1 else 0))%nat.
Proof.
  destruct (in_dec string_dec k (GoMap.keys m)) as [HIn | HNot].
  - rewrite keys_set_present by exact HIn. lia.
  - rewrite keys_set_absent by exact HNot. rewrite count_occ_app. simpl.
    destruct (string_dec k x); lia.
Qed.

Lemma occ_keys_delete (k : string) (m : GoMap.t StoredOrder) (x : string) :
  occ (GoMap.keys (GoMap.delete k m)) x
  = if string_dec k x then 0%nat else occ (GoMap.keys m) x.
Proof.
  induction m as [| [k' v'] rest IH]; simpl.
  - now destruct (string_dec k x).
  - destruct (String.eqb_spec k k') as [<- | Hne]; simpl.
    + rewrite IH. destruct (string_dec k x); reflexivity.
    + rewrite IH. destruct (string_dec k x) as [<- | Hx].
      * destruct (string_dec k' k); [congruence | reflexivity].
      * reflexivity.
Qed.

Lemma occ_keys_delete_le (k : string) (m : GoMap.t StoredOrder) (x : string) :
  (occ (GoMap.keys (GoMap.delete k m)) x <= occ (GoMap.keys m) x)%nat.
Proof. rewrite occ_keys_delete. destruct (string_dec k x); lia. Qed.

Lemma addToUnits_occ (units : list Storage) (order : StoredOrder) (x : string) :
  (occ (units_ids (snd (addToUnits units order))) x
   <= occ (units_ids units) x
      + (if fst (addToUnits units order)
         then if string_dec (ID (Order_ order)) x then 1 else 0
         else 0))%nat.
Proof.
  destruct (addToUnits_spec units order)
    as [[_ E] | (before & s & after & -> & _ & _ & E)]; rewrite E; simpl.
  - lia.
  - rewrite !units_ids_middle. unfold unit_ids at 1. simpl.
    pose proof (occ_keys_set (ID (Order_ order)) order (Orders s) x).
    unfold unit_ids. lia.
Qed.

Lemma removeFromUnits_occ (units : list Storage) (orderID x : string) :
  (occ (units_ids (snd (removeFromUnits units orderID))) x
   <= occ (units_ids units) x)%nat.
Proof.
  destruct (removeFromUnits_spec units orderID)
    as [[_ E] | (before & s & after & so & -> & _ & _ & E)]; rewrite E; simpl.
  - lia.
  - rewrite !units_ids_middle. unfold unit_ids at 1. simpl.
    pose proof (occ_keys_delete_le orderID (Orders s) x).
    unfold unit_ids. lia.
Qed.

Lemma atomicMoveOrder_occ (now : Z) (orderID : string) (source : Storage)
  (destination : StorageGroup) (x : string) :
  (occ (unit_ids (snd (fst (atomicMoveOrder now orderID source destination)))) x
   + occ (units_ids (Storages (snd (atomicMoveOrder now orderID source destination)))) x
   <= occ (unit_ids source) x + occ (units_ids (Storages destination)) x)%nat.
Proof.
  destruct (atomicMoveOrder now orderID source destination)
    as [[moved source'] destination'] eqn:E. simpl.
  destruct moved.
  2: { apply atomicMoveOrder_failure in E. destruct E as (-> & _ & ->). lia. }
  destruct (atomicMoveOrder_cases now orderID source destination)
    as [[_ E'] | [(order & _ & _ & _ & E') | (order & order' & Hget & _ & E')]];
    try (rewrite E' in E; discriminate).
  simpl in E'.
  destruct (putInFirstWithRoom (Storages destination) orderID order')
    as [units |] eqn:Eput; rewrite E' in E; [| discriminate].
  injection E as <- <-.
  apply putInFirstWithRoom_Some in Eput.
  destruct Eput as (before & d & after & -> & -> & _ & _). simpl.
  rewrite !units_ids_middle. unfold unit_ids. simpl.
  rewrite occ_keys_delete.
  assert (HIn : In orderID (GoMap.keys (Orders source)))
    by (eapply get_Some_keys; exact Hget).
  rewrite (keys_set_present _ _ order' HIn).
  pose proof (occ_keys_set orderID order' (Orders d) x) as Hd.
  destruct (string_dec orderID x) as [<- | Hne]; [| lia].
  apply (count_occ_In string_dec) in HIn. lia.
Qed.

Lemma moveFromShelves_occ (now : Z) (orderID : string) (shelves : list Storage)
  (destination : StorageGroup) (x : string) :
  (occ (units_ids (snd (fst (moveFromShelves now orderID shelves destination)))) x
   + occ (units_ids
            (Storages (snd (moveFromShelves now orderID shelves destination)))) x
   <= occ (units_ids shelves) x + occ (units_ids (Storages destination)) x)%nat.
Proof.
  revert destination. induction shelves as [| shelf rest IH]; intros destination;
    simpl; [lia |].
  pose proof (atomicMoveOrder_occ now orderID shelf destination x) as Ha.
  destruct (atomicMoveOrder now orderID shelf destination)
    as [[moved shelf'] destination']. simpl in Ha.
  destruct moved; simpl.
  - rewrite !count_occ_app. lia.
  - specialize (IH destination').
    destruct (moveFromShelves now orderID rest destination')
      as [[r rest'] destination'']. simpl in *.
    rewrite !count_occ_app. lia.
Qed.

Lemma tryMoveOrders_occ (now : Z) (temp : string) (orders : list StoredOrder)
  (shelves : list Storage) (destination : StorageGroup) (x : string) :
  (occ (units_ids (snd (fst (tryMoveOrders now temp orders shelves destination)))) x
   + occ (units_ids
            (Storages (snd (tryMoveOrders now temp orders shelves destination)))) x
   <= occ (units_ids shelves) x + occ (units_ids (Storages destination)) x)%nat.
Proof.
  revert shelves destination.
  induction orders as [| so rest IH]; intros shelves destination; simpl; [lia |].
  destruct (String.eqb (Temperature (Order_ so)) temp); [| apply IH].
  pose proof (moveFromShelves_occ now (ID (Order_ so)) shelves destination x) as Hm.
  destruct (moveFromShelves now (ID (Order_ so)) shelves destination)
    as [[moved shelves'] destination']. simpl in Hm.
  destruct moved; simpl; [exact Hm |].
  specialize (IH shelves' destination'). lia.
Qed.

(** The number of cells filed under [x] in the whole system. *)
Lemma all_ids_occ (fs : FulfillmentSystem) (x : string) :
  occ (all_ids fs) x
  = (occ (units_ids (Storages (HeaterGroup fs))) x
     + occ (units_ids (Storages (CoolerGroup fs))) x
     + occ (units_ids (Storages (ShelfGroup fs))) x)%nat.
Proof.
  unfold all_ids, all_units. rewrite !units_ids_app, !count_occ_app. lia.
Qed.

Lemma moved_system_occ (fs : FulfillmentSystem) (g : IdealGroup)
  (shelves : list Storage) (destination : StorageGroup) (x : string) :
  (occ (units_ids shelves) x + occ (units_ids (Storages destination)) x
   <= occ (units_ids (Storages (ShelfGroup fs))) x
      + occ (units_ids (Storages (idealGroup fs g))) x)%nat ->
  (occ (all_ids (with_idealGroup (with_ShelfGroup fs (mkGroup shelves)) g destination)) x
   <= occ (all_ids fs) x)%nat.
Proof.
  intros H. rewrite !all_ids_occ. destruct g; simpl in *; lia.
Qed.

Lemma tryMoveFromShelfGroup_occ (now : Z) (fs : FulfillmentSystem) (temp x : string) :
  (occ (all_ids (snd (tryMoveFromShelfGroup now fs temp))) x <= occ (all_ids fs) x)%nat.
Proof.
  unfold tryMoveFromShelfGroup.
  destruct (if String.eqb temp TEMP_TYPE_HOT then Some ToHeater
            else if String.eqb temp TEMP_TYPE_COLD then Some ToCooler else None)
    as [g |]; [| simpl; lia].
  pose proof (tryMoveOrders_occ now temp (StorageGroup_ListOrders (ShelfGroup fs))
                (Storages (ShelfGroup fs)) (idealGroup fs g) x) as H.
  destruct (tryMoveOrders now temp _ _ _) as [[moved shelves] destination].
  simpl in H. apply (moved_system_occ fs g) in H.
  destruct moved; exact H.
Qed.

Lemma moveToIdeal_occ (now : Z) (fs : FulfillmentSystem) (orderID : string)
  (g : IdealGroup) (x : string) :
  (occ (all_ids (moveToIdeal now fs orderID g)) x <= occ (all_ids fs) x)%nat.
Proof.
  unfold moveToIdeal.
  pose proof (moveFromShelves_occ now orderID (Storages (ShelfGroup fs))
                (idealGroup fs g) x) as H.
  destruct (moveFromShelves now orderID _ _) as [[moved shelves] destination].
  simpl in H. apply (moved_system_occ fs g) in H.
  destruct moved; exact H.
Qed.

Lemma StorageGroup_Remove_occ (sg : StorageGroup) (orderID x : string) :
  (occ (units_ids (Storages (snd (StorageGroup_Remove sg orderID)))) x
   <= occ (units_ids (Storages sg)) x)%nat.
Proof.
  unfold StorageGroup_Remove.
  pose proof (removeFromUnits_occ (Storages sg) orderID x) as H.
  destruct (removeFromUnits (Storages sg) orderID). exact H.
Qed.

Lemma StorageGroup_Add_occ (sg sg' : StorageGroup) (order : StoredOrder) (x : string) :
  StorageGroup_Add sg order = (true, sg') ->
  (occ (units_ids (Storages sg')) x
   <= occ (units_ids (Storages sg)) x
      + (if string_dec (ID (Order_ order)) x then 1 else 0))%nat.
Proof.
  unfold StorageGroup_Add.
  pose proof (addToUnits_occ (Storages sg) order x) as H.
  destruct (addToUnits (Storages sg) order) as [r units]. simpl in H.
  intros [= -> <-]. exact H.
Qed.

Lemma discardOrderFromShelfGroup_occ (now : Z) (fs : FulfillmentSystem) (x : string) :
  (occ (all_ids (discardOrderFromShelfGroup now fs)) x <= occ (all_ids fs) x)%nat.
Proof.
  unfold discardOrderFromShelfGroup.
  destruct (GetLeastFreshOrder now (ShelfGroup fs)) as [candidate |]; [| lia].
  pose proof (tryMoveFromShelfGroup_occ now fs (Temperature (Order_ candidate)) x)
    as H1.
  destruct (tryMoveFromShelfGroup now fs _) as [moved fs1]. simpl in H1.
  destruct moved; [exact H1 |].
  pose proof (StorageGroup_Remove_occ (ShelfGroup fs1) (ID (Order_ candidate)) x)
    as H2.
  destruct (StorageGroup_Remove (ShelfGroup fs1) _) as [r shelf']. simpl in H2.
  assert (H3 : (occ (all_ids (with_ShelfGroup fs1 shelf')) x <= occ (all_ids fs) x)%nat).
  { rewrite all_ids_occ in *. simpl. lia. }
  destruct r; exact H3.
Qed.

Lemma placeOnShelf_occ (now : Z) (fs fs' : FulfillmentSystem)
  (storedOrder : StoredOrder) (x : string) :
  placeOnShelf now fs storedOrder = Some fs' ->
  (occ (all_ids fs') x
   <= occ (all_ids fs) x
      + (if string_dec (ID (Order_ storedOrder)) x then 1 else 0))%nat.
Proof.
  unfold placeOnShelf.
  destruct (StorageGroup_Add (ShelfGroup fs) storedOrder) as [ok shelf'] eqn:E.
  destruct ok; [| discriminate]. intros [= <-].
  pose proof (StorageGroup_Add_occ _ _ _ x E) as H.
  rewrite !all_ids_occ. simpl. lia.
Qed.

Lemma discardThenPlace_occ (now : Z) (fs : FulfillmentSystem)
  (storedOrder : StoredOrder) (x : string) :
  (occ (all_ids (discardThenPlace now fs storedOrder)) x
   <= occ (all_ids fs) x
      + (if string_dec (ID (Order_ storedOrder)) x then 1 else 0))%nat.
Proof.
  unfold discardThenPlace.
  set (fs1 := if StorageGroup_IsFull (ShelfGroup fs)
              then discardOrderFromShelfGroup now fs else fs).
  assert (H1 : (occ (all_ids fs1) x <= occ (all_ids fs) x)%nat).
  { unfold fs1. destruct (StorageGroup_IsFull (ShelfGroup fs));
      [apply discardOrderFromShelfGroup_occ | lia]. }
  destruct (placeOnShelf now fs1 storedOrder) as [fs2 |] eqn:E.
  - pose proof (placeOnShelf_occ _ _ _ _ x E). lia.
  - lia.
Qed.

Lemma PlaceOrder_occ (now : Z) (fs : FulfillmentSystem) (order : Order) (x : string) :
  (occ (all_ids (PlaceOrder now fs order)) x
   <= occ (all_ids fs) x + (if string_dec (ID order) x then 1 else 0))%nat.
Proof.
  unfold PlaceOrder.
  set (storedOrder := {| Order_ := order; PlacedAt := now |}).
  destruct (String.eqb (Temperature order) TEMP_TYPE_HOT
            || String.eqb (Temperature order) TEMP_TYPE_COLD).
  - set (g := if String.eqb (Temperature order) TEMP_TYPE_HOT
              then ToHeater else ToCooler).
    destruct (StorageGroup_Add (idealGroup fs g) storedOrder) as [ok ideal'] eqn:Ei.
    destruct ok.
    { pose proof (StorageGroup_Add_occ _ _ _ x Ei) as H.
      rewrite !all_ids_occ. destruct g; simpl in *; lia. }
    destruct (placeOnShelf now fs storedOrder) as [fs1 |] eqn:E1.
    { exact (placeOnShelf_occ _ _ _ _ x E1). }
    destruct (StorageGroup_IsFull (ShelfGroup fs)).
    + pose proof (tryMoveFromShelfGroup_occ now fs (Temperature order) x) as Ht.
      destruct (tryMoveFromShelfGroup now fs (Temperature order)) as [moved fs1].
      simpl in Ht. destruct moved.
      * destruct (placeOnShelf now fs1 storedOrder) as [fs2 |] eqn:E2.
        -- pose proof (placeOnShelf_occ _ _ _ _ x E2) as H. simpl in H. lia.
        -- pose proof (discardThenPlace_occ now fs1 storedOrder x) as H.
           simpl in H. lia.
      * pose proof (discardThenPlace_occ now fs1 storedOrder x) as H.
        simpl in H. lia.
    + exact (discardThenPlace_occ now fs storedOrder x).
  - destruct (placeOnShelf now fs storedOrder) as [fs1 |] eqn:E1.
    + exact (placeOnShelf_occ _ _ _ _ x E1).
    + exact (discardThenPlace_occ now fs storedOrder x).
Qed.

Lemma PickupOrder_occ (now : Z) (fs : FulfillmentSystem) (orderID x : string) :
  (occ (all_ids (PickupOrder now fs orderID)) x <= occ (all_ids fs) x)%nat.
Proof.
  unfold PickupOrder.
  pose proof (StorageGroup_Remove_occ (HeaterGroup fs) orderID x) as Hh.
  destruct (StorageGroup_Remove (HeaterGroup fs) orderID) as [[so |] heater'].
  { rewrite !all_ids_occ. simpl in *. lia. }
  pose proof (StorageGroup_Remove_occ (CoolerGroup fs) orderID x) as Hc.
  destruct (StorageGroup_Remove (CoolerGroup fs) orderID) as [[so |] cooler'].
  { rewrite !all_ids_occ. simpl in *. lia. }
  pose proof (StorageGroup_Remove_occ (ShelfGroup fs) orderID x) as Hs.
  destruct (StorageGroup_Remove (ShelfGroup fs) orderID) as [[so |] shelf'].
  - rewrite !all_ids_occ. simpl in *. lia.
  - lia.
Qed.

Lemma reallocateLoop_occ (now : Z) (shelfOrders : list StoredOrder)
  (fs : FulfillmentSystem) (x : string) :
  (occ (all_ids (reallocateLoop now shelfOrders fs)) x <= occ (all_ids fs) x)%nat.
Proof.
  revert fs. induction shelfOrders as [| so rest IH]; intros fs; simpl; [lia |].
  etransitivity; [apply IH |].
  destruct (_ && _); [apply moveToIdeal_occ |].
  destruct (_ && _); [apply moveToIdeal_occ | lia].
Qed.

Lemma updateUnit_occ (n i : nat) (units : list Storage) (x : string) :
  occ (units_ids
         (updateUnit n (fun s => with_Orders s (swapCells i (Orders s))) units)) x
  = occ (units_ids units) x.
Proof.
  revert units. induction n as [| n IH]; intros [| s rest]; simpl; auto.
  - rewrite !count_occ_app. f_equal.
    apply Permutation_count_occ. unfold unit_ids, GoMap.keys. simpl.
    apply Permutation_map, swapCells_Permutation.
  - rewrite !count_occ_app. now rewrite IH.
Qed.

Lemma reorderUnit_occ (fs : FulfillmentSystem) (g : GroupName) (n i : nat)
  (x : string) :
  occ (all_ids (reorderUnit fs g n i)) x = occ (all_ids fs) x.
Proof.
  rewrite !all_ids_occ. destruct g; simpl; now rewrite updateUnit_occ.
Qed.

Lemma step_occ (now : Z) (op : Op) (fs : FulfillmentSystem) (x : string) :
  (occ (all_ids (step now op fs)) x
   <= occ (all_ids fs) x + occ (placedIDs [(now, op)]) x)%nat.
Proof.
  destruct op; simpl.
  - pose proof (PlaceOrder_occ now fs order x).
    destruct (string_dec (ID order) x); lia.
  - pose proof (PickupOrder_occ now fs orderID x). lia.
  - unfold reallocateTick. destruct (negb _); [lia |].
    pose proof (reallocateLoop_occ now
                  (StorageGroup_ListOrders (ShelfGroup fs)) fs x). lia.
  - pose proof (moveToIdeal_occ now fs orderID g x). lia.
  - pose proof (tryMoveFromShelfGroup_occ now fs temp x). lia.
  - pose proof (discardOrderFromShelfGroup_occ now fs x). lia.
  - rewrite reorderUnit_occ. lia.
Qed.

Lemma run_occ (trace : list (Z * Op)) (fs : FulfillmentSystem) (x : string) :
  (occ (all_ids (run trace fs)) x
   <= occ (all_ids fs) x + occ (placedIDs trace) x)%nat.
Proof.
  revert fs. induction trace as [| [now op] rest IH]; intros fs; simpl; [lia |].
  specialize (IH (step now op fs)).
  pose proof (step_occ now op fs x) as Hs. simpl in Hs.
  rewrite app_nil_r in Hs. rewrite count_occ_app. lia.
Qed.

Lemma newUnits_ids (prefix : string) (n cap : Z) :
  units_ids (newUnits prefix n cap) = [].
Proof.
  unfold newUnits. induction (seq 1 (Z.to_nat n)); simpl; auto.
Qed.

Lemma NewFulfillmentSystem_ids (cfg : FulfillmentConfig) :
  all_ids (NewFulfillmentSystem cfg) = [].
Proof.
  unfold all_ids, all_units. simpl. rewrite !units_ids_app, !newUnits_ids.
  reflexivity.
Qed.

Lemma holders_le_occ (units : list Storage) (x : string) :
  (List.length (filter (fun s => holds s x) units) <= occ (units_ids units) x)%nat.
Proof.
  induction units as [| s rest IH]; simpl; [lia |].
  rewrite count_occ_app. destruct (holds s x) eqn:E; simpl; [| lia].
  apply holds_true_iff in E. apply (count_occ_In string_dec) in E. lia.
Qed.

(** From the empty system, a run that places pairwise distinct ids never
    files one id under two cells. *)
Lemma run_ids_NoDup (cfg : FulfillmentConfig) (trace : list (Z * Op)) :
  NoDup (placedIDs trace) ->
  NoDup (all_ids (run trace (NewFulfillmentSystem cfg))).
Proof.
  intros H. apply (NoDup_count_occ string_dec). intros x.
  pose proof (run_occ trace (NewFulfillmentSystem cfg) x) as Hr.
  rewrite NewFulfillmentSystem_ids in Hr. simpl in Hr.
  apply (proj1 (NoDup_count_occ string_dec _)) with (x := x) in H. lia.
Qed.

(** ** What a move does to the ids *)

Lemma in_keys_set (k : string) (v : StoredOrder) (m : GoMap.t StoredOrder)
  (x : string) :
  In x (GoMap.keys (GoMap.set k v m)) <-> In x (GoMap.keys m) \/ x = k.
Proof.
  destruct (in_dec string_dec k (GoMap.keys m)) as [HIn | HNot].
  - rewrite keys_set_present by exact HIn. split; [auto |].
    intros [H | ->]; auto.
  - rewrite keys_set_absent by exact HNot. rewrite in_app_iff. simpl.
    split; intros [H | H]; auto; destruct H; auto; contradiction.
Qed.

Lemma in_keys_delete (k : string) (m : GoMap.t StoredOrder) (x : string) :
  In x (GoMap.keys (GoMap.delete k m)) <-> In x (GoMap.keys m) /\ x <> k.
Proof.
  rewrite keys_delete, filter_In.
  destruct (String.eqb_spec k x) as [-> | Hne]; simpl.
  - split; [intros [_ H]; discriminate | intros [_ H]; contradiction].
  - split; intros [H _]; split; auto.
Qed.

(** The shape of a successful atomic move. *)
Lemma atomicMoveOrder_success (now : Z) (orderID : string) (source source' : Storage)
  (destination destination' : StorageGroup) :
  atomicMoveOrder now orderID source destination = (true, source', destination') ->
  exists order order' before d after,
    GetOrder source orderID = Some order
    /\ ID (Order_ order') = ID (Order_ order)
    /\ Temperature (Order_ order') = Temperature (Order_ order)
    /\ Storages destination = before ++ d :: after
    /\ Forall (fun d => Capacity d <= GoMap.len (Orders d)) before
    /\ GoMap.len (Orders d) < Capacity d
    /\ source' = with_Orders source
                   (GoMap.delete orderID (GoMap.set orderID order' (Orders source)))
    /\ destination' = mkGroup (before
                               ++ with_Orders d (GoMap.set orderID order' (Orders d))
                               :: after).
Proof.
  intros E.
  destruct (atomicMoveOrder_cases now orderID source destination)
    as [[_ E'] | [(order & _ & _ & _ & E') | (order & order' & Hget & Hord & E')]];
    try (rewrite E' in E; discriminate).
  simpl in E'.
  destruct (putInFirstWithRoom (Storages destination) orderID order')
    as [units |] eqn:Eput; rewrite E' in E; [| discriminate].
  injection E as <- <-.
  apply putInFirstWithRoom_Some in Eput.
  destruct Eput as (before & d & after & Hd & -> & Hlt & Hfull).
  exists order, order', before, d, after.
  assert (Hid : ID (Order_ order') = ID (Order_ order)
                /\ Temperature (Order_ order') = Temperature (Order_ order)).
  { destruct Hord as [[_ ->] | [_ Href]]; [auto |].
    exact (refreshOrder_ID _ _ _ Href). }
  destruct Hid. repeat split; auto.
Qed.

Lemma atomicMoveOrder_ids (now : Z) (orderID : string) (source source' : Storage)
  (destination destination' : StorageGroup) (moved : bool) :
  atomicMoveOrder now orderID source destination = (moved, source', destination') ->
  (forall x, In x (units_ids (Storages destination)) ->
             In x (units_ids (Storages destination')))
  /\ (forall x, In x (units_ids (Storages destination')) ->
                In x (units_ids (Storages destination)) \/ x = orderID)
  /\ (forall x, In x (unit_ids source') -> In x (unit_ids source))
  /\ (moved = false -> unit_ids source' = unit_ids source /\ destination' = destination)
  /\ (moved = true ->
      In orderID (unit_ids source)
      /\ In orderID (units_ids (Storages destination'))
      /\ ~ In orderID (unit_ids source')
      /\ forall x, x <> orderID -> In x (unit_ids source) -> In x (unit_ids source')).
Proof.
  intros E. destruct moved.
  - apply atomicMoveOrder_success in E.
    destruct E as (order & order' & before & d & after & Hget & _ & _ & Hd & _ & _
                   & -> & ->).
    assert (HIn : In orderID (unit_ids source))
      by (eapply get_Some_keys; exact Hget).
    rewrite Hd. simpl. unfold unit_ids in *. simpl.
    repeat split; try discriminate.
    + intros x. rewrite !units_ids_app. simpl. rewrite !in_app_iff.
      unfold unit_ids. simpl. rewrite in_keys_set. tauto.
    + intros x. rewrite !units_ids_app. simpl. rewrite !in_app_iff.
      unfold unit_ids. simpl. rewrite in_keys_set. tauto.
    + intros x. rewrite in_keys_delete, in_keys_set. tauto.
    + exact HIn.
    + rewrite !units_ids_app. simpl. rewrite !in_app_iff.
      unfold unit_ids. simpl. rewrite in_keys_set. tauto.
    + rewrite in_keys_delete. tauto.
    + intros x Hne Hx. rewrite in_keys_delete, in_keys_set. tauto.
  - apply atomicMoveOrder_failure in E. destruct E as (-> & _ & E).
    rewrite E. repeat split; auto; discriminate.
Qed.

Lemma moveFromShelves_ids (now : Z) (orderID : string) (shelves shelves' : list Storage)
  (destination destination' : StorageGroup) (moved : bool) :
  moveFromShelves now orderID shelves destination = (moved, shelves', destination') ->
  (forall x, In x (units_ids (Storages destination)) ->
             In x (units_ids (Storages destination')))
  /\ (forall x, In x (units_ids (Storages destination')) ->
                In x (units_ids (Storages destination)) \/ x = orderID)
  /\ (forall x, In x (units_ids shelves') -> In x (units_ids shelves))
  /\ (moved = false ->
      map unit_ids shelves' = map unit_ids shelves /\ destination' = destination)
  /\ (moved = true ->
      In orderID (units_ids shelves)
      /\ In orderID (units_ids (Storages destination'))
      /\ forall x, x <> orderID -> In x (units_ids shelves) ->
                   In x (units_ids shelves')).
Proof.
  revert shelves' destination destination' moved.
  induction shelves as [| shelf rest IH];
    intros shelves' destination destination' moved.
  - simpl. intros [= <- <- <-]. repeat split; auto; discriminate.
  - cbn [moveFromShelves].
    destruct (atomicMoveOrder now orderID shelf destination)
      as [[m shelf1] destination1] eqn:Ea.
    apply atomicMoveOrder_ids in Ea.
    destruct Ea as (Hd & Hd' & Hs & Hfalse & Htrue).
    destruct m.
    + intros [= <- <- <-].
      destruct (Htrue eq_refl) as (Hi & Hi' & _ & Hother).
      rewrite !units_ids_cons.
      split; [exact Hd |]. split; [exact Hd' |]. split; [| split].
      * intros x. rewrite !in_app_iff. intros [Hx | Hx]; auto.
      * discriminate.
      * intros _. split; [apply in_or_app; now left |]. split; [exact Hi' |].
        intros x Hne. rewrite !in_app_iff. intros [Hx | Hx]; auto.
    + destruct (Hfalse eq_refl) as [Eids ->].
      destruct (moveFromShelves now orderID rest destination)
        as [[r rest'] destination''] eqn:Er.
      intros [= <- <- <-].
      destruct (IH _ _ _ _ Er) as (IHd & IHd' & IHs & IHfalse & IHtrue).
      rewrite !units_ids_cons.
      split; [exact IHd |]. split; [exact IHd' |]. split; [| split].
      * intros x. rewrite !in_app_iff. rewrite Eids. intros [Hx | Hx]; auto.
      * intros Hr. destruct (IHfalse Hr) as [Em Ed]. split; [| exact Ed].
        simpl. now rewrite Em, Eids.
      * intros Hr. destruct (IHtrue Hr) as (Hi & Hi' & Hother).
        split; [apply in_or_app; now right |]. split; [exact Hi' |].
        intros x Hne. rewrite !in_app_iff, Eids. intros [Hx | Hx]; auto.
Qed.

Lemma filter_none {A : Type} (f : A -> bool) (l : list A) :
  existsb f l = false -> filter f l = [].
Proof.
  induction l as [| a l IH]; simpl; [reflexivity |].
  destruct (f a); simpl; [discriminate | exact IH].
Qed.

Lemma holds_same_ids (s s' : Storage) (x : string) :
  unit_ids s' = unit_ids s -> holds s' x = holds s x.
Proof.
  intros E. destruct (holds s x) eqn:H.
  - apply holds_true_iff. rewrite E. now apply holds_true_iff.
  - apply holds_false_iff. rewrite E. now apply holds_false_iff.
Qed.


(** ** Pickup *)

Lemma StorageGroup_Remove_removed (sg : StorageGroup) (orderID : string) :
  group_holds sg orderID = true ->
  exists so sg',
    StorageGroup_Remove sg orderID = (Some so, sg')
    /\ removed_from sg sg' orderID so.
Proof.
  intros H. apply StorageGroup_Remove_present in H.
  destruct H as (before & s & after & so & Hs & Hb & Hget & E).
  exists so. eexists. split; [exact E |].
  exists before, s, after. auto.
Qed.

(** C9.  [PickupOrder] looks for the id in the heater group, then in the
    cooler group, then in the shelf group.  The first group that holds it
    loses the cell of that id in its first unit holding one, the other two
    groups are untouched, and exactly one pickup action is appended.  When no
    group holds the id the system, log included, is returned as it was, so
    repeating the pickup changes nothing either. *)
Theorem PickupOrder_priority (now : Z) (fs : FulfillmentSystem) (orderID : string) :
  let fs' := PickupOrder now fs orderID in
  (group_holds (HeaterGroup fs) orderID = true ->
   exists so,
     removed_from (HeaterGroup fs) (HeaterGroup fs') orderID so
     /\ CoolerGroup fs' = CoolerGroup fs
     /\ ShelfGroup fs' = ShelfGroup fs
     /\ Actions fs'
        = Actions fs ++ [mkAction (UnixMicro now) (ID (Order_ so)) ACTION_TYPE_PICKUP])
  /\ (group_holds (HeaterGroup fs) orderID = false ->
      group_holds (CoolerGroup fs) orderID = true ->
      exists so,
        removed_from (CoolerGroup fs) (CoolerGroup fs') orderID so
        /\ HeaterGroup fs' = HeaterGroup fs
        /\ ShelfGroup fs' = ShelfGroup fs
        /\ Actions fs'
           = Actions fs
             ++ [mkAction (UnixMicro now) (ID (Order_ so)) ACTION_TYPE_PICKUP])
  /\ (group_holds (HeaterGroup fs) orderID = false ->
      group_holds (CoolerGroup fs) orderID = false ->
      group_holds (ShelfGroup fs) orderID = true ->
      exists so,
        removed_from (ShelfGroup fs) (ShelfGroup fs') orderID so
        /\ HeaterGroup fs' = HeaterGroup fs
        /\ CoolerGroup fs' = CoolerGroup fs
        /\ Actions fs'
           = Actions fs
             ++ [mkAction (UnixMicro now) (ID (Order_ so)) ACTION_TYPE_PICKUP])
  /\ (group_holds (HeaterGroup fs) orderID = false ->
      group_holds (CoolerGroup fs) orderID = false ->
      group_holds (ShelfGroup fs) orderID = false ->
      fs' = fs
      /\ forall later, PickupOrder later fs' orderID = fs).
Proof.
  intros fs'. subst fs'. unfold PickupOrder.
  split; [| split; [| split]].
  - intros Hh.
    destruct (StorageGroup_Remove_removed _ _ Hh) as (so & heater' & E & R).
    rewrite E. simpl. exists so. auto.
  - intros Hh Hc.
    rewrite (StorageGroup_Remove_absent _ _ Hh).
    destruct (StorageGroup_Remove_removed _ _ Hc) as (so & cooler' & E & R).
    rewrite E. simpl. exists so. auto.
  - intros Hh Hc Hs.
    rewrite (StorageGroup_Remove_absent _ _ Hh).
    rewrite (StorageGroup_Remove_absent _ _ Hc).
    destruct (StorageGroup_Remove_removed _ _ Hs) as (so & shelf' & E & R).
    rewrite E. simpl. exists so. auto.
  - intros Hh Hc Hs.
    rewrite (StorageGroup_Remove_absent _ _ Hh).
    rewrite (StorageGroup_Remove_absent _ _ Hc).
    rewrite (StorageGroup_Remove_absent _ _ Hs).
    split; [reflexivity |]. intros later.
    rewrite (StorageGroup_Remove_absent _ _ Hh).
    rewrite (StorageGroup_Remove_absent _ _ Hc).
    rewrite (StorageGroup_Remove_absent _ _ Hs).
    reflexivity.
Qed.

Lemma PickupOrder_priority_witness :
  let fs := run sampleRun (NewFulfillmentSystem smallConfig) in
  PickupOrder (3 * second) fs "A" = fs
  /\ forall later, PickupOrder later (PickupOrder (3 * second) fs "A") "A" = fs.
Proof.
  intros fs.
  exact (proj2 (proj2 (proj2 (PickupOrder_priority (3 * second) fs "A")))
           eq_refl eq_refl eq_refl).
Defined.

(** ** Move attempts *)

Lemma atomicMoveOrder_frees (now : Z) (orderID : string) (source source' : Storage)
  (destination destination' : StorageGroup) :
  atomicMoveOrder now orderID source destination = (true, source', destination') ->
  within_capacity source -> Storage_IsFull source' = false.
Proof.
  intros E W. apply atomicMoveOrder_success in E.
  destruct E as (order & order' & before & d & after & Hget & _ & _ & _ & _ & _
                 & -> & _).
  apply Storage_IsFull_false. simpl.
  assert (HIn : In orderID (GoMap.keys (Orders source)))
    by (eapply get_Some_keys; exact Hget).
  pose proof (len_delete_lt orderID (GoMap.set orderID order' (Orders source))) as L.
  rewrite (len_set_present _ _ order' HIn) in L.
  unfold within_capacity in W.
  assert (In orderID (GoMap.keys (GoMap.set orderID order' (Orders source))))
    by (apply in_keys_set; auto).
  specialize (L H). lia.
Qed.

Lemma moveFromShelves_frees (now : Z) (orderID : string)
  (shelves shelves' : list Storage) (destination destination' : StorageGroup) :
  moveFromShelves now orderID shelves destination = (true, shelves', destination') ->
  Forall within_capacity shelves -> forallb Storage_IsFull shelves' = false.
Proof.
  revert shelves' destination destination'.
  induction shelves as [| shelf rest IH]; intros shelves' destination destination';
    cbn [moveFromShelves]; [discriminate |].
  destruct (atomicMoveOrder now orderID shelf destination)
    as [[m shelf1] destination1] eqn:Ea.
  intros E W. inversion W as [| ? ? Wshelf Wrest]; subst.
  destruct m.
  - injection E as <- _. simpl.
    now rewrite (atomicMoveOrder_frees _ _ _ _ _ _ Ea Wshelf).
  - destruct (moveFromShelves now orderID rest destination1)
      as [[r rest'] destination''] eqn:Er.
    injection E as -> <- _. simpl.
    rewrite (IH _ _ _ Er Wrest). apply andb_false_r.
Qed.

(** What one pass of [tryMoveFromShelfGroup] over the snapshot achieves. *)
Lemma tryMoveOrders_spec (now : Z) (temp : string) (orders : list StoredOrder)
  (shelves shelves' : list Storage) (destination destination' : StorageGroup)
  (r : option string) :
  tryMoveOrders now temp orders shelves destination = (r, shelves', destination') ->
  match r with
  | None => map unit_ids shelves' = map unit_ids shelves /\ destination' = destination
  | Some orderID =>
      (exists so, In so orders
                  /\ Temperature (Order_ so) = temp
                  /\ ID (Order_ so) = orderID)
      /\ In orderID (units_ids (Storages destination'))
      /\ (Forall within_capacity shelves -> forallb Storage_IsFull shelves' = false)
  end.
Proof.
  revert shelves shelves' destination destination' r.
  induction orders as [| so rest IH];
    intros shelves shelves' destination destination' r; cbn [tryMoveOrders].
  - intros [= <- <- <-]. auto.
  - destruct (String.eqb_spec (Temperature (Order_ so)) temp) as [Etemp | Ntemp].
    + destruct (moveFromShelves now (ID (Order_ so)) shelves destination)
        as [[m shelves1] destination1] eqn:Em.
      pose proof (moveFromShelves_evolves now (ID (Order_ so)) shelves destination)
        as [Hev _].
      rewrite Em in Hev. simpl in Hev.
      destruct m.
      * intros [= <- <- <-].
        pose proof (moveFromShelves_ids _ _ _ _ _ _ _ Em) as (_ & _ & _ & _ & Ht).
        destruct (Ht eq_refl) as (_ & Hi & _).
        split; [exists so; split; [now left | auto] |].
        split; [exact Hi |]. eapply moveFromShelves_frees; eauto.
      * pose proof (moveFromShelves_ids _ _ _ _ _ _ _ Em) as (_ & _ & _ & Hf & _).
        destruct (Hf eq_refl) as [Eids ->].
        intros E. specialize (IH _ _ _ _ _ E). destruct r as [orderID |].
        -- destruct IH as ((so' & Hin & Ht & Hid) & Hi & Hfree).
           split; [exists so'; split; [now right | auto] |].
           split; [exact Hi |]. intros W. apply Hfree.
           eapply shelves_stay_within_capacity; eauto.
        -- destruct IH as [Eids' Ed]. split; [congruence | exact Ed].
    + intros E. specialize (IH _ _ _ _ _ E). destruct r as [orderID |].
      * destruct IH as ((so' & Hin & Ht & Hid) & Hi & Hfree).
        split; [exists so'; split; [now right | auto] | auto].
      * exact IH.
Qed.

Lemma with_idealGroup_same (fs : FulfillmentSystem) (g : IdealGroup) :
  with_idealGroup fs g (idealGroup fs g) = fs.
Proof. destruct fs, g; reflexivity. Qed.

Lemma idealGroup_with (fs : FulfillmentSystem) (g : IdealGroup)
  (shelf destination : StorageGroup) :
  idealGroup (with_idealGroup (with_ShelfGroup fs shelf) g destination) g = destination
  /\ ShelfGroup (with_idealGroup (with_ShelfGroup fs shelf) g destination) = shelf
  /\ Actions (with_idealGroup (with_ShelfGroup fs shelf) g destination) = Actions fs.
Proof. destruct g; simpl; auto. Qed.

(** [tryMoveFromShelfGroup]: on failure the log, the heater and the cooler
    are unchanged and every shelf unit holds the ids it held; on success one
    shelf order of the requested temperature sits in its ideal group, one
    move action names it, and the shelf group is no longer full. *)
Lemma tryMoveFromShelfGroup_spec (now : Z) (fs fs' : FulfillmentSystem)
  (temp : string) (moved : bool) :
  tryMoveFromShelfGroup now fs temp = (moved, fs') ->
  if moved then
    exists so g,
      In so (StorageGroup_ListOrders (ShelfGroup fs))
      /\ Temperature (Order_ so) = temp
      /\ ((temp = TEMP_TYPE_HOT /\ g = ToHeater)
          \/ (temp = TEMP_TYPE_COLD /\ g = ToCooler))
      /\ group_holds (idealGroup fs' g) (ID (Order_ so)) = true
      /\ Actions fs'
         = Actions fs ++ [mkAction (UnixMicro now) (ID (Order_ so)) ACTION_TYPE_MOVE]
      /\ (Forall within_capacity (Storages (ShelfGroup fs)) ->
          StorageGroup_IsFull (ShelfGroup fs') = false)
  else
    Actions fs' = Actions fs
    /\ HeaterGroup fs' = HeaterGroup fs
    /\ CoolerGroup fs' = CoolerGroup fs
    /\ map unit_ids (Storages (ShelfGroup fs'))
       = map unit_ids (Storages (ShelfGroup fs)).
Proof.
  unfold tryMoveFromShelfGroup.
  assert (Hg : match (if String.eqb temp TEMP_TYPE_HOT then Some ToHeater
                      else if String.eqb temp TEMP_TYPE_COLD then Some ToCooler
                      else None) with
               | Some g => (temp = TEMP_TYPE_HOT /\ g = ToHeater)
                           \/ (temp = TEMP_TYPE_COLD /\ g = ToCooler)
               | None => True
               end).
  { destruct (String.eqb_spec temp TEMP_TYPE_HOT); [auto |].
    destruct (String.eqb_spec temp TEMP_TYPE_COLD); auto. }
  destruct (if String.eqb temp TEMP_TYPE_HOT then Some ToHeater
            else if String.eqb temp TEMP_TYPE_COLD then Some ToCooler else None)
    as [g |].
  2: { intros [= <- <-]. auto. }
  destruct (tryMoveOrders now temp (StorageGroup_ListOrders (ShelfGroup fs))
              (Storages (ShelfGroup fs)) (idealGroup fs g))
    as [[r shelves] destination] eqn:E.
  apply tryMoveOrders_spec in E.
  destruct (idealGroup_with fs g (mkGroup shelves) destination) as (Eg & Es & Ea).
  destruct r as [orderID |].
  - intros [= <- <-].
    destruct E as ((so & Hin & Ht & <-) & Hi & Hfree).
    exists so, g. split; [exact Hin |]. split; [exact Ht |]. split; [exact Hg |].
    split; [| split].
    + apply group_holds_iff.
      change (In (ID (Order_ so))
                (units_ids (Storages
                   (idealGroup (with_idealGroup (with_ShelfGroup fs (mkGroup shelves))
                                  g destination) g)))).
      now rewrite Eg.
    + simpl. now rewrite Ea.
    + intros W. change (StorageGroup_IsFull
                          (ShelfGroup (with_idealGroup
                                         (with_ShelfGroup fs (mkGroup shelves))
                                         g destination)) = false).
      rewrite Es. now apply Hfree.
  - intros [= <- <-]. destruct E as [Eids ->].
    rewrite Ea, Es. simpl. destruct g; simpl; auto.
Qed.

(** ** Discard *)

Lemma listed_order_is_held (sg : StorageGroup) (so : StoredOrder) :
  Forall keyed (Storages sg) ->
  In so (StorageGroup_ListOrders sg) ->
  group_holds sg (ID (Order_ so)) = true.
Proof.
  intros K HIn. unfold StorageGroup_ListOrders in HIn.
  apply in_flat_map in HIn. destruct HIn as (s & Hs & Hso).
  unfold Storage_ListOrders, GoMap.values in Hso.
  apply in_map_iff in Hso. destruct Hso as ([k v] & Ev & Hkv). simpl in Ev. subst v.
  rewrite Forall_forall in K. specialize (K s Hs). unfold keyed in K.
  rewrite Forall_forall in K. specialize (K _ Hkv). simpl in K.
  apply group_holds_iff. unfold units_ids. apply in_flat_map.
  exists s. split; [exact Hs |]. unfold unit_ids, GoMap.keys.
  apply in_map_iff. exists (k, so). split; [simpl; congruence | exact Hkv].
Qed.

Lemma group_holds_same_ids (sg sg' : StorageGroup) (x : string) :
  map unit_ids (Storages sg') = map unit_ids (Storages sg) ->
  group_holds sg' x = group_holds sg x.
Proof.
  intros E.
  assert (Eids : units_ids (Storages sg') = units_ids (Storages sg)).
  { unfold units_ids. rewrite !flat_map_concat_map. now rewrite E. }
  destruct (group_holds sg x) eqn:H.
  - apply group_holds_iff. rewrite Eids. now apply group_holds_iff.
  - destruct (group_holds sg' x) eqn:H'; [| reflexivity].
    apply group_holds_iff in H'. rewrite Eids in H'. apply group_holds_iff in H'.
    congruence.
Qed.

(** What a discard appends to the log: nothing, one move action, or one
    discard action naming the least fresh order of the shelf group. *)
Lemma discardOrderFromShelfGroup_log (now : Z) (fs : FulfillmentSystem) :
  exists new,
    Actions (discardOrderFromShelfGroup now fs) = Actions fs ++ new
    /\ (new = []
        \/ (exists orderID,
               new = [mkAction (UnixMicro now) orderID ACTION_TYPE_MOVE])
        \/ (exists candidate,
               GetLeastFreshOrder now (ShelfGroup fs) = Some candidate
               /\ new = [mkAction (UnixMicro now) (ID (Order_ candidate))
                           ACTION_TYPE_DISCARD])).
Proof.
  unfold discardOrderFromShelfGroup.
  destruct (GetLeastFreshOrder now (ShelfGroup fs)) as [candidate |].
  2: { exists []. rewrite app_nil_r. auto. }
  destruct (tryMoveFromShelfGroup now fs (Temperature (Order_ candidate)))
    as [moved fs1] eqn:Et.
  apply tryMoveFromShelfGroup_spec in Et. destruct moved.
  - destruct Et as (so & g & _ & _ & _ & _ & Ea & _).
    eexists. split; [exact Ea |]. right. left. eauto.
  - destruct Et as (Ea & _).
    destruct (StorageGroup_Remove (ShelfGroup fs1) (ID (Order_ candidate)))
      as [[removed |] shelf'].
    + eexists. simpl. rewrite Ea. split; [reflexivity |]. right. right. eauto.
    + exists []. simpl. rewrite Ea, app_nil_r. auto.
Qed.

(** The selection.  [GetLeastFreshOrder] returns nothing exactly when the
    group holds no order; otherwise it returns an order of the listing such
    that every order listed before it is strictly fresher and every order
    listed after it is at least as fresh (the first of the least fresh
    wins).  Whenever [discardOrderFromShelfGroup] records a discard action,
    the action names the order so selected, which is least fresh in the
    state in which the selection is made, that is, before the move attempt
    that precedes the removal.  Nothing is said here of the state in which
    the discard is recorded. *)
Theorem least_fresh_is_discarded :
  (forall now sg,
      GetLeastFreshOrder now sg = None <-> StorageGroup_ListOrders sg = [])
  /\ (forall now sg so,
         GetLeastFreshOrder now sg = Some so ->
         exists l1 l2,
           StorageGroup_ListOrders sg = l1 ++ so :: l2
           /\ Forall (fun x => RemainingFreshness now so < RemainingFreshness now x) l1
           /\ Forall (fun x => RemainingFreshness now so <= RemainingFreshness now x) l2)
  /\ (forall now fs new a,
         Actions (discardOrderFromShelfGroup now fs) = Actions fs ++ new ->
         In a new ->
         Action_ a = ACTION_TYPE_DISCARD ->
         exists so,
           GetLeastFreshOrder now (ShelfGroup fs) = Some so
           /\ In so (StorageGroup_ListOrders (ShelfGroup fs))
           /\ OrderID a = ID (Order_ so)
           /\ new = [a]
           /\ Forall (fun x => RemainingFreshness now so <= RemainingFreshness now x)
                (StorageGroup_ListOrders (ShelfGroup fs))).
Proof.
  split; [| split].
  - apply GetLeastFreshOrder_None.
  - apply GetLeastFreshOrder_Some.
  - intros now fs new a Hlog Ha Hkind.
    destruct (discardOrderFromShelfGroup_log now fs) as (new' & Hlog' & Hnew).
    rewrite Hlog' in Hlog. apply app_inv_head in Hlog. subst new'.
    destruct Hnew as [-> | [(orderID & ->) | (candidate & Hc & ->)]].
    + destruct Ha.
    + destruct Ha as [<- | []]. simpl in Hkind. discriminate.
    + destruct Ha as [<- | []].
      destruct (GetLeastFreshOrder_minimal _ _ _ Hc) as [Hin Hmin].
      exists candidate. auto.
Qed.

Lemma least_fresh_is_discarded_witness :
  let fs := run shelfFullRun (NewFulfillmentSystem smallConfig) in
  exists so,
    GetLeastFreshOrder second (ShelfGroup fs) = Some so
    /\ In so (StorageGroup_ListOrders (ShelfGroup fs))
    /\ OrderID (mkAction (UnixMicro second) "B" ACTION_TYPE_DISCARD) = ID (Order_ so)
    /\ [mkAction (UnixMicro second) "B" ACTION_TYPE_DISCARD]
       = [mkAction (UnixMicro second) "B" ACTION_TYPE_DISCARD]
    /\ Forall (fun x => RemainingFreshness second so <= RemainingFreshness second x)
         (StorageGroup_ListOrders (ShelfGroup fs)).
Proof.
  intros fs.
  apply (proj2 (proj2 least_fresh_is_discarded) second fs
           [mkAction (UnixMicro second) "B" ACTION_TYPE_DISCARD]
           (mkAction (UnixMicro second) "B" ACTION_TYPE_DISCARD)).
  - vm_compute. reflexivity.
  - simpl. left. reflexivity.
  - reflexivity.
Defined.


Lemma discardOrderFromShelfGroup_spec (now : Z) (fs : FulfillmentSystem)
  (candidate : StoredOrder) :
  Forall keyed (Storages (ShelfGroup fs)) ->
  GetLeastFreshOrder now (ShelfGroup fs) = Some candidate ->
  let fs' := discardOrderFromShelfGroup now fs in
  let attempt := tryMoveFromShelfGroup now fs (Temperature (Order_ candidate)) in
  (fst attempt = true ->
   fs' = snd attempt
   /\ exists so g,
       In so (StorageGroup_ListOrders (ShelfGroup fs))
       /\ Temperature (Order_ so) = Temperature (Order_ candidate)
       /\ ((Temperature (Order_ candidate) = TEMP_TYPE_HOT /\ g = ToHeater)
           \/ (Temperature (Order_ candidate) = TEMP_TYPE_COLD /\ g = ToCooler))
       /\ group_holds (idealGroup fs' g) (ID (Order_ so)) = true
       /\ Actions fs'
          = Actions fs
            ++ [mkAction (UnixMicro now) (ID (Order_ so)) ACTION_TYPE_MOVE])
  /\ (fst attempt = false ->
      exists removed,
        removed_from (ShelfGroup (snd attempt)) (ShelfGroup fs')
          (ID (Order_ candidate)) removed
        /\ HeaterGroup fs' = HeaterGroup fs
        /\ CoolerGroup fs' = CoolerGroup fs
        /\ Actions fs'
           = Actions fs
             ++ [mkAction (UnixMicro now) (ID (Order_ candidate))
                   ACTION_TYPE_DISCARD]).
Proof.
  intros K Hc fs' attempt. subst fs' attempt.
  unfold discardOrderFromShelfGroup. rewrite Hc.
  destruct (tryMoveFromShelfGroup now fs (Temperature (Order_ candidate)))
    as [moved fs1] eqn:Et.
  apply tryMoveFromShelfGroup_spec in Et. simpl.
  split; intros ->.
  - split; [reflexivity |].
    destruct Et as (so & g & Hin & Ht & Hg & Hh & Ea & _).
    exists so, g. auto.
  - destruct Et as (Ea & Eh & Ec & Eids).
    destruct (GetLeastFreshOrder_minimal _ _ _ Hc) as [Hin _].
    pose proof (listed_order_is_held _ _ K Hin) as Hheld.
    rewrite <- (group_holds_same_ids _ _ _ Eids) in Hheld.
    destruct (StorageGroup_Remove_removed _ _ Hheld) as (removed & shelf' & E & R).
    rewrite E. simpl. exists removed. rewrite Ea. auto.
Qed.




(** ** Placement always finds a slot *)

Lemma shelf_ready_evolves (fs fs' : FulfillmentSystem) :
  system_evolves fs fs' -> shelf_ready fs -> shelf_ready fs'.
Proof.
  intros (S & _ & _) (W & K & C). unfold shelf_ready.
  induction S as [| s s' l l' [(_ & Hcap & Hw) Hk] S IH].
  - inversion C.
  - inversion W; subst. inversion K; subst.
    assert (Hrest : Exists (fun u => 1 <= Capacity u) l ->
                    Forall within_capacity l'
                    /\ Forall keyed l'
                    /\ Exists (fun u => 1 <= Capacity u) l') by auto.
    split; [| split].
    + constructor; [auto |]. clear - S H2.
      induction S as [| a b l l' [(_ & _ & Hw) _] S IH]; [constructor |].
      inversion H2; subst. constructor; auto.
    + constructor; [auto |]. clear - S H4.
      induction S as [| a b l l' [_ Hk] S IH]; [constructor |].
      inversion H4; subst. constructor; auto.
    + inversion C; subst.
      * apply Exists_cons_hd. lia.
      * apply Exists_cons_tl. now apply Hrest.
Qed.

Lemma NewFulfillmentSystem_shelf_ready (cfg : FulfillmentConfig) :
  1 <= NumShelves cfg -> 1 <= ShelfCap cfg ->
  shelf_ready (NewFulfillmentSystem cfg).
Proof.
  intros Hn Hc. unfold shelf_ready. simpl. split; [| split].
  - apply newUnits_within_capacity. lia.
  - unfold newUnits. apply Forall_map. apply Forall_forall. intros i _.
    unfold keyed. simpl. constructor.
  - unfold newUnits.
    destruct (Z.to_nat (NumShelves cfg)) as [| n] eqn:E; [lia |].
    simpl. apply Exists_cons_hd. simpl. exact Hc.
Qed.

Lemma full_shelf_lists_an_order (sg : StorageGroup) :
  StorageGroup_IsFull sg = true ->
  Exists (fun s => 1 <= Capacity s) (Storages sg) ->
  StorageGroup_ListOrders sg <> [].
Proof.
  unfold StorageGroup_IsFull, StorageGroup_ListOrders.
  intros Hfull Hcap. apply Exists_exists in Hcap. destruct Hcap as (s & Hs & Hc).
  rewrite forallb_forall in Hfull. specialize (Hfull s Hs).
  apply Storage_IsFull_true in Hfull.
  destruct (Orders s) as [| [k v] rest] eqn:Eo.
  - unfold GoMap.len in Hfull. simpl in Hfull. lia.
  - intros Hnil.
    assert (HIn : In v (flat_map Storage_ListOrders (Storages sg))).
    { apply in_flat_map. exists s. split; [exact Hs |].
      unfold Storage_ListOrders. rewrite Eo. simpl. now left. }
    rewrite Hnil in HIn. destruct HIn.
Qed.

Lemma removed_from_frees (sg sg' : StorageGroup) (orderID : string)
  (so : StoredOrder) :
  removed_from sg sg' orderID so ->
  Forall within_capacity (Storages sg) ->
  StorageGroup_IsFull sg' = false.
Proof.
  intros (before & s & after & Hs & _ & Hget & Hs') W.
  unfold StorageGroup_IsFull. rewrite Hs', forallb_app. simpl.
  rewrite Hs in W. apply Forall_app in W. destruct W as [_ W].
  inversion W as [| ? ? Ws _]; subst.
  assert (Hfree : Storage_IsFull (with_Orders s (GoMap.delete orderID (Orders s)))
                  = false).
  { apply Storage_IsFull_false. simpl.
    pose proof (len_delete_lt orderID (Orders s)) as L.
    unfold within_capacity in Ws.
    assert (In orderID (GoMap.keys (Orders s)))
      by (eapply get_Some_keys; exact Hget).
    specialize (L H). lia. }
  rewrite Hfree. simpl. apply andb_false_r.
Qed.

(** A discard on a full shelf group leaves a free shelf slot and records
    no place action. *)
Lemma discardOrderFromShelfGroup_frees (now : Z) (fs : FulfillmentSystem) :
  shelf_ready fs ->
  StorageGroup_IsFull (ShelfGroup fs) = true ->
  StorageGroup_IsFull (ShelfGroup (discardOrderFromShelfGroup now fs)) = false.
Proof.
  intros (W & K & C) Hfull.
  destruct (GetLeastFreshOrder now (ShelfGroup fs)) as [candidate |] eqn:Hc.
  2: { apply GetLeastFreshOrder_None in Hc.
       now apply full_shelf_lists_an_order in Hc. }
  pose proof (discardOrderFromShelfGroup_spec now fs candidate K Hc) as [Hm Hd].
  pose proof (tryMoveFromShelfGroup_evolves now fs (Temperature (Order_ candidate)))
    as Hev.
  destruct (tryMoveFromShelfGroup now fs (Temperature (Order_ candidate)))
    as [moved fs1] eqn:Et.
  simpl in Hm, Hd, Hev. destruct moved.
  - destruct (Hm eq_refl) as [-> _].
    apply tryMoveFromShelfGroup_spec in Et.
    destruct Et as (so & g & _ & _ & _ & _ & _ & Hfree). now apply Hfree.
  - destruct (Hd eq_refl) as (removed & R & _).
    eapply removed_from_frees; [exact R |].
    destruct Hev as (S & _ & _).
    eapply shelves_stay_within_capacity; eauto.
Qed.

Lemma placeOnShelf_not_full (now : Z) (fs : FulfillmentSystem)
  (storedOrder : StoredOrder) :
  StorageGroup_IsFull (ShelfGroup fs) = false ->
  exists fs',
    placeOnShelf now fs storedOrder = Some fs'
    /\ Actions fs'
       = Actions fs
         ++ [mkAction (UnixMicro now) (ID (Order_ storedOrder)) ACTION_TYPE_PLACE].
Proof.
  intros Hfree. unfold placeOnShelf.
  pose proof (StorageGroup_Add_not_full _ storedOrder Hfree) as H.
  destruct (StorageGroup_Add (ShelfGroup fs) storedOrder) as [ok shelf'].
  simpl in H. subst ok. eexists. split; reflexivity.
Qed.

Lemma placeOnShelf_log (now : Z) (fs fs' : FulfillmentSystem)
  (storedOrder : StoredOrder) :
  placeOnShelf now fs storedOrder = Some fs' ->
  Actions fs'
  = Actions fs
    ++ [mkAction (UnixMicro now) (ID (Order_ storedOrder)) ACTION_TYPE_PLACE].
Proof.
  unfold placeOnShelf.
  destruct (StorageGroup_Add (ShelfGroup fs) storedOrder) as [[|] shelf'];
    [| discriminate].
  now intros [= <-].
Qed.

Lemma placeOnShelf_None (now : Z) (fs : FulfillmentSystem) (storedOrder : StoredOrder) :
  placeOnShelf now fs storedOrder = None ->
  StorageGroup_IsFull (ShelfGroup fs) = true.
Proof.
  intros H. destruct (StorageGroup_IsFull (ShelfGroup fs)) eqn:E; [reflexivity |].
  destruct (placeOnShelf_not_full now fs storedOrder E) as (fs' & E' & _).
  congruence.
Qed.

Lemma discardThenPlace_places (now : Z) (fs : FulfillmentSystem)
  (storedOrder : StoredOrder) :
  shelf_ready fs ->
  exists before,
    Actions (discardThenPlace now fs storedOrder)
    = Actions fs ++ before
      ++ [mkAction (UnixMicro now) (ID (Order_ storedOrder)) ACTION_TYPE_PLACE]
    /\ Forall (fun a => Action_ a <> ACTION_TYPE_PLACE) before.
Proof.
  intros R. unfold discardThenPlace.
  destruct (StorageGroup_IsFull (ShelfGroup fs)) eqn:Hfull.
  - pose proof (discardOrderFromShelfGroup_frees now fs R Hfull) as Hfree.
    destruct (discardOrderFromShelfGroup_log now fs) as (new & Hlog & Hnew).
    destruct (placeOnShelf_not_full now _ storedOrder Hfree) as (fs2 & E & Ea).
    rewrite E. exists new. rewrite Ea, Hlog, <- app_assoc. split; [reflexivity |].
    destruct Hnew as [-> | [(orderID & ->) | (candidate & _ & ->)]];
      repeat constructor; simpl; discriminate.
  - destruct (placeOnShelf_not_full now fs storedOrder Hfull) as (fs2 & E & Ea).
    rewrite E. exists []. split; [exact Ea | constructor].
Qed.

Lemma PlaceOrder_places (now : Z) (fs : FulfillmentSystem) (order : Order) :
  shelf_ready fs ->
  exists before,
    Actions (PlaceOrder now fs order)
    = Actions fs ++ before
      ++ [mkAction (UnixMicro now) (ID order) ACTION_TYPE_PLACE]
    /\ Forall (fun a => Action_ a <> ACTION_TYPE_PLACE) before.
Proof.
  intros R. unfold PlaceOrder.
  set (storedOrder := {| Order_ := order; PlacedAt := now |}).
  assert (Hshelf : forall fs1,
             placeOnShelf now fs storedOrder = Some fs1 ->
             exists before,
               Actions fs1
               = Actions fs ++ before
                 ++ [mkAction (UnixMicro now) (ID order) ACTION_TYPE_PLACE]
               /\ Forall (fun a => Action_ a <> ACTION_TYPE_PLACE) before).
  { intros fs1 E. exists []. split; [| constructor].
    exact (placeOnShelf_log _ _ _ _ E). }
  destruct (String.eqb (Temperature order) TEMP_TYPE_HOT
            || String.eqb (Temperature order) TEMP_TYPE_COLD).
  - set (g := if String.eqb (Temperature order) TEMP_TYPE_HOT
              then ToHeater else ToCooler).
    destruct (StorageGroup_Add (idealGroup fs g) storedOrder) as [[|] ideal'].
    { exists []. split; [| constructor]. destruct g; reflexivity. }
    destruct (placeOnShelf now fs storedOrder) as [fs1 |] eqn:E1; [now apply Hshelf |].
    rewrite (placeOnShelf_None _ _ _ E1).
    pose proof (tryMoveFromShelfGroup_evolves now fs (Temperature order)) as Hev.
    destruct (tryMoveFromShelfGroup now fs (Temperature order)) as [moved fs1] eqn:Et.
    simpl in Hev. pose proof (shelf_ready_evolves _ _ Hev R) as R1.
    apply tryMoveFromShelfGroup_spec in Et. destruct moved.
    + destruct Et as (so & g' & _ & _ & _ & _ & Ea & Hfree).
      destruct (placeOnShelf_not_full now fs1 storedOrder (Hfree (proj1 R)))
        as (fs2 & E2 & Ea2).
      rewrite E2. eexists. rewrite Ea2, Ea, <- app_assoc. split; [reflexivity |].
      repeat constructor. simpl. discriminate.
    + destruct Et as (Ea & _).
      destruct (discardThenPlace_places now fs1 storedOrder R1) as (before & E & F).
      exists before. rewrite E, Ea. auto.
  - destruct (placeOnShelf now fs storedOrder) as [fs1 |] eqn:E1; [now apply Hshelf |].
    exact (discardThenPlace_places now fs storedOrder R).
Qed.



(** ** The reallocation tick *)

Lemma group_holds_units (units : list Storage) (x : string) :
  group_holds (mkGroup units) x = true <-> In x (units_ids units).
Proof. apply (group_holds_iff (mkGroup units)). Qed.

Lemma all_ids_in (fs : FulfillmentSystem) (x : string) :
  In x (all_ids fs)
  <-> group_holds (HeaterGroup fs) x = true
      \/ group_holds (CoolerGroup fs) x = true
      \/ group_holds (ShelfGroup fs) x = true.
Proof.
  unfold all_ids, all_units. rewrite !units_ids_app, !in_app_iff.
  rewrite !group_holds_iff. tauto.
Qed.

(** One move of [orderID] off the shelf into the group [g]: either nothing
    is logged, the shelf units hold the ids they held and the heater and the
    cooler are unchanged, or one move action is logged, [g] now holds the id
    and no other id has left its group. *)
Lemma moveToIdeal_spec (now : Z) (fs : FulfillmentSystem) (orderID : string)
  (g : IdealGroup) :
  let fs' := moveToIdeal now fs orderID g in
  (Actions fs' = Actions fs
   /\ map unit_ids (Storages (ShelfGroup fs')) = map unit_ids (Storages (ShelfGroup fs))
   /\ HeaterGroup fs' = HeaterGroup fs
   /\ CoolerGroup fs' = CoolerGroup fs)
  \/ (Actions fs'
      = Actions fs ++ [mkAction (UnixMicro now) orderID ACTION_TYPE_MOVE]
      /\ group_holds (ShelfGroup fs) orderID = true
      /\ group_holds (idealGroup fs' g) orderID = true
      /\ (forall x, x <> orderID -> group_holds (ShelfGroup fs) x = true ->
                    group_holds (ShelfGroup fs') x = true)
      /\ (forall x, group_holds (HeaterGroup fs) x = true ->
                    group_holds (HeaterGroup fs') x = true)
      /\ (forall x, group_holds (CoolerGroup fs) x = true ->
                    group_holds (CoolerGroup fs') x = true)).
Proof.
  unfold moveToIdeal.
  destruct (moveFromShelves now orderID (Storages (ShelfGroup fs)) (idealGroup fs g))
    as [[moved shelves] destination] eqn:E.
  apply moveFromShelves_ids in E. destruct E as (Hd & _ & _ & Hfalse & Htrue).
  destruct moved.
  - right. destruct (Htrue eq_refl) as (Hi & Hi' & Hother).
    split; [destruct g; reflexivity |].
    split; [now apply group_holds_iff |].
    split; [destruct g; simpl; now apply group_holds_iff |].
    split; [| split].
    + intros x Hne Hx. apply group_holds_iff in Hx.
      destruct g; simpl; apply group_holds_units; auto.
    + intros x Hx. destruct g; simpl; [| exact Hx].
      apply group_holds_iff. apply Hd. now apply group_holds_iff.
    + intros x Hx. destruct g; simpl; [exact Hx |].
      apply group_holds_iff. apply Hd. now apply group_holds_iff.
  - left. destruct (Hfalse eq_refl) as [Eids ->].
    destruct g; simpl; repeat split; auto.
Qed.



(** ** No order is lost or duplicated *)

Lemma units_ids_same (units units' : list Storage) :
  map unit_ids units' = map unit_ids units -> units_ids units' = units_ids units.
Proof.
  intros E. unfold units_ids. rewrite !flat_map_concat_map. now rewrite E.
Qed.

Lemma moveFromShelves_keeps (now : Z) (orderID : string)
  (shelves shelves' : list Storage) (destination destination' : StorageGroup)
  (moved : bool) (x : string) :
  moveFromShelves now orderID shelves destination = (moved, shelves', destination') ->
  In x (units_ids shelves) \/ In x (units_ids (Storages destination)) ->
  In x (units_ids shelves') \/ In x (units_ids (Storages destination')).
Proof.
  intros E. apply moveFromShelves_ids in E.
  destruct E as (Hd & _ & _ & Hfalse & Htrue). destruct moved.
  - destruct (Htrue eq_refl) as (_ & Hi & Hother).
    intros [Hx | Hx]; [| auto].
    destruct (string_dec x orderID) as [-> | Hne]; auto.
  - destruct (Hfalse eq_refl) as [Eids ->].
    now rewrite (units_ids_same _ _ Eids).
Qed.

Lemma tryMoveOrders_keeps (now : Z) (temp : string) (orders : list StoredOrder)
  (shelves shelves' : list Storage) (destination destination' : StorageGroup)
  (r : option string) (x : string) :
  tryMoveOrders now temp orders shelves destination = (r, shelves', destination') ->
  (In x (units_ids shelves) \/ In x (units_ids (Storages destination)) ->
   In x (units_ids shelves') \/ In x (units_ids (Storages destination')))
  /\ (In x (units_ids (Storages destination)) ->
      In x (units_ids (Storages destination'))).
Proof.
  revert shelves destination.
  induction orders as [| so rest IH]; intros shelves destination;
    cbn [tryMoveOrders].
  - intros [= _ <- <-]. auto.
  - destruct (String.eqb (Temperature (Order_ so)) temp); [| apply IH].
    destruct (moveFromShelves now (ID (Order_ so)) shelves destination)
      as [[m shelves1] destination1] eqn:Em.
    pose proof (moveFromShelves_keeps _ _ _ _ _ _ _ x Em) as Hk.
    apply moveFromShelves_ids in Em. destruct Em as (Hd & _).
    destruct m.
    + intros [= _ <- <-]. auto.
    + intros E. destruct (IH _ _ E) as [IH1 IH2]. auto.
Qed.

Lemma moved_system_keeps (fs : FulfillmentSystem) (g : IdealGroup)
  (shelves : list Storage) (destination : StorageGroup) (x : string) :
  (In x (units_ids (Storages (ShelfGroup fs)))
   \/ In x (units_ids (Storages (idealGroup fs g))) ->
   In x (units_ids shelves) \/ In x (units_ids (Storages destination))) ->
  (In x (units_ids (Storages (idealGroup fs g))) ->
   In x (units_ids (Storages destination))) ->
  In x (all_ids fs) ->
  In x (all_ids (with_idealGroup (with_ShelfGroup fs (mkGroup shelves)) g destination)).
Proof.
  intros Hk Hd. unfold all_ids, all_units. rewrite !units_ids_app, !in_app_iff.
  destruct g; simpl in *; intuition.
Qed.

Lemma moveToIdeal_keeps_ids (now : Z) (fs : FulfillmentSystem) (orderID : string)
  (g : IdealGroup) (x : string) :
  In x (all_ids fs) -> In x (all_ids (moveToIdeal now fs orderID g)).
Proof.
  unfold moveToIdeal.
  destruct (moveFromShelves now orderID (Storages (ShelfGroup fs)) (idealGroup fs g))
    as [[moved shelves] destination] eqn:E.
  pose proof (moveFromShelves_keeps _ _ _ _ _ _ _ x E) as Hk.
  apply moveFromShelves_ids in E. destruct E as (Hd & _).
  intros Hx.
  pose proof (moved_system_keeps fs g shelves destination x Hk (Hd x) Hx) as H.
  destruct moved; exact H.
Qed.

Lemma tryMoveFromShelfGroup_keeps_ids (now : Z) (fs : FulfillmentSystem)
  (temp x : string) :
  In x (all_ids fs) -> In x (all_ids (snd (tryMoveFromShelfGroup now fs temp))).
Proof.
  unfold tryMoveFromShelfGroup.
  destruct (if String.eqb temp TEMP_TYPE_HOT then Some ToHeater
            else if String.eqb temp TEMP_TYPE_COLD then Some ToCooler else None)
    as [g |]; [| auto].
  destruct (tryMoveOrders now temp (StorageGroup_ListOrders (ShelfGroup fs))
              (Storages (ShelfGroup fs)) (idealGroup fs g))
    as [[r shelves] destination] eqn:E.
  destruct (tryMoveOrders_keeps _ _ _ _ _ _ _ _ x E) as [Hk Hd].
  intros Hx. pose proof (moved_system_keeps fs g shelves destination x Hk Hd Hx) as H.
  destruct r; exact H.
Qed.

Lemma reallocateTick_keeps_ids (now : Z) (fs : FulfillmentSystem) (x : string) :
  In x (all_ids fs) -> In x (all_ids (reallocateTick now fs)).
Proof.
  unfold reallocateTick. destruct (negb _); [auto |].
  generalize (StorageGroup_ListOrders (ShelfGroup fs)). intros orders.
  revert fs. induction orders as [| so rest IH]; intros fs Hx; simpl; [exact Hx |].
  apply IH.
  destruct (_ && _); [now apply moveToIdeal_keeps_ids |].
  destruct (_ && _); [now apply moveToIdeal_keeps_ids | exact Hx].
Qed.

Lemma step_no_new_ids (now : Z) (op : Op) (fs : FulfillmentSystem) (x : string) :
  (forall order, op <> OpPlace order) ->
  In x (all_ids (step now op fs)) -> In x (all_ids fs).
Proof.
  intros Hop Hx. apply (count_occ_In string_dec) in Hx.
  apply (count_occ_In string_dec).
  pose proof (step_occ now op fs x) as H.
  destruct op; simpl in H, Hx; try lia.
  exfalso. exact (Hop order eq_refl).
Qed.

(** C6.  An order id is stored in at most one unit.
    - From the empty system, after any run whose placements carry pairwise
      distinct ids (interleaved at will with pickups, reallocation ticks,
      moves, move attempts, discards and changes of the maps' enumeration
      order), no id is stored in two units.
    - An atomic move neither loses nor invents an id: the ids stored in the
      source or the destination group are the same before and after.  The
      same holds, for the ids stored in the whole system, of a move of one
      order off the shelf, of a move attempt for a temperature class and of
      a reallocation tick.
    - An atomic move of an order that is in the source and in no destination
      unit leaves it in exactly one unit among the source and the
      destination units, whether the move succeeds or fails. *)
Theorem order_in_at_most_one_unit :
  (forall cfg trace orderID,
      NoDup (placedIDs trace) ->
      (List.length (holders (run trace (NewFulfillmentSystem cfg)) orderID) <= 1)%nat)
  /\ (forall now orderID source destination x,
         In x (unit_ids source ++ units_ids (Storages destination))
         <-> In x (unit_ids (snd (fst (atomicMoveOrder now orderID source destination)))
                   ++ units_ids
                        (Storages (snd (atomicMoveOrder now orderID source destination)))))
  /\ (forall now op fs x,
         op = OpTick
         \/ (exists orderID g, op = OpMove orderID g)
         \/ (exists temp, op = OpTryMove temp) ->
         (In x (all_ids fs) <-> In x (all_ids (step now op fs))))
  /\ (forall now orderID source destination,
         holds source orderID = true ->
         group_holds destination orderID = false ->
         List.length
           (filter (fun s => holds s orderID)
              (snd (fst (atomicMoveOrder now orderID source destination))
               :: Storages (snd (atomicMoveOrder now orderID source destination))))
         = 1%nat).
Proof.
  split; [| split; [| split]].
  - intros cfg trace orderID H.
    pose proof (run_ids_NoDup cfg trace H) as HN.
    apply (proj1 (NoDup_count_occ string_dec _)) with (x := orderID) in HN.
    pose proof (holders_le_occ (all_units (run trace (NewFulfillmentSystem cfg)))
                  orderID) as HL.
    unfold holders. unfold all_ids in HN. lia.
  - intros now orderID source destination x.
    destruct (atomicMoveOrder now orderID source destination)
      as [[moved source'] destination'] eqn:E. simpl.
    apply atomicMoveOrder_ids in E.
    destruct E as (Hd & Hd' & Hs & Hfalse & Htrue).
    rewrite !in_app_iff. destruct moved.
    + destruct (Htrue eq_refl) as (Hi & Hi' & _ & Hother). split.
      * intros [Hx | Hx]; [| auto].
        destruct (string_dec x orderID) as [-> | Hne]; auto.
      * intros [Hx | Hx]; [auto |].
        destruct (Hd' x Hx) as [Hx' | ->]; auto.
    + destruct (Hfalse eq_refl) as [-> ->]. tauto.
  - intros now op fs x Hop. split.
    + destruct Hop as [-> | [(orderID & g & ->) | (temp & ->)]]; simpl.
      * apply reallocateTick_keeps_ids.
      * apply moveToIdeal_keeps_ids.
      * apply tryMoveFromShelfGroup_keeps_ids.
    + apply step_no_new_ids.
      destruct Hop as [-> | [(orderID & g & ->) | (temp & ->)]]; discriminate.
  - intros now orderID source destination Hsrc Hdst.
    destruct (atomicMoveOrder now orderID source destination)
      as [[moved source'] destination'] eqn:E. simpl.
    destruct moved.
    + apply atomicMoveOrder_success in E.
      destruct E as (order & order' & before & d & after & _ & _ & _ & Hd & _ & _
                     & -> & ->).
      unfold group_holds in Hdst. rewrite Hd in Hdst.
      rewrite existsb_app in Hdst. simpl in Hdst.
      apply orb_false_iff in Hdst. destruct Hdst as [Hb Hda].
      apply orb_false_iff in Hda. destruct Hda as [_ Ha].
      assert (H1 : holds (with_Orders source
                            (GoMap.delete orderID
                               (GoMap.set orderID order' (Orders source)))) orderID
                   = false).
      { unfold holds, GetOrder. simpl. now rewrite get_delete_same. }
      assert (H2 : holds (with_Orders d (GoMap.set orderID order' (Orders d))) orderID
                   = true).
      { unfold holds, GetOrder. simpl. now rewrite get_set_same. }
      rewrite H1. simpl. rewrite filter_app. simpl. rewrite H2.
      rewrite (filter_none _ _ Hb), (filter_none _ _ Ha). reflexivity.
    + apply atomicMoveOrder_failure in E. destruct E as (-> & _ & E).
      rewrite (holds_same_ids _ _ orderID E), Hsrc.
      unfold group_holds in Hdst. now rewrite (filter_none _ _ Hdst).
Qed.

Lemma order_in_at_most_one_unit_witness :
  (List.length
     (holders (run sampleRun (NewFulfillmentSystem smallConfig)) "B") <= 1)%nat.
Proof.
  apply (proj1 order_in_at_most_one_unit).
  simpl. repeat constructor; simpl; intuition discriminate.
Defined.

(** A tick on a full shelf: after [expiredRun] the expired order [A] is
    refused, [B] is moved into the free heater, and one move action is
    logged. *)
Example reallocateTick_on_full_shelf :
  let fs := run expiredRun (NewFulfillmentSystem smallConfig) in
  let fs' := reallocateTick (5 * second) fs in
  StorageGroup_IsFull (ShelfGroup fs) = true
  /\ Actions fs'
     = Actions fs ++ [mkAction (UnixMicro (5 * second)) "B" ACTION_TYPE_MOVE]
  /\ group_holds (HeaterGroup fs') "B" = true
  /\ group_holds (ShelfGroup fs') "A" = true.
Proof. repeat split; reflexivity. Qed.



(* ================================================================== *)
(** * Further properties of the storage units, the groups and the engine *)

(** ** One unit: lookup, insert, remove *)

Lemma delete_set_absent (k : string) (v : StoredOrder) (m : GoMap.t StoredOrder) :
  ~ In k (GoMap.keys m) -> GoMap.delete k (GoMap.set k v m) = m.
Proof.
  induction m as [| [k' v'] rest IH]; simpl.
  - intros _. now rewrite String.eqb_refl.
  - intros H. destruct (String.eqb_spec k k') as [-> | Hne]; [tauto |].
    simpl. destruct (String.eqb_spec k k'); [contradiction |].
    f_equal. apply IH. tauto.
Qed.

(** X1.  [Storage.Remove] hands back exactly what a lookup of the id finds.
    Afterwards the unit no longer holds the id, every other id is looked up
    as before and the capacity is unchanged; a missing id leaves the unit as
    it was, a present one lowers the occupancy. *)
Theorem Storage_Remove_lookup (s : Storage) (orderID : string) :
  fst (Storage_Remove s orderID) = GetOrder s orderID
  /\ GetOrder (snd (Storage_Remove s orderID)) orderID = None
  /\ (forall k, k <> orderID ->
        GetOrder (snd (Storage_Remove s orderID)) k = GetOrder s k)
  /\ Capacity (snd (Storage_Remove s orderID)) = Capacity s
  /\ (GetOrder s orderID = None -> snd (Storage_Remove s orderID) = s)
  /\ (GetOrder s orderID <> None ->
      GoMap.len (Orders (snd (Storage_Remove s orderID))) < GoMap.len (Orders s)).
Proof.
  pose proof (Storage_Remove_spec s orderID) as H.
  destruct (GetOrder s orderID) as [so |] eqn:E; rewrite H; simpl.
  - unfold GetOrder. simpl.
    split; [reflexivity |]. split; [apply get_delete_same |].
    split; [intros k Hk; now apply get_delete_other |].
    split; [reflexivity |]. split; [discriminate |].
    intros _. apply len_delete_lt. eapply get_Some_keys. exact E.
  - split; [reflexivity |]. split; [exact E |].
    split; [reflexivity |]. split; [reflexivity |]. split; [reflexivity |].
    intros C. now contradiction C.
Qed.

Lemma Storage_Remove_lookup_witness :
  GoMap.len (Orders (snd (Storage_Remove shelfWithA "A")))
  < GoMap.len (Orders shelfWithA).
Proof.
  apply (proj2 (proj2 (proj2 (proj2 (proj2 (Storage_Remove_lookup shelfWithA "A")))))).
  discriminate.
Defined.

(** X2.  Adding an order whose id the unit does not hold, into a unit with a
    free slot, and removing that id again gives the order back and restores
    the unit exactly. *)
Theorem Storage_Add_Remove_roundtrip (s : Storage) (order : StoredOrder) :
  holds s (ID (Order_ order)) = false ->
  GoMap.len (Orders s) < Capacity s ->
  fst (Storage_Add s order) = true
  /\ Storage_Remove (snd (Storage_Add s order)) (ID (Order_ order))
     = (Some order, s).
Proof.
  intros Hh Hroom.
  rewrite (proj1 (Storage_Add_spec s order) (or_intror Hroom)). simpl.
  split; [reflexivity |].
  unfold Storage_Remove. simpl. rewrite get_set_same.
  apply holds_false_iff in Hh. unfold unit_ids in Hh.
  rewrite (delete_set_absent _ _ _ Hh). now destruct s.
Qed.

Lemma Storage_Add_Remove_roundtrip_witness :
  fst (Storage_Add (NewStorage "Shelf-1" 1) {| Order_ := hotB; PlacedAt := 0 |}) = true
  /\ Storage_Remove
       (snd (Storage_Add (NewStorage "Shelf-1" 1) {| Order_ := hotB; PlacedAt := 0 |}))
       (ID hotB)
     = (Some {| Order_ := hotB; PlacedAt := 0 |}, NewStorage "Shelf-1" 1).
Proof.
  apply (Storage_Add_Remove_roundtrip (NewStorage "Shelf-1" 1)
           {| Order_ := hotB; PlacedAt := 0 |}).
  - reflexivity.
  - reflexivity.
Defined.

(** ** One group: first fit, removal *)

Lemma holding_app (a b : list Storage) (x : string) :
  holding (a ++ b) x = (holding a x + holding b x)%nat.
Proof. unfold holding. now rewrite filter_app, length_app. Qed.

Lemma holding_cons (s : Storage) (l : list Storage) (x : string) :
  holding (s :: l) x = ((if holds s x then 1 else 0) + holding l x)%nat.
Proof. unfold holding. simpl. now destruct (holds s x). Qed.

Lemma holding_zero (units : list Storage) (x : string) :
  holding units x = 0%nat <-> group_holds (mkGroup units) x = false.
Proof.
  unfold holding, group_holds. simpl.
  induction units as [| s rest IH]; simpl; [tauto |].
  destruct (holds s x); simpl; [split; discriminate | exact IH].
Qed.

Lemma holds_set_same (s : Storage) (k : string) (v : StoredOrder) :
  holds (with_Orders s (GoMap.set k v (Orders s))) k = true.
Proof. unfold holds, GetOrder. simpl. now rewrite get_set_same. Qed.

Lemma holds_set_other (s : Storage) (k x : string) (v : StoredOrder) :
  x <> k -> holds (with_Orders s (GoMap.set k v (Orders s))) x = holds s x.
Proof. intros H. unfold holds, GetOrder. simpl. now rewrite get_set_other. Qed.

Lemma holds_delete_same (s : Storage) (k : string) :
  holds (with_Orders s (GoMap.delete k (Orders s))) k = false.
Proof. unfold holds, GetOrder. simpl. now rewrite get_delete_same. Qed.

Lemma holds_delete_other (s : Storage) (k x : string) :
  x <> k -> holds (with_Orders s (GoMap.delete k (Orders s))) x = holds s x.
Proof. intros H. unfold holds, GetOrder. simpl. now rewrite get_delete_other. Qed.

(** X3.  [StorageGroup.Add] is first fit.  It fails exactly when every unit
    is full, and then leaves the group as it was.  Otherwise it succeeds: the
    units before the first unit with a free slot, and all units after it, are
    untouched; that unit now returns the order on a lookup of its id and
    looks up every other id as before. *)
Theorem StorageGroup_Add_first_fit (sg : StorageGroup) (order : StoredOrder) :
  (StorageGroup_IsFull sg = true -> StorageGroup_Add sg order = (false, sg))
  /\ (StorageGroup_IsFull sg = false ->
      exists before s s' after,
        Storages sg = before ++ s :: after
        /\ forallb Storage_IsFull before = true
        /\ Storage_IsFull s = false
        /\ StorageGroup_Add sg order = (true, mkGroup (before ++ s' :: after))
        /\ GetOrder s' (ID (Order_ order)) = Some order
        /\ (forall k, k <> ID (Order_ order) -> GetOrder s' k = GetOrder s k)
        /\ Capacity s' = Capacity s
        /\ group_holds (mkGroup (before ++ s' :: after)) (ID (Order_ order)) = true).
Proof.
  split; [apply StorageGroup_Add_full |].
  intros Hfull. unfold StorageGroup_Add, StorageGroup_IsFull in *.
  destruct (addToUnits_spec (Storages sg) order)
    as [[Hall _] | (before & s & after & Hs & Hb & Hnf & E)]; [congruence |].
  exists before, s,
    (with_Orders s (GoMap.set (ID (Order_ order)) order (Orders s))), after.
  rewrite E. split; [exact Hs |]. split; [exact Hb |]. split; [exact Hnf |].
  split; [reflexivity |]. unfold GetOrder. simpl.
  split; [apply get_set_same |].
  split; [intros k Hk; now apply get_set_other |]. split; [reflexivity |].
  unfold group_holds. simpl. rewrite existsb_app. simpl.
  rewrite holds_set_same. now rewrite orb_true_r.
Qed.

Lemma StorageGroup_Add_first_fit_witness :
  StorageGroup_Add fullHeater {| Order_ := hotA; PlacedAt := 0 |} = (false, fullHeater)
  /\ exists before s s' after,
       Storages emptyHeater = before ++ s :: after
       /\ forallb Storage_IsFull before = true
       /\ Storage_IsFull s = false
       /\ StorageGroup_Add emptyHeater {| Order_ := hotA; PlacedAt := 0 |}
          = (true, mkGroup (before ++ s' :: after))
       /\ GetOrder s' (ID hotA) = Some {| Order_ := hotA; PlacedAt := 0 |}
       /\ (forall k, k <> ID hotA -> GetOrder s' k = GetOrder s k)
       /\ Capacity s' = Capacity s
       /\ group_holds (mkGroup (before ++ s' :: after)) (ID hotA) = true.
Proof.
  split.
  - apply (proj1 (StorageGroup_Add_first_fit fullHeater
                    {| Order_ := hotA; PlacedAt := 0 |})).
    reflexivity.
  - apply (proj2 (StorageGroup_Add_first_fit emptyHeater
                    {| Order_ := hotA; PlacedAt := 0 |})).
    reflexivity.
Defined.

(** X4.  [StorageGroup.Add] does not look for the id in full units.  When the
    id is held only by units that are full and a later unit has a free slot,
    the order is filed a second time: one more unit of the group holds the
    id than before. *)
Theorem StorageGroup_Add_files_second_copy (sg : StorageGroup) (order : StoredOrder)
  (before after : list Storage) (s : Storage) :
  Storages sg = before ++ s :: after ->
  forallb Storage_IsFull before = true ->
  Storage_IsFull s = false ->
  holds s (ID (Order_ order)) = false ->
  fst (StorageGroup_Add sg order) = true
  /\ holding (Storages (snd (StorageGroup_Add sg order))) (ID (Order_ order))
     = S (holding (Storages sg) (ID (Order_ order))).
Proof.
  intros Hs Hb Hnf Hh. unfold StorageGroup_Add.
  assert (E : addToUnits (Storages sg) order
              = (true, before
                       ++ with_Orders s (GoMap.set (ID (Order_ order)) order (Orders s))
                       :: after)).
  { rewrite Hs. clear Hs. induction before as [| b rest IH]; simpl.
    - rewrite Hnf. simpl.
      apply Storage_IsFull_false in Hnf.
      now rewrite (proj1 (Storage_Add_spec s order) (or_intror Hnf)).
    - simpl in Hb. apply andb_prop in Hb. destruct Hb as [Hb1 Hb2].
      rewrite Hb1. simpl. now rewrite (IH Hb2). }
  rewrite E. simpl. split; [reflexivity |].
  rewrite Hs, !holding_app, !holding_cons, holds_set_same, Hh. lia.
Qed.

Lemma StorageGroup_Add_files_second_copy_witness :
  let sg := mkGroup [shelfWithA; NewStorage "Shelf-2" 1] in
  fst (StorageGroup_Add sg {| Order_ := hotA; PlacedAt := second |}) = true
  /\ holding (Storages (snd (StorageGroup_Add sg {| Order_ := hotA; PlacedAt := second |})))
       (ID hotA)
     = S (holding (Storages sg) (ID hotA)).
Proof.
  intros sg.
  apply (StorageGroup_Add_files_second_copy sg {| Order_ := hotA; PlacedAt := second |}
           [shelfWithA] [] (NewStorage "Shelf-2" 1)); reflexivity.
Defined.

(** X5.  [StorageGroup.Remove] fails exactly when no unit holds the id, and
    then leaves the group as it was.  Otherwise it returns the order found in
    the first unit that holds the id and deletes it there: one unit fewer
    holds the id, and for every other id each group lookup answers as
    before. *)
Theorem StorageGroup_Remove_first_holder (sg : StorageGroup) (orderID : string) :
  (group_holds sg orderID = false -> StorageGroup_Remove sg orderID = (None, sg))
  /\ (group_holds sg orderID = true ->
      exists so sg',
        StorageGroup_Remove sg orderID = (Some so, sg')
        /\ removed_from sg sg' orderID so
        /\ S (holding (Storages sg') orderID) = holding (Storages sg) orderID
        /\ (forall x, x <> orderID -> group_holds sg' x = group_holds sg x)).
Proof.
  split; [apply StorageGroup_Remove_absent |].
  intros Hh. destruct (StorageGroup_Remove_removed _ _ Hh) as (so & sg' & E & R).
  exists so, sg'. split; [exact E |]. split; [exact R |].
  destruct R as (before & s & after & Hs & Hb & Hget & Hs').
  assert (Hs_holds : holds s orderID = true) by (unfold holds; now rewrite Hget).
  split.
  - rewrite Hs, Hs', !holding_app, !holding_cons, holds_delete_same, Hs_holds. lia.
  - intros x Hx. unfold group_holds. rewrite Hs, Hs', !existsb_app. simpl.
    now rewrite holds_delete_other.
Qed.

Lemma StorageGroup_Remove_first_holder_witness :
  StorageGroup_Remove fullHeater "A" = (None, fullHeater)
  /\ exists so sg',
       StorageGroup_Remove fullHeater "B" = (Some so, sg')
       /\ removed_from fullHeater sg' "B" so
       /\ S (holding (Storages sg') "B") = holding (Storages fullHeater) "B"
       /\ (forall x, x <> "B"%string -> group_holds sg' x = group_holds fullHeater x).
Proof.
  split.
  - apply (proj1 (StorageGroup_Remove_first_holder fullHeater "A")). reflexivity.
  - apply (proj2 (StorageGroup_Remove_first_holder fullHeater "B")). reflexivity.
Defined.

(** ** Freshness over time *)

Lemma RemainingFreshness_fits (now : Z) (so : StoredOrder) :
  freshness_fits now so ->
  RemainingFreshness now so =
    (if String.eqb (Temperature (Order_ so)) TEMP_TYPE_ROOM
     then Freshness (Order_ so) else Z.quot (Freshness (Order_ so)) 2)
    - (now - PlacedAt so).
Proof.
  intros (HF & He & Hd & Hh).
  rewrite RemainingFreshness_exact by assumption.
  now destruct (String.eqb _ _).
Qed.

(** X6.  As long as the 64-bit arithmetic does not overflow, the remaining
    freshness of a stored order that is not touched falls by exactly the
    time that passes, whatever its temperature; it is strictly smaller at
    every later instant. *)
Theorem RemainingFreshness_falls_with_time (now later : Z) (so : StoredOrder) :
  freshness_fits now so ->
  freshness_fits later so ->
  RemainingFreshness later so = RemainingFreshness now so - (later - now)
  /\ (now < later -> RemainingFreshness later so < RemainingFreshness now so).
Proof.
  intros H1 H2.
  rewrite (RemainingFreshness_fits _ _ H1), (RemainingFreshness_fits _ _ H2).
  split; [lia | intros; lia].
Qed.

Lemma freshness_fits_sample (now : Z) (order : Order) :
  (0 <=? Freshness order) && (Freshness order <=? 1000 * second)
  && (0 <=? now) && (now <=? 1000 * second) = true ->
  freshness_fits now {| Order_ := order; PlacedAt := 0 |}.
Proof.
  intros H. repeat (apply andb_prop in H; destruct H as [H ?]).
  apply Z.leb_le in H, H0, H1, H2.
  unfold freshness_fits, Duration.fits, Duration.min_int64, Duration.max_int64,
    second in *. simpl.
  assert (0 <= Z.quot (Freshness order) 2 <= Freshness order)
    by (Z.to_euclidean_division_equations; lia).
  lia.
Qed.

Lemma RemainingFreshness_falls_with_time_witness :
  RemainingFreshness (3 * second) {| Order_ := hotA; PlacedAt := 0 |}
  = RemainingFreshness second {| Order_ := hotA; PlacedAt := 0 |}
    - (3 * second - second)
  /\ (second < 3 * second ->
      RemainingFreshness (3 * second) {| Order_ := hotA; PlacedAt := 0 |}
      < RemainingFreshness second {| Order_ := hotA; PlacedAt := 0 |}).
Proof.
  apply (RemainingFreshness_falls_with_time second (3 * second)
           {| Order_ := hotA; PlacedAt := 0 |});
    apply freshness_fits_sample; reflexivity.
Defined.





(** ** Atomic moves: what is carried over, what never moves *)

(** X8.  A successful atomic move takes the order out of the source and files
    it, under the same id, in a destination unit; the record that arrives has
    the id, the name, the temperature and the initial freshness of the one
    that left, and a room-temperature order arrives unchanged in every
    field. *)
Theorem atomicMoveOrder_carries_order (now : Z) (orderID : string)
  (source source' : Storage) (destination destination' : StorageGroup)
  (order : StoredOrder) :
  GetOrder source orderID = Some order ->
  atomicMoveOrder now orderID source destination = (true, source', destination') ->
  GetOrder source' orderID = None
  /\ exists d moved,
      In d (Storages destination')
      /\ GetOrder d orderID = Some moved
      /\ ID (Order_ moved) = ID (Order_ order)
      /\ Name (Order_ moved) = Name (Order_ order)
      /\ Temperature (Order_ moved) = Temperature (Order_ order)
      /\ InitialFreshness (Order_ moved) = InitialFreshness (Order_ order)
      /\ (Temperature (Order_ order) = TEMP_TYPE_ROOM -> moved = order).
Proof.
  intros Hget E.
  destruct (atomicMoveOrder_cases now orderID source destination)
    as [[Habs _] | [(o & _ & _ & _ & E') | (o & moved & Hget' & Hord & E')]].
  - congruence.
  - rewrite E' in E. discriminate.
  - rewrite Hget in Hget'. injection Hget' as <-. simpl in E'.
    destruct (putInFirstWithRoom (Storages destination) orderID moved)
      as [units |] eqn:Eput; rewrite E' in E; [| discriminate].
    injection E as <- <-.
    split; [unfold GetOrder; simpl; apply get_delete_same |].
    apply putInFirstWithRoom_Some in Eput.
    destruct Eput as (before & d & after & _ & -> & _ & _).
    exists (with_Orders d (GoMap.set orderID moved (Orders d))), moved.
    split; [simpl; apply in_or_app; right; now left |].
    split; [unfold GetOrder; simpl; apply get_set_same |].
    destruct Hord as [[Hroom ->] | [Hne Href]]; [repeat split; auto |].
    unfold refreshOrder in Href. destruct (_ <=? 0); [discriminate |].
    injection Href as <-. simpl. repeat split; auto. intros C. contradiction.
Qed.

Lemma atomicMoveOrder_carries_order_witness :
  GetOrder (snd (fst (atomicMoveOrder second "A" shelfWithA emptyHeater))) "A" = None
  /\ exists d moved,
      In d (Storages (snd (atomicMoveOrder second "A" shelfWithA emptyHeater)))
      /\ GetOrder d "A" = Some moved
      /\ ID (Order_ moved) = ID hotA
      /\ Name (Order_ moved) = Name hotA
      /\ Temperature (Order_ moved) = Temperature hotA
      /\ InitialFreshness (Order_ moved) = InitialFreshness hotA
      /\ (Temperature hotA = TEMP_TYPE_ROOM
          -> moved = {| Order_ := hotA; PlacedAt := 0 |}).
Proof.
  apply (atomicMoveOrder_carries_order second "A" shelfWithA _ emptyHeater _
           {| Order_ := hotA; PlacedAt := 0 |}).
  - reflexivity.
  - vm_compute. reflexivity.
Defined.

Lemma expired_refreshOrder (now : Z) (so : StoredOrder) :
  expired now so -> refreshOrder now so = None.
Proof.
  intros (He & H2 & Hr & Hle).
  rewrite refreshOrder_exact by assumption.
  destruct (Z.leb_spec (InitialFreshness (Order_ so) - 2 * (now - PlacedAt so)) 0);
    [reflexivity | lia].
Qed.

Lemma alist_functional (m : GoMap.t StoredOrder) (k : string) (a b : StoredOrder) :
  NoDup (GoMap.keys m) -> In (k, a) m -> In (k, b) m -> a = b.
Proof.
  induction m as [| [k' v'] rest IH]; simpl; [tauto |].
  intros N Ha Hb. inversion N as [| ? ? Hnot Nrest]; subst.
  assert (Hkey : forall v, In (k, v) rest -> In k (GoMap.keys rest)).
  { intros v Hv. unfold GoMap.keys. apply in_map_iff. now exists (k, v). }
  destruct Ha as [Ha | Ha]; destruct Hb as [Hb | Hb].
  - congruence.
  - inversion Ha; subst. exfalso. apply Hnot. eapply Hkey; eauto.
  - inversion Hb; subst. exfalso. apply Hnot. eapply Hkey; eauto.
  - now apply IH.
Qed.

Lemma cell_unique (units : list Storage) (s s0 : Storage) (k : string)
  (a b : StoredOrder) :
  NoDup (units_ids units) ->
  In s units -> In s0 units ->
  In (k, a) (Orders s) -> In (k, b) (Orders s0) -> a = b.
Proof.
  assert (Hkey : forall u v, In (k, v) (Orders u) -> In k (unit_ids u)).
  { intros u v Hv. unfold unit_ids, GoMap.keys. apply in_map_iff. now exists (k, v). }
  assert (Hunits : forall l u v, In u l -> In (k, v) (Orders u) -> In k (units_ids l)).
  { intros l u v Hu Hv. unfold units_ids. apply in_flat_map. exists u.
    split; [exact Hu | eapply Hkey; eauto]. }
  induction units as [| u rest IH]; [intros _ [] |].
  rewrite units_ids_cons. intros N Hs Hs0 Ha Hb.
  pose proof (NoDup_app_remove_r _ _ N) as Nu.
  pose proof (NoDup_app_remove_l _ _ N) as Nrest.
  assert (Hdisj : In k (unit_ids u) -> In k (units_ids rest) -> False).
  { intros H1 H2. revert N H1 H2. generalize (unit_ids u) (units_ids rest).
    intros l1 l2 N H1 H2. induction l1 as [| x l1 IHl]; [destruct H1 |].
    simpl in N. inversion N as [| ? ? Hnot N']; subst.
    destruct H1 as [-> | H1]; [apply Hnot, in_or_app; now right | auto]. }
  destruct Hs as [<- | Hs]; destruct Hs0 as [<- | Hs0].
  - eapply alist_functional; eauto.
  - exfalso. apply Hdisj; [eapply Hkey; eauto | eapply Hunits; eauto].
  - exfalso. apply Hdisj; [eapply Hkey; eauto | eapply Hunits; eauto].
  - now apply IH.
Qed.

(** In a group that files every cell under its order's id and holds no id
    twice, looking up the id of a listed order in any unit finds that very
    order or nothing. *)
Lemma lookup_of_listed (units : list Storage) (so : StoredOrder) (s : Storage) :
  Forall keyed units ->
  NoDup (units_ids units) ->
  In so (flat_map Storage_ListOrders units) ->
  In s units ->
  GetOrder s (ID (Order_ so)) = None \/ GetOrder s (ID (Order_ so)) = Some so.
Proof.
  intros K N Hso Hs.
  destruct (GetOrder s (ID (Order_ so))) as [o |] eqn:E; [right | now left].
  apply in_flat_map in Hso. destruct Hso as (s0 & Hs0 & Hin).
  unfold Storage_ListOrders, GoMap.values in Hin.
  apply in_map_iff in Hin. destruct Hin as ([k v] & Ev & Hkv). simpl in Ev. subst v.
  rewrite Forall_forall in K. pose proof (K s0 Hs0) as K0. unfold keyed in K0.
  rewrite Forall_forall in K0. specialize (K0 _ Hkv). simpl in K0. subst k.
  unfold GetOrder in E. apply get_Some_In in E.
  f_equal. exact (cell_unique units s s0 _ o so N Hs Hs0 E Hkv).
Qed.

Lemma moveFromShelves_refused (now : Z) (orderID : string) (shelves : list Storage)
  (destination : StorageGroup) :
  (forall s, In s shelves ->
     match GetOrder s orderID with
     | None => True
     | Some o => Temperature (Order_ o) <> TEMP_TYPE_ROOM /\ refreshOrder now o = None
     end) ->
  moveFromShelves now orderID shelves destination = (false, shelves, destination).
Proof.
  induction shelves as [| shelf rest IH]; intros H; cbn [moveFromShelves];
    [reflexivity |].
  assert (E : atomicMoveOrder now orderID shelf destination
              = (false, shelf, destination)).
  { specialize (H shelf (or_introl eq_refl)).
    unfold atomicMoveOrder. unfold GetOrder in H.
    destruct (GoMap.get orderID (Orders shelf)) as [o |]; [| reflexivity].
    destruct H as [Hne Href]. apply String.eqb_neq in Hne. rewrite Hne. simpl.
    now rewrite Href. }
  rewrite E, IH; [reflexivity |]. intros s Hs. apply H. now right.
Qed.

Lemma with_groups_same (fs : FulfillmentSystem) (g : IdealGroup) :
  with_idealGroup (with_ShelfGroup fs (mkGroup (Storages (ShelfGroup fs)))) g
    (idealGroup fs g) = fs.
Proof. destruct fs as [c h [sh] a], g; reflexivity. Qed.

Lemma listed_refused (now : Z) (fs : FulfillmentSystem) (so : StoredOrder) :
  Forall keyed (Storages (ShelfGroup fs)) ->
  NoDup (units_ids (Storages (ShelfGroup fs))) ->
  In so (StorageGroup_ListOrders (ShelfGroup fs)) ->
  Temperature (Order_ so) <> TEMP_TYPE_ROOM ->
  expired now so ->
  forall destination,
    moveFromShelves now (ID (Order_ so)) (Storages (ShelfGroup fs)) destination
    = (false, Storages (ShelfGroup fs), destination).
Proof.
  intros K N Hin Hne Hex destination. apply moveFromShelves_refused.
  intros s Hs.
  destruct (lookup_of_listed _ _ _ K N Hin Hs) as [-> | ->]; [exact I |].
  split; [exact Hne | now apply expired_refreshOrder].
Qed.

(** X9.  Expired orders stay where they are.  On a shelf group that files its
    cells under the order ids and holds no id twice, if every order that is
    not room temperature has expired at the instant [now], then a move
    attempt for any temperature class fails and a reallocation tick ends,
    both leaving the whole system exactly as it was: no unit, no stored
    freshness, no placement instant and no log entry changes. *)
Theorem expired_orders_stay (now : Z) (fs : FulfillmentSystem) :
  Forall keyed (Storages (ShelfGroup fs)) ->
  NoDup (units_ids (Storages (ShelfGroup fs))) ->
  (forall so, In so (StorageGroup_ListOrders (ShelfGroup fs)) ->
              Temperature (Order_ so) <> TEMP_TYPE_ROOM -> expired now so) ->
  (forall temp, tryMoveFromShelfGroup now fs temp = (false, fs))
  /\ reallocateTick now fs = fs.
Proof.
  intros K N Hex. split.
  - intros temp. unfold tryMoveFromShelfGroup.
    destruct (String.eqb_spec temp TEMP_TYPE_HOT) as [Ehot | Nhot].
    + assert (E : tryMoveOrders now temp (StorageGroup_ListOrders (ShelfGroup fs))
                    (Storages (ShelfGroup fs)) (idealGroup fs ToHeater)
                  = (None, Storages (ShelfGroup fs), idealGroup fs ToHeater)).
      { pose proof (fun so H => conj H (Hex so H)) as Hall.
        revert Hall. generalize (StorageGroup_ListOrders (ShelfGroup fs)) at 1 3.
        intros orders. induction orders as [| so rest IH]; intros Hall;
          cbn [tryMoveOrders]; [reflexivity |].
        destruct (String.eqb_spec (Temperature (Order_ so)) temp) as [Et | Nt].
        - destruct (Hall so (or_introl eq_refl)) as [Hin Hso].
          rewrite (listed_refused now fs so K N Hin); [| rewrite Et, Ehot; discriminate
                                                       | apply Hso; rewrite Et, Ehot; discriminate].
          apply IH. intros so' H'. apply Hall. now right.
        - apply IH. intros so' H'. apply Hall. now right. }
      rewrite E. now rewrite with_groups_same.
    + destruct (String.eqb_spec temp TEMP_TYPE_COLD) as [Ecold | Ncold];
        [| reflexivity].
      assert (E : tryMoveOrders now temp (StorageGroup_ListOrders (ShelfGroup fs))
                    (Storages (ShelfGroup fs)) (idealGroup fs ToCooler)
                  = (None, Storages (ShelfGroup fs), idealGroup fs ToCooler)).
      { pose proof (fun so H => conj H (Hex so H)) as Hall.
        revert Hall. generalize (StorageGroup_ListOrders (ShelfGroup fs)) at 1 3.
        intros orders. induction orders as [| so rest IH]; intros Hall;
          cbn [tryMoveOrders]; [reflexivity |].
        destruct (String.eqb_spec (Temperature (Order_ so)) temp) as [Et | Nt].
        - destruct (Hall so (or_introl eq_refl)) as [Hin Hso].
          rewrite (listed_refused now fs so K N Hin); [| rewrite Et, Ecold; discriminate
                                                       | apply Hso; rewrite Et, Ecold; discriminate].
          apply IH. intros so' H'. apply Hall. now right.
        - apply IH. intros so' H'. apply Hall. now right. }
      rewrite E. now rewrite with_groups_same.
  - unfold reallocateTick. destruct (negb _); [reflexivity |].
    pose proof (fun so H => conj H (Hex so H)) as Hall.
    revert Hall. generalize (StorageGroup_ListOrders (ShelfGroup fs)) at 1 3.
    intros orders. induction orders as [| so rest IH]; intros Hall;
      cbn [reallocateLoop]; [reflexivity |].
    assert (Hrest : forall so', In so' rest ->
              In so' (StorageGroup_ListOrders (ShelfGroup fs)) /\
              (Temperature (Order_ so') <> TEMP_TYPE_ROOM -> expired now so'))
      by (intros so' H'; apply Hall; now right).
    destruct (Hall so (or_introl eq_refl)) as [Hin Hso].
    assert (Hmove : forall g, Temperature (Order_ so) <> TEMP_TYPE_ROOM ->
                              moveToIdeal now fs (ID (Order_ so)) g = fs).
    { intros g Hne. unfold moveToIdeal.
      rewrite (listed_refused now fs so K N Hin Hne (Hso Hne)).
      apply with_groups_same. }
    destruct (String.eqb_spec (Temperature (Order_ so)) TEMP_TYPE_HOT) as [Ehot | Nhot].
    + destruct (negb (StorageGroup_IsFull (HeaterGroup fs))); simpl.
      * rewrite Hmove by (rewrite Ehot; discriminate). now apply IH.
      * destruct (String.eqb_spec (Temperature (Order_ so)) TEMP_TYPE_COLD);
          simpl; [| now apply IH].
        destruct (negb (StorageGroup_IsFull (CoolerGroup fs)));
          [| now apply IH].
        rewrite Hmove by (rewrite Ehot; discriminate). now apply IH.
    + simpl.
      destruct (String.eqb_spec (Temperature (Order_ so)) TEMP_TYPE_COLD)
        as [Ecold | Ncold]; simpl; [| now apply IH].
      destruct (negb (StorageGroup_IsFull (CoolerGroup fs))); [| now apply IH].
      rewrite Hmove by (rewrite Ecold; discriminate). now apply IH.
Qed.

Lemma expired_orders_stay_witness :
  (forall temp,
     tryMoveFromShelfGroup (50 * second)
       (run expiredRun (NewFulfillmentSystem smallConfig)) temp
     = (false, run expiredRun (NewFulfillmentSystem smallConfig)))
  /\ reallocateTick (50 * second) (run expiredRun (NewFulfillmentSystem smallConfig))
     = run expiredRun (NewFulfillmentSystem smallConfig).
Proof.
  apply (expired_orders_stay (50 * second)
           (run expiredRun (NewFulfillmentSystem smallConfig))).
  - let l := eval vm_compute in (Storages (ShelfGroup (run expiredRun (NewFulfillmentSystem smallConfig)))) in
    change (Storages (ShelfGroup (run expiredRun (NewFulfillmentSystem smallConfig)))) with l.
    repeat (apply Forall_cons || apply Forall_nil); reflexivity.
  - let l := eval vm_compute in (units_ids (Storages (ShelfGroup (run expiredRun (NewFulfillmentSystem smallConfig))))) in
    change (units_ids (Storages (ShelfGroup (run expiredRun (NewFulfillmentSystem smallConfig))))) with l.
    repeat (apply NoDup_cons || apply NoDup_nil); simpl; intuition discriminate.
  - let l := eval vm_compute in (StorageGroup_ListOrders (ShelfGroup (run expiredRun (NewFulfillmentSystem smallConfig)))) in
    change (StorageGroup_ListOrders (ShelfGroup (run expiredRun (NewFulfillmentSystem smallConfig)))) with l.
    intros so [<- | [<- | []]] _; unfold expired; cbn; repeat split; discriminate.
Defined.

(* ------------------------------------------------------------------ *)
(** ** The action log *)

Lemma appends_same (now : Z) (kinds : list string) (fs fs' : FulfillmentSystem) :
  Actions fs' = Actions fs -> appends now kinds fs fs'.
Proof. intros E. exists []. rewrite E, app_nil_r. split; [reflexivity | constructor]. Qed.

Lemma appends_trans (now : Z) (kinds : list string) (fs1 fs2 fs3 : FulfillmentSystem) :
  appends now kinds fs1 fs2 -> appends now kinds fs2 fs3 -> appends now kinds fs1 fs3.
Proof.
  intros (n1 & E1 & F1) (n2 & E2 & F2). exists (n1 ++ n2).
  rewrite E2, E1, app_assoc. split; [reflexivity | now apply Forall_app].
Qed.

Lemma appends_incl (now : Z) (kinds kinds' : list string) (fs fs' : FulfillmentSystem) :
  incl kinds kinds' -> appends now kinds fs fs' -> appends now kinds' fs fs'.
Proof.
  intros Hincl (new & E & F). exists new. split; [exact E |].
  eapply Forall_impl; [| exact F]. intros a [Ht Hk]. split; [exact Ht | now apply Hincl].
Qed.

Lemma appends_one (now : Z) (kinds : list string) (fs fs' : FulfillmentSystem)
  (orderID kind : string) :
  Actions fs' = Actions fs ++ [mkAction (UnixMicro now) orderID kind] ->
  In kind kinds -> appends now kinds fs fs'.
Proof.
  intros E Hk. exists [mkAction (UnixMicro now) orderID kind].
  split; [exact E |]. constructor; [| constructor]. now split.
Qed.

Lemma appends_logAction (now : Z) (kinds : list string) (fs : FulfillmentSystem)
  (orderID kind : string) :
  In kind kinds -> appends now kinds fs (logAction fs orderID kind now).
Proof. intros Hk. eapply appends_one; [reflexivity | exact Hk]. Qed.

Lemma tryMoveFromShelfGroup_appends (now : Z) (fs : FulfillmentSystem) (temp : string) :
  appends now [ACTION_TYPE_MOVE] fs (snd (tryMoveFromShelfGroup now fs temp)).
Proof.
  destruct (tryMoveFromShelfGroup now fs temp) as [moved fs'] eqn:E.
  pose proof (tryMoveFromShelfGroup_spec now fs fs' temp moved E) as H.
  destruct moved; simpl.
  - destruct H as (so & g & _ & _ & _ & _ & Hlog & _).
    eapply appends_one; [exact Hlog | now left].
  - destruct H as (Hlog & _). now apply appends_same.
Qed.

Lemma moveToIdeal_appends (now : Z) (fs : FulfillmentSystem) (orderID : string)
  (g : IdealGroup) :
  appends now [ACTION_TYPE_MOVE] fs (moveToIdeal now fs orderID g).
Proof.
  destruct (moveToIdeal_spec now fs orderID g) as [(Hlog & _) | (Hlog & _)].
  - now apply appends_same.
  - eapply appends_one; [exact Hlog | now left].
Qed.

Lemma reallocateLoop_appends (now : Z) (shelfOrders : list StoredOrder)
  (fs : FulfillmentSystem) :
  appends now [ACTION_TYPE_MOVE] fs (reallocateLoop now shelfOrders fs).
Proof.
  revert fs. induction shelfOrders as [| so rest IH]; intros fs; cbn [reallocateLoop].
  - now apply appends_same.
  - eapply appends_trans; [| apply IH].
    destruct (_ && _); [apply moveToIdeal_appends |].
    destruct (_ && _); [apply moveToIdeal_appends | now apply appends_same].
Qed.

Lemma reallocateTick_appends (now : Z) (fs : FulfillmentSystem) :
  appends now [ACTION_TYPE_MOVE] fs (reallocateTick now fs).
Proof.
  unfold reallocateTick. destruct (negb _);
    [now apply appends_same | apply reallocateLoop_appends].
Qed.

Lemma discardOrderFromShelfGroup_appends (now : Z) (fs : FulfillmentSystem) :
  appends now [ACTION_TYPE_MOVE; ACTION_TYPE_DISCARD] fs
    (discardOrderFromShelfGroup now fs).
Proof.
  unfold discardOrderFromShelfGroup.
  destruct (GetLeastFreshOrder now (ShelfGroup fs)) as [candidate |];
    [| now apply appends_same].
  pose proof (tryMoveFromShelfGroup_appends now fs (Temperature (Order_ candidate)))
    as Hmove.
  apply (appends_incl _ _ [ACTION_TYPE_MOVE; ACTION_TYPE_DISCARD]) in Hmove;
    [| intros k [<- | []]; now left].
  destruct (tryMoveFromShelfGroup now fs (Temperature (Order_ candidate)))
    as [moved fs1]. simpl in Hmove.
  destruct moved; [exact Hmove |].
  eapply appends_trans; [exact Hmove |].
  destruct (StorageGroup_Remove (ShelfGroup fs1) (ID (Order_ candidate)))
    as [[removed |] shelf'].
  - eapply appends_one; [reflexivity | right; now left].
  - now apply appends_same.
Qed.

Lemma placeOnShelf_appends (now : Z) (fs fs' : FulfillmentSystem)
  (storedOrder : StoredOrder) :
  placeOnShelf now fs storedOrder = Some fs' ->
  appends now [ACTION_TYPE_PLACE] fs fs'.
Proof.
  unfold placeOnShelf.
  destruct (StorageGroup_Add (ShelfGroup fs) storedOrder) as [[|] shelf'];
    [| discriminate].
  intros [= <-]. eapply appends_one; [reflexivity | now left].
Qed.

Lemma discardThenPlace_appends (now : Z) (fs : FulfillmentSystem)
  (storedOrder : StoredOrder) :
  appends now [ACTION_TYPE_MOVE; ACTION_TYPE_DISCARD; ACTION_TYPE_PLACE] fs
    (discardThenPlace now fs storedOrder).
Proof.
  unfold discardThenPlace.
  set (fs1 := if StorageGroup_IsFull (ShelfGroup fs)
              then discardOrderFromShelfGroup now fs else fs).
  assert (H1 : appends now [ACTION_TYPE_MOVE; ACTION_TYPE_DISCARD; ACTION_TYPE_PLACE]
                 fs fs1).
  { subst fs1. destruct (StorageGroup_IsFull (ShelfGroup fs));
      [| now apply appends_same].
    eapply appends_incl; [| apply discardOrderFromShelfGroup_appends].
    intros k [<- | [<- | []]]; simpl; auto. }
  destruct (placeOnShelf now fs1 storedOrder) as [fs2 |] eqn:E; [| exact H1].
  eapply appends_trans; [exact H1 |].
  eapply appends_incl; [| eapply placeOnShelf_appends; exact E].
  intros k [<- | []]; simpl; auto.
Qed.

Lemma PlaceOrder_appends (now : Z) (fs : FulfillmentSystem) (order : Order) :
  appends now [ACTION_TYPE_MOVE; ACTION_TYPE_DISCARD; ACTION_TYPE_PLACE] fs
    (PlaceOrder now fs order).
Proof.
  assert (Hshelf : forall fs0 fs', placeOnShelf now fs0 {| Order_ := order; PlacedAt := now |}
                                   = Some fs' ->
            appends now [ACTION_TYPE_MOVE; ACTION_TYPE_DISCARD; ACTION_TYPE_PLACE] fs0 fs').
  { intros fs0 fs' E. eapply appends_incl; [| eapply placeOnShelf_appends; exact E].
    intros k [<- | []]; simpl; auto. }
  unfold PlaceOrder.
  destruct (_ || _).
  - destruct (StorageGroup_Add _ _) as [[|] ideal'].
    + eapply appends_one; [| right; right; now left].
      destruct (String.eqb (Temperature order) TEMP_TYPE_HOT); reflexivity.
    + destruct (placeOnShelf now fs _) as [fs1 |] eqn:E1; [now apply Hshelf |].
      destruct (StorageGroup_IsFull (ShelfGroup fs)).
      * pose proof (tryMoveFromShelfGroup_appends now fs (Temperature order)) as Hmove.
        apply (appends_incl _ _ [ACTION_TYPE_MOVE; ACTION_TYPE_DISCARD; ACTION_TYPE_PLACE])
          in Hmove; [| intros k [<- | []]; now left].
        destruct (tryMoveFromShelfGroup now fs (Temperature order)) as [moved fs1].
        simpl in Hmove.
        destruct moved.
        -- destruct (placeOnShelf now fs1 _) as [fs2 |] eqn:E2.
           ++ eapply appends_trans; [exact Hmove | now apply Hshelf].
           ++ eapply appends_trans; [exact Hmove | apply discardThenPlace_appends].
        -- eapply appends_trans; [exact Hmove | apply discardThenPlace_appends].
      * apply discardThenPlace_appends.
  - destruct (placeOnShelf now fs _) as [fs1 |] eqn:E1; [now apply Hshelf |].
    apply discardThenPlace_appends.
Qed.

Lemma PickupOrder_appends (now : Z) (fs : FulfillmentSystem) (orderID : string) :
  appends now [ACTION_TYPE_PICKUP] fs (PickupOrder now fs orderID).
Proof.
  unfold PickupOrder.
  destruct (StorageGroup_Remove (HeaterGroup fs) orderID) as [[so |] heater'];
    [eapply appends_one; [reflexivity | now left] |].
  destruct (StorageGroup_Remove (CoolerGroup fs) orderID) as [[so |] cooler'];
    [eapply appends_one; [reflexivity | now left] |].
  destruct (StorageGroup_Remove (ShelfGroup fs) orderID) as [[so |] shelf'];
    [eapply appends_one; [reflexivity | now left] | now apply appends_same].
Qed.

Lemma step_appends (now : Z) (op : Op) (fs : FulfillmentSystem) :
  appends now (actionKinds op) fs (step now op fs).
Proof.
  destruct op as [order | orderID | | orderID g | temp | | g n i]; cbn [step actionKinds].
  - apply PlaceOrder_appends.
  - apply PickupOrder_appends.
  - apply reallocateTick_appends.
  - apply moveToIdeal_appends.
  - apply tryMoveFromShelfGroup_appends.
  - apply discardOrderFromShelfGroup_appends.
  - apply appends_same. now destruct g.
Qed.

(** X10.  The action log is append-only and every entry carries the clock
    reading and a type of the operation that wrote it: whatever operation
    the engine executes at the instant [now], the log afterwards is the log
    before followed by new entries, each stamped with [now] in microseconds
    and of a type that operation can record (a placement: move, discard or
    place; a pickup: pickup; a tick, a move or a move attempt: move; a
    discard: move or discard; a change of enumeration order: nothing). *)
Theorem step_appends_to_log (now : Z) (op : Op) (fs : FulfillmentSystem) :
  exists new,
    Actions (step now op fs) = Actions fs ++ new
    /\ Forall (fun a => Timestamp a = UnixMicro now /\ In (Action_ a) (actionKinds op))
         new.
Proof. exact (step_appends now op fs). Qed.

Lemma UnixMicro_monotone (t t' : Z) :
  Duration.fits (t / 1000) -> Duration.fits (t' / 1000) -> t <= t' ->
  UnixMicro t <= UnixMicro t'.
Proof.
  intros F F' Hle. unfold UnixMicro. rewrite !wrap_fits by assumption.
  apply Z.div_le_mono; lia.
Qed.

Lemma sorted_app_stamped (l new : list Z) (b : Z) :
  StronglySorted Z.le l ->
  Forall (fun x => x <= b) l ->
  Forall (fun x => x = b) new ->
  StronglySorted Z.le (l ++ new).
Proof.
  intros S B N. induction S as [| x l S IH Hx]; simpl.
  - induction N as [| y new -> N IHN]; constructor; [exact IHN |].
    eapply Forall_impl; [| exact N]. intros z ->. lia.
  - inversion B as [| ? ? Hb Bl]; subst.
    constructor; [now apply IH |].
    apply Forall_app. split; [exact Hx |].
    eapply Forall_impl; [| exact N]. intros z ->. exact Hb.
Qed.

Lemma run_log_sorted (trace : list (Z * Op)) (fs : FulfillmentSystem) :
  StronglySorted Z.le (map fst trace) ->
  Forall (fun e => Duration.fits (fst e / 1000)) trace ->
  StronglySorted Z.le (map Timestamp (Actions fs)) ->
  Forall (fun e => Forall (fun a => Timestamp a <= UnixMicro (fst e)) (Actions fs)) trace ->
  StronglySorted Z.le (map Timestamp (Actions (run trace fs))).
Proof.
  revert fs. induction trace as [| [now op] rest IH]; intros fs S F L B;
    cbn [run]; [exact L |].
  simpl in S. inversion S as [| ? ? Srest Hnow]; subst.
  inversion F as [| ? ? Fnow Frest]; subst. simpl in Fnow.
  inversion B as [| ? ? Bnow Brest]; subst. simpl in Bnow.
  destruct (step_appends now op fs) as (new & E & Hnew).
  apply IH; [exact Srest | exact Frest | |].
  - rewrite E, map_app.
    apply (sorted_app_stamped _ _ (UnixMicro now)); [exact L | |].
    + apply Forall_map. exact Bnow.
    + apply Forall_map. eapply Forall_impl; [| exact Hnew]. now intros a [Ht _].
  - rewrite Forall_forall. intros e He.
    assert (Hle : UnixMicro now <= UnixMicro (fst e)).
    { apply UnixMicro_monotone; [exact Fnow | |].
      - rewrite Forall_forall in Frest. now apply Frest.
      - rewrite Forall_forall in Hnow. apply Hnow. now apply in_map. }
    rewrite E. apply Forall_app. split.
    + rewrite Forall_forall in Brest. specialize (Brest e He).
      exact Brest.
    + eapply Forall_impl; [| exact Hnew]. intros a [-> _]. exact Hle.
Qed.

(** X11.  The log is chronological.  When the operations of a run execute at
    non-decreasing instants (whose microsecond counts fit an int64), the
    time stamps of the action log of the engine started empty are in
    non-decreasing order, whatever the operations are. *)
Theorem run_log_chronological (cfg : FulfillmentConfig) (trace : list (Z * Op)) :
  StronglySorted Z.le (map fst trace) ->
  Forall (fun e => Duration.fits (fst e / 1000)) trace ->
  StronglySorted Z.le
    (map Timestamp (Actions (run trace (NewFulfillmentSystem cfg)))).
Proof.
  intros S F. apply run_log_sorted; [exact S | exact F | constructor |].
  rewrite Forall_forall. intros e _. constructor.
Qed.

Lemma run_log_chronological_witness :
  StronglySorted Z.le
    (map Timestamp (Actions (run overflowRun (NewFulfillmentSystem smallConfig)))).
Proof.
  apply (run_log_chronological smallConfig overflowRun).
  - unfold overflowRun, second. simpl.
    repeat (apply SSorted_cons || apply SSorted_nil || apply Forall_cons
            || apply Forall_nil); lia.
  - unfold overflowRun, second. simpl.
    repeat (apply Forall_cons || apply Forall_nil); vm_compute; split; discriminate.
Defined.

(* ------------------------------------------------------------------ *)
(** ** Orders in the heater and cooler groups *)

Lemma keeps_ideal_same (x : string) (fs fs' : FulfillmentSystem) :
  HeaterGroup fs' = HeaterGroup fs -> CoolerGroup fs' = CoolerGroup fs ->
  keeps_ideal x fs fs'.
Proof. intros Eh Ec [|]; unfold ideal_ids; simpl; now rewrite ?Eh, ?Ec. Qed.

Lemma keeps_ideal_trans (x : string) (fs1 fs2 fs3 : FulfillmentSystem) :
  keeps_ideal x fs1 fs2 -> keeps_ideal x fs2 fs3 -> keeps_ideal x fs1 fs3.
Proof. intros H12 H23 g H. apply H23, H12, H. Qed.

Lemma keeps_ideal_with (x : string) (fs : FulfillmentSystem) (g : IdealGroup)
  (shelf destination : StorageGroup) :
  (In x (units_ids (Storages (idealGroup fs g))) ->
   In x (units_ids (Storages destination))) ->
  keeps_ideal x fs (with_idealGroup (with_ShelfGroup fs shelf) g destination).
Proof. intros H g'. unfold ideal_ids. destruct g, g'; simpl; auto. Qed.

Lemma keeps_ideal_logAction (x : string) (fs fs' : FulfillmentSystem)
  (orderID kind : string) (now : Z) :
  keeps_ideal x fs fs' -> keeps_ideal x fs (logAction fs' orderID kind now).
Proof. intros H g. specialize (H g). now destruct g. Qed.

Lemma StorageGroup_Add_keeps (sg sg' : StorageGroup) (order : StoredOrder)
  (ok : bool) (x : string) :
  StorageGroup_Add sg order = (ok, sg') ->
  In x (units_ids (Storages sg)) -> In x (units_ids (Storages sg')).
Proof.
  unfold StorageGroup_Add.
  destruct (addToUnits_spec (Storages sg) order)
    as [(_ & E) | (before & s & after & Eunits & _ & _ & E)]; rewrite E.
  - now intros [= _ <-].
  - intros [= _ <-]. simpl. rewrite Eunits, !units_ids_app, !units_ids_cons.
    rewrite !in_app_iff. unfold unit_ids at 2. simpl. rewrite in_keys_set.
    unfold unit_ids. tauto.
Qed.

Lemma StorageGroup_Remove_keeps_other (sg sg' : StorageGroup) (orderID x : string)
  (r : option StoredOrder) :
  StorageGroup_Remove sg orderID = (r, sg') ->
  x <> orderID ->
  In x (units_ids (Storages sg)) -> In x (units_ids (Storages sg')).
Proof.
  unfold StorageGroup_Remove.
  destruct (removeFromUnits_spec (Storages sg) orderID)
    as [(_ & E) | (before & s & after & so & Eunits & _ & _ & E)]; rewrite E.
  - now intros [= _ <-].
  - intros [= _ <-] Hne. simpl. rewrite Eunits, !units_ids_app, !units_ids_cons.
    rewrite !in_app_iff. unfold unit_ids at 2. simpl. rewrite in_keys_delete.
    unfold unit_ids. tauto.
Qed.

Lemma tryMoveFromShelfGroup_keeps_ideal (now : Z) (fs : FulfillmentSystem)
  (temp x : string) :
  keeps_ideal x fs (snd (tryMoveFromShelfGroup now fs temp)).
Proof.
  assert (Hg : forall g,
            keeps_ideal x fs
              (snd (let '(moved, shelves, destination) :=
                      tryMoveOrders now temp (StorageGroup_ListOrders (ShelfGroup fs))
                        (Storages (ShelfGroup fs)) (idealGroup fs g) in
                    let fs' := with_idealGroup (with_ShelfGroup fs (mkGroup shelves))
                                 g destination in
                    match moved with
                    | Some orderID => (true, logAction fs' orderID ACTION_TYPE_MOVE now)
                    | None => (false, fs')
                    end))).
  { intros g.
    destruct (tryMoveOrders now temp (StorageGroup_ListOrders (ShelfGroup fs))
                (Storages (ShelfGroup fs)) (idealGroup fs g))
      as [[moved shelves] destination] eqn:E.
    pose proof (tryMoveOrders_keeps _ _ _ _ _ _ _ _ x E) as [_ Hdest].
    destruct moved; simpl.
    - apply keeps_ideal_logAction. now apply keeps_ideal_with.
    - now apply keeps_ideal_with. }
  unfold tryMoveFromShelfGroup.
  destruct (String.eqb temp TEMP_TYPE_HOT); [apply Hg |].
  destruct (String.eqb temp TEMP_TYPE_COLD); [apply Hg |].
  now apply keeps_ideal_same.
Qed.

Lemma moveToIdeal_keeps_ideal (now : Z) (fs : FulfillmentSystem)
  (orderID : string) (g : IdealGroup) (x : string) :
  keeps_ideal x fs (moveToIdeal now fs orderID g).
Proof.
  unfold moveToIdeal.
  destruct (moveFromShelves now orderID (Storages (ShelfGroup fs)) (idealGroup fs g))
    as [[moved shelves] destination] eqn:E.
  pose proof (moveFromShelves_ids _ _ _ _ _ _ _ E) as (Hdest & _).
  destruct moved.
  - apply keeps_ideal_logAction. apply keeps_ideal_with. apply Hdest.
  - apply keeps_ideal_with. apply Hdest.
Qed.

Lemma reallocateTick_keeps_ideal (now : Z) (fs : FulfillmentSystem) (x : string) :
  keeps_ideal x fs (reallocateTick now fs).
Proof.
  unfold reallocateTick. destruct (negb _); [now apply keeps_ideal_same |].
  generalize (StorageGroup_ListOrders (ShelfGroup fs)). intros orders. revert fs.
  induction orders as [| so rest IH]; intros fs; cbn [reallocateLoop];
    [now apply keeps_ideal_same |].
  eapply keeps_ideal_trans; [| apply IH].
  destruct (_ && _); [apply moveToIdeal_keeps_ideal |].
  destruct (_ && _); [apply moveToIdeal_keeps_ideal | now apply keeps_ideal_same].
Qed.

Lemma discardOrderFromShelfGroup_keeps_ideal (now : Z) (fs : FulfillmentSystem)
  (x : string) :
  keeps_ideal x fs (discardOrderFromShelfGroup now fs).
Proof.
  unfold discardOrderFromShelfGroup.
  destruct (GetLeastFreshOrder now (ShelfGroup fs)) as [candidate |];
    [| now apply keeps_ideal_same].
  pose proof (tryMoveFromShelfGroup_keeps_ideal now fs
                (Temperature (Order_ candidate)) x) as Hmove.
  destruct (tryMoveFromShelfGroup now fs (Temperature (Order_ candidate)))
    as [moved fs1]. simpl in Hmove.
  destruct moved; [exact Hmove |].
  eapply keeps_ideal_trans; [exact Hmove |].
  destruct (StorageGroup_Remove (ShelfGroup fs1) (ID (Order_ candidate)))
    as [[removed |] shelf']; now apply keeps_ideal_same.
Qed.

Lemma placeOnShelf_keeps_ideal (now : Z) (fs fs' : FulfillmentSystem)
  (storedOrder : StoredOrder) (x : string) :
  placeOnShelf now fs storedOrder = Some fs' -> keeps_ideal x fs fs'.
Proof.
  unfold placeOnShelf.
  destruct (StorageGroup_Add (ShelfGroup fs) storedOrder) as [[|] shelf'];
    [| discriminate].
  intros [= <-]. now apply keeps_ideal_same.
Qed.

Lemma discardThenPlace_keeps_ideal (now : Z) (fs : FulfillmentSystem)
  (storedOrder : StoredOrder) (x : string) :
  keeps_ideal x fs (discardThenPlace now fs storedOrder).
Proof.
  unfold discardThenPlace.
  set (fs1 := if StorageGroup_IsFull (ShelfGroup fs)
              then discardOrderFromShelfGroup now fs else fs).
  assert (H1 : keeps_ideal x fs fs1).
  { subst fs1. destruct (StorageGroup_IsFull (ShelfGroup fs));
      [apply discardOrderFromShelfGroup_keeps_ideal | now apply keeps_ideal_same]. }
  destruct (placeOnShelf now fs1 storedOrder) as [fs2 |] eqn:E; [| exact H1].
  eapply keeps_ideal_trans; [exact H1 | eapply placeOnShelf_keeps_ideal; exact E].
Qed.

Lemma PlaceOrder_keeps_ideal (now : Z) (fs : FulfillmentSystem) (order : Order)
  (x : string) :
  keeps_ideal x fs (PlaceOrder now fs order).
Proof.
  unfold PlaceOrder.
  destruct (_ || _).
  - set (g := if String.eqb (Temperature order) TEMP_TYPE_HOT
              then ToHeater else ToCooler).
    destruct (StorageGroup_Add (idealGroup fs g) _) as [[|] ideal'] eqn:Eadd.
    + apply keeps_ideal_logAction.
      intros g'. unfold ideal_ids.
      pose proof (StorageGroup_Add_keeps _ _ _ _ x Eadd) as Hk.
      destruct g, g'; simpl in *; auto.
    + destruct (placeOnShelf now fs _) as [fs1 |] eqn:E1;
        [eapply placeOnShelf_keeps_ideal; exact E1 |].
      destruct (StorageGroup_IsFull (ShelfGroup fs)).
      * pose proof (tryMoveFromShelfGroup_keeps_ideal now fs (Temperature order) x)
          as Hmove.
        destruct (tryMoveFromShelfGroup now fs (Temperature order)) as [moved fs1].
        simpl in Hmove.
        destruct moved.
        -- destruct (placeOnShelf now fs1 _) as [fs2 |] eqn:E2.
           ++ eapply keeps_ideal_trans;
                [exact Hmove | eapply placeOnShelf_keeps_ideal; exact E2].
           ++ eapply keeps_ideal_trans;
                [exact Hmove | apply discardThenPlace_keeps_ideal].
        -- eapply keeps_ideal_trans;
             [exact Hmove | apply discardThenPlace_keeps_ideal].
      * apply discardThenPlace_keeps_ideal.
  - destruct (placeOnShelf now fs _) as [fs1 |] eqn:E1;
      [eapply placeOnShelf_keeps_ideal; exact E1 |].
    apply discardThenPlace_keeps_ideal.
Qed.

Lemma PickupOrder_keeps_ideal (now : Z) (fs : FulfillmentSystem)
  (orderID x : string) :
  x <> orderID -> keeps_ideal x fs (PickupOrder now fs orderID).
Proof.
  intros Hne. unfold PickupOrder.
  destruct (StorageGroup_Remove (HeaterGroup fs) orderID) as [[so |] heater'] eqn:Eh.
  - apply keeps_ideal_logAction. intros g. unfold ideal_ids.
    destruct g; simpl; [| auto].
    eapply StorageGroup_Remove_keeps_other; eauto.
  - destruct (StorageGroup_Remove (CoolerGroup fs) orderID) as [[so |] cooler'] eqn:Ec.
    + apply keeps_ideal_logAction. intros g. unfold ideal_ids.
      destruct g; simpl; [auto |].
      eapply StorageGroup_Remove_keeps_other; eauto.
    + destruct (StorageGroup_Remove (ShelfGroup fs) orderID) as [[so |] shelf'];
        now apply keeps_ideal_same.
Qed.

Lemma reorderUnit_keeps_ideal (fs : FulfillmentSystem) (g : GroupName) (n i : nat)
  (x : string) :
  keeps_ideal x fs (reorderUnit fs g n i).
Proof.
  assert (H : forall units,
            In x (units_ids units) ->
            In x (units_ids
                    (updateUnit n (fun s => with_Orders s (swapCells i (Orders s)))
                       units))).
  { intros units Hin.
    apply (count_occ_In string_dec). rewrite updateUnit_occ.
    now apply (count_occ_In string_dec). }
  intros g'. unfold ideal_ids. destruct g, g'; simpl; auto.
Qed.

Lemma step_keeps_ideal (now : Z) (op : Op) (fs : FulfillmentSystem) (x : string) :
  op <> OpPickup x -> keeps_ideal x fs (step now op fs).
Proof.
  intros Hop.
  destruct op as [order | orderID | | orderID g | temp | | g n i]; cbn [step].
  - apply PlaceOrder_keeps_ideal.
  - apply PickupOrder_keeps_ideal. intros ->. now apply Hop.
  - apply reallocateTick_keeps_ideal.
  - apply moveToIdeal_keeps_ideal.
  - apply tryMoveFromShelfGroup_keeps_ideal.
  - apply discardOrderFromShelfGroup_keeps_ideal.
  - apply reorderUnit_keeps_ideal.
Qed.

(** X12.  Ideal storage is final.  An order stored in the heater group or
    in the cooler group stays in that group through every operation of the
    engine other than its own pickup: placements (of any id), pickups of
    other orders, ticks, moves, move attempts, discards and changes of the
    enumeration order never take it out.  Only shelf orders are moved or
    discarded. *)
Theorem ideal_storage_is_final (now : Z) (op : Op) (fs : FulfillmentSystem)
  (x : string) :
  op <> OpPickup x ->
  (group_holds (HeaterGroup fs) x = true ->
   group_holds (HeaterGroup (step now op fs)) x = true)
  /\ (group_holds (CoolerGroup fs) x = true ->
      group_holds (CoolerGroup (step now op fs)) x = true).
Proof.
  intros Hop. pose proof (step_keeps_ideal now op fs x Hop) as H.
  split; rewrite !group_holds_iff.
  - exact (H ToHeater).
  - exact (H ToCooler).
Qed.

Lemma ideal_storage_is_final_witness :
  group_holds
    (HeaterGroup (step second (OpPlace hotH)
                    (run shelfFullRun (NewFulfillmentSystem smallConfig)))) "A"
  = true.
Proof.
  refine (proj1 (ideal_storage_is_final second (OpPlace hotH)
                   (run shelfFullRun (NewFulfillmentSystem smallConfig)) "A" _) _).
  - discriminate.
  - reflexivity.
Defined.

(* ------------------------------------------------------------------ *)
(** ** Where a placement puts the order *)

Lemma StorageGroup_Add_stores (sg sg' : StorageGroup) (order : StoredOrder) :
  StorageGroup_Add sg order = (true, sg') -> stores (Storages sg') order.
Proof.
  unfold StorageGroup_Add.
  destruct (addToUnits_spec (Storages sg) order)
    as [(_ & E) | (before & s & after & _ & _ & _ & E)]; rewrite E;
    [discriminate |].
  intros [= <-]. simpl.
  exists (with_Orders s (GoMap.set (ID (Order_ order)) order (Orders s))).
  split; [apply in_or_app; right; now left |].
  unfold GetOrder. destruct s; simpl. apply get_set_same.
Qed.

Lemma placeOnShelf_stores (now : Z) (fs fs' : FulfillmentSystem)
  (storedOrder : StoredOrder) :
  placeOnShelf now fs storedOrder = Some fs' ->
  stores (Storages (ShelfGroup fs')) storedOrder.
Proof.
  unfold placeOnShelf.
  destruct (StorageGroup_Add (ShelfGroup fs) storedOrder) as [[|] shelf'] eqn:E;
    [| discriminate].
  intros [= <-]. simpl. exact (StorageGroup_Add_stores _ _ _ E).
Qed.

Lemma stores_shelf (fs : FulfillmentSystem) (so : StoredOrder) :
  stores (Storages (ShelfGroup fs)) so -> stores (all_units fs) so.
Proof.
  intros (s & Hs & E). exists s. split; [| exact E].
  unfold all_units. rewrite !in_app_iff. auto.
Qed.

Lemma stores_ideal (fs : FulfillmentSystem) (g : IdealGroup) (so : StoredOrder) :
  stores (Storages (idealGroup fs g)) so -> stores (all_units fs) so.
Proof.
  intros (s & Hs & E). exists s. split; [| exact E].
  unfold all_units. rewrite !in_app_iff. destruct g; simpl in Hs; auto.
Qed.

Lemma discardThenPlace_stores (now : Z) (fs : FulfillmentSystem)
  (storedOrder : StoredOrder) :
  shelf_ready fs ->
  stores (Storages (ShelfGroup (discardThenPlace now fs storedOrder))) storedOrder.
Proof.
  intros R. unfold discardThenPlace.
  destruct (StorageGroup_IsFull (ShelfGroup fs)) eqn:Hfull.
  - pose proof (discardOrderFromShelfGroup_frees now fs R Hfull) as Hfree.
    destruct (placeOnShelf_not_full now _ storedOrder Hfree) as (fs2 & E & _).
    rewrite E. exact (placeOnShelf_stores _ _ _ _ E).
  - destruct (placeOnShelf_not_full now fs storedOrder Hfull) as (fs2 & E & _).
    rewrite E. exact (placeOnShelf_stores _ _ _ _ E).
Qed.

Lemma PlaceOrder_stores (now : Z) (fs : FulfillmentSystem) (order : Order) :
  shelf_ready fs ->
  stores (all_units (PlaceOrder now fs order)) {| Order_ := order; PlacedAt := now |}.
Proof.
  intros R. unfold PlaceOrder.
  set (storedOrder := {| Order_ := order; PlacedAt := now |}).
  destruct (String.eqb (Temperature order) TEMP_TYPE_HOT
            || String.eqb (Temperature order) TEMP_TYPE_COLD).
  - set (g := if String.eqb (Temperature order) TEMP_TYPE_HOT
              then ToHeater else ToCooler).
    destruct (StorageGroup_Add (idealGroup fs g) storedOrder) as [[|] ideal'] eqn:Eadd.
    { apply (stores_ideal _ g).
      pose proof (StorageGroup_Add_stores _ _ _ Eadd) as H.
      destruct g; exact H. }
    destruct (placeOnShelf now fs storedOrder) as [fs1 |] eqn:E1;
      [apply stores_shelf; exact (placeOnShelf_stores _ _ _ _ E1) |].
    rewrite (placeOnShelf_None _ _ _ E1).
    pose proof (tryMoveFromShelfGroup_evolves now fs (Temperature order)) as Hev.
    destruct (tryMoveFromShelfGroup now fs (Temperature order)) as [moved fs1] eqn:Et.
    simpl in Hev. pose proof (shelf_ready_evolves _ _ Hev R) as R1.
    apply tryMoveFromShelfGroup_spec in Et. destruct moved.
    + destruct Et as (so & g' & _ & _ & _ & _ & _ & Hfree).
      destruct (placeOnShelf_not_full now fs1 storedOrder (Hfree (proj1 R)))
        as (fs2 & E2 & _).
      rewrite E2. apply stores_shelf. exact (placeOnShelf_stores _ _ _ _ E2).
    + apply stores_shelf. now apply discardThenPlace_stores.
  - destruct (placeOnShelf now fs storedOrder) as [fs1 |] eqn:E1;
      [apply stores_shelf; exact (placeOnShelf_stores _ _ _ _ E1) |].
    apply stores_shelf. now apply discardThenPlace_stores.
Qed.

(** X13.  A placed order is stored as given.  In a system configured with
    at least one shelf unit of capacity at least one, after any run,
    [PlaceOrder] leaves the order in some unit of the system, filed under
    its id, with every field as passed in and the placement instant set to
    the time of the call, whatever had to be moved or discarded to make
    room. *)
Theorem PlaceOrder_stores_order (cfg : FulfillmentConfig)
  (trace : list (Z * Op)) (now : Z) (order : Order) :
  1 <= NumShelves cfg -> 1 <= ShelfCap cfg ->
  exists s,
    In s (all_units (PlaceOrder now (run trace (NewFulfillmentSystem cfg)) order))
    /\ GetOrder s (ID order) = Some {| Order_ := order; PlacedAt := now |}.
Proof.
  intros Hn Hc. apply PlaceOrder_stores.
  eapply shelf_ready_evolves; [apply run_evolves |].
  now apply NewFulfillmentSystem_shelf_ready.
Qed.

Lemma PlaceOrder_stores_order_witness :
  exists s,
    In s (all_units (PlaceOrder second
                       (run shelfFullRun (NewFulfillmentSystem smallConfig)) roomE))
    /\ GetOrder s (ID roomE) = Some {| Order_ := roomE; PlacedAt := second |}.
Proof.
  apply (PlaceOrder_stores_order smallConfig shelfFullRun second roomE);
    vm_compute; discriminate.
Defined.

(** X14.  The ideal group comes first.  A hot order placed while the heater
    group has room, or a cold order placed while the cooler group has room,
    goes into that group: the shelf group and the other group are left
    exactly as they were, the log grows by a single place action naming the
    order, and the group stores the order with the placement instant of the
    call. *)
Theorem PlaceOrder_prefers_ideal (now : Z) (fs : FulfillmentSystem) (order : Order)
  (g : IdealGroup) :
  Temperature order = match g with
                      | ToHeater => TEMP_TYPE_HOT
                      | ToCooler => TEMP_TYPE_COLD
                      end ->
  StorageGroup_IsFull (idealGroup fs g) = false ->
  let fs' := PlaceOrder now fs order in
  ShelfGroup fs' = ShelfGroup fs
  /\ idealGroup fs' (match g with ToHeater => ToCooler | ToCooler => ToHeater end)
     = idealGroup fs (match g with ToHeater => ToCooler | ToCooler => ToHeater end)
  /\ Actions fs' = Actions fs ++ [mkAction (UnixMicro now) (ID order) ACTION_TYPE_PLACE]
  /\ exists s,
       In s (Storages (idealGroup fs' g))
       /\ GetOrder s (ID order) = Some {| Order_ := order; PlacedAt := now |}.
Proof.
  intros Htemp Hroom fs'. subst fs'. unfold PlaceOrder.
  set (storedOrder := {| Order_ := order; PlacedAt := now |}).
  assert (Eg : (if String.eqb (Temperature order) TEMP_TYPE_HOT
                then ToHeater else ToCooler) = g)
    by (rewrite Htemp; now destruct g).
  assert (Eor : String.eqb (Temperature order) TEMP_TYPE_HOT
                || String.eqb (Temperature order) TEMP_TYPE_COLD = true)
    by (rewrite Htemp; now destruct g).
  rewrite Eor, Eg.
  pose proof (StorageGroup_Add_not_full _ storedOrder Hroom) as Hok.
  destruct (StorageGroup_Add (idealGroup fs g) storedOrder) as [ok ideal'] eqn:Eadd.
  simpl in Hok. subst ok.
  pose proof (StorageGroup_Add_stores _ _ _ Eadd) as Hst.
  destruct g; simpl; repeat split; exact Hst.
Qed.

Lemma PlaceOrder_prefers_ideal_witness :
  let fs' := PlaceOrder second (NewFulfillmentSystem smallConfig) hotA in
  ShelfGroup fs' = ShelfGroup (NewFulfillmentSystem smallConfig)
  /\ idealGroup fs' ToCooler = idealGroup (NewFulfillmentSystem smallConfig) ToCooler
  /\ Actions fs'
     = Actions (NewFulfillmentSystem smallConfig)
       ++ [mkAction (UnixMicro second) (ID hotA) ACTION_TYPE_PLACE]
  /\ exists s,
       In s (Storages (idealGroup fs' ToHeater))
       /\ GetOrder s (ID hotA) = Some {| Order_ := hotA; PlacedAt := second |}.
Proof.
  apply (PlaceOrder_prefers_ideal second (NewFulfillmentSystem smallConfig) hotA
           ToHeater); reflexivity.
Defined.

(* ------------------------------------------------------------------ *)
(** ** Pickups of stored orders *)

Lemma NoDup_app_disjoint {A : Type} (l1 l2 : list A) (x : A) :
  NoDup (l1 ++ l2) -> In x l1 -> In x l2 -> False.
Proof.
  induction l1 as [| a l1 IH]; simpl; [tauto |].
  intros N [-> | H1] H2; inversion N as [| ? ? Hnot N']; subst.
  - apply Hnot. apply in_or_app. now right.
  - now apply IH.
Qed.

Lemma removeFromUnits_ids (units units' : list Storage) (orderID : string)
  (r : option StoredOrder) :
  removeFromUnits units orderID = (r, units') ->
  NoDup (units_ids units) ->
  (forall x, In x (units_ids units') <-> In x (units_ids units) /\ x <> orderID)
  /\ (r = None <-> ~ In orderID (units_ids units))
  /\ (forall so, r = Some so ->
        exists s, In s units /\ In (orderID, so) (Orders s)).
Proof.
  intros E N.
  destruct (removeFromUnits_spec units orderID)
    as [(Hnone & E') | (before & s & after & so & Eunits & Hb & Hget & E')];
    rewrite E' in E; injection E as <- <-.
  - assert (Hnot : ~ In orderID (units_ids units)).
    { intros Hin. apply (group_holds_units units) in Hin.
      unfold group_holds in Hin. simpl in Hin. congruence. }
    split; [| split].
    + intros x. split; [| tauto]. intros Hx. split; [exact Hx |].
      intros ->. now apply Hnot.
    + tauto.
    + discriminate.
  - assert (Hs : In orderID (unit_ids s)).
    { apply holds_true_iff. unfold holds. now rewrite Hget. }
    assert (Hbefore : ~ In orderID (units_ids before)).
    { intros Hin. apply (group_holds_units before) in Hin.
      unfold group_holds in Hin. simpl in Hin. congruence. }
    subst units. rewrite units_ids_app, units_ids_cons in N.
    assert (Hafter : ~ In orderID (units_ids after)).
    { intros Hin. apply NoDup_app_remove_l in N.
      exact (NoDup_app_disjoint _ _ _ N Hs Hin). }
    split; [| split].
    + intros x. rewrite !units_ids_app, !units_ids_cons, !in_app_iff.
      unfold unit_ids at 1. simpl. rewrite in_keys_delete. fold (unit_ids s).
      split.
      * intros [Hx | [[Hx Hne] | Hx]].
        -- split; [auto |]. intros ->. now apply Hbefore.
        -- split; [auto | exact Hne].
        -- split; [auto |]. intros ->. now apply Hafter.
      * intros [[Hx | [Hx | Hx]] Hne]; auto.
    + split; [discriminate |]. intros Hnot. exfalso. apply Hnot.
      rewrite units_ids_app, units_ids_cons, !in_app_iff. auto.
    + intros so' [= <-]. exists s. split; [apply in_or_app; right; now left |].
      unfold GetOrder in Hget. now apply get_Some_In.
Qed.

Lemma PickupOrder_ids (later : Z) (fs : FulfillmentSystem) (orderID : string) :
  NoDup (all_ids fs) ->
  forall x, In x (all_ids (PickupOrder later fs orderID))
            <-> In x (all_ids fs) /\ x <> orderID.
Proof.
  unfold all_ids, all_units. rewrite !units_ids_app. intros N x.
  pose proof (NoDup_app_remove_r _ _ N) as Nh.
  pose proof (NoDup_app_remove_l _ _ N) as Ncs.
  pose proof (NoDup_app_remove_r _ _ Ncs) as Nc.
  pose proof (NoDup_app_remove_l _ _ Ncs) as Ns.
  unfold PickupOrder, StorageGroup_Remove.
  destruct (removeFromUnits (Storages (HeaterGroup fs)) orderID)
    as [rh heater'] eqn:Eh.
  destruct (removeFromUnits_ids _ _ _ _ Eh Nh) as (Hh & Hhn & _).
  destruct rh as [so |].
  - assert (Hin : In orderID (units_ids (Storages (HeaterGroup fs)))).
    { destruct (in_dec string_dec orderID (units_ids (Storages (HeaterGroup fs))))
        as [H | H]; [exact H |]. apply Hhn in H. discriminate. }
    cbn [HeaterGroup CoolerGroup ShelfGroup logAction with_HeaterGroup with_CoolerGroup with_ShelfGroup Storages].
    rewrite ?units_ids_app, !in_app_iff, Hh.
    split; [| tauto].
    intros [H | H]; [tauto |]. split; [auto |]. intros ->.
    apply (NoDup_app_disjoint _ _ orderID N Hin). now apply in_or_app.
  - assert (Hnh : ~ In orderID (units_ids (Storages (HeaterGroup fs))))
      by now apply Hhn.
    destruct (removeFromUnits (Storages (CoolerGroup fs)) orderID)
      as [rc cooler'] eqn:Ec.
    destruct (removeFromUnits_ids _ _ _ _ Ec Nc) as (Hc & Hcn & _).
    destruct rc as [so |].
    + assert (Hin : In orderID (units_ids (Storages (CoolerGroup fs)))).
      { destruct (in_dec string_dec orderID (units_ids (Storages (CoolerGroup fs))))
          as [H | H]; [exact H |]. apply Hcn in H. discriminate. }
      cbn [HeaterGroup CoolerGroup ShelfGroup logAction with_HeaterGroup with_CoolerGroup with_ShelfGroup Storages].
    rewrite ?units_ids_app, !in_app_iff, Hc.
      split; [| tauto].
      intros [H | [H | H]]; [| tauto |].
      * split; [auto |]. intros ->. now apply Hnh.
      * split; [auto |]. intros ->.
        exact (NoDup_app_disjoint _ _ orderID Ncs Hin H).
    + assert (Hnc : ~ In orderID (units_ids (Storages (CoolerGroup fs))))
        by now apply Hcn.
      destruct (removeFromUnits (Storages (ShelfGroup fs)) orderID)
        as [rs shelf'] eqn:Es.
      destruct (removeFromUnits_ids _ _ _ _ Es Ns) as (Hs & Hsn & _).
      destruct rs as [so |].
      * cbn [HeaterGroup CoolerGroup ShelfGroup logAction with_HeaterGroup with_CoolerGroup with_ShelfGroup Storages].
    rewrite ?units_ids_app, !in_app_iff, Hs.
        split; [| tauto].
        intros [H | [H | H]]; [| | tauto].
        -- split; [auto |]. intros ->. now apply Hnh.
        -- split; [auto |]. intros ->. now apply Hnc.
      * assert (Hns : ~ In orderID (units_ids (Storages (ShelfGroup fs))))
          by now apply Hsn.
        rewrite ?units_ids_app, !in_app_iff.
        split; [| tauto].
        intros H. split; [exact H |]. intros ->. tauto.
Qed.

Lemma PickupOrder_stored (later : Z) (fs : FulfillmentSystem) (so : StoredOrder) :
  NoDup (all_ids fs) ->
  stores (all_units fs) so ->
  Actions (PickupOrder later fs (ID (Order_ so)))
  = Actions fs ++ [mkAction (UnixMicro later) (ID (Order_ so)) ACTION_TYPE_PICKUP].
Proof.
  intros N (s & Hs & Hget).
  assert (Hcell : In (ID (Order_ so), so) (Orders s))
    by (unfold GetOrder in Hget; now apply get_Some_In).
  assert (Hsame : forall units so0 r units',
            (forall u, In u units -> In u (all_units fs)) ->
            removeFromUnits units (ID (Order_ so)) = (r, units') ->
            NoDup (units_ids units) ->
            r = Some so0 -> so0 = so).
  { intros units so0 r units' Hsub E Nu ->.
    destruct (removeFromUnits_ids _ _ _ _ E Nu) as (_ & _ & Hr).
    destruct (Hr so0 eq_refl) as (s0 & Hs0 & Hcell0).
    exact (cell_unique (all_units fs) s0 s _ so0 so N (Hsub _ Hs0) Hs Hcell0 Hcell). }
  assert (Hheld : forall units r units',
            removeFromUnits units (ID (Order_ so)) = (r, units') ->
            NoDup (units_ids units) ->
            r = None -> ~ In s units).
  { intros units r units' E Nu -> Hin.
    destruct (removeFromUnits_ids _ _ _ _ E Nu) as (_ & Hn & _).
    apply (proj1 Hn eq_refl). unfold units_ids. apply in_flat_map.
    exists s. split; [exact Hin |]. apply holds_true_iff. unfold holds.
    now rewrite Hget. }
  unfold all_ids, all_units in N. rewrite !units_ids_app in N.
  pose proof (NoDup_app_remove_r _ _ N) as Nh.
  pose proof (NoDup_app_remove_l _ _ N) as Ncs.
  pose proof (NoDup_app_remove_r _ _ Ncs) as Nc.
  pose proof (NoDup_app_remove_l _ _ Ncs) as Ns.
  unfold PickupOrder, StorageGroup_Remove.
  destruct (removeFromUnits (Storages (HeaterGroup fs)) (ID (Order_ so)))
    as [[so0 |] heater'] eqn:Eh.
  { rewrite (Hsame _ so0 _ _ (fun u H => in_or_app _ _ u (or_introl H)) Eh Nh eq_refl).
    reflexivity. }
  destruct (removeFromUnits (Storages (CoolerGroup fs)) (ID (Order_ so)))
    as [[so0 |] cooler'] eqn:Ec.
  { rewrite (Hsame _ so0 _ _
               (fun u H => in_or_app _ _ u (or_intror (in_or_app _ _ u (or_introl H))))
               Ec Nc eq_refl).
    reflexivity. }
  destruct (removeFromUnits (Storages (ShelfGroup fs)) (ID (Order_ so)))
    as [[so0 |] shelf'] eqn:Es.
  { rewrite (Hsame _ so0 _ _
               (fun u H => in_or_app _ _ u (or_intror (in_or_app _ _ u (or_intror H))))
               Es Ns eq_refl).
    reflexivity. }
  exfalso. unfold all_units in Hs. rewrite !in_app_iff in Hs.
  destruct Hs as [H | [H | H]].
  - exact (Hheld _ _ _ Eh Nh eq_refl H).
  - exact (Hheld _ _ _ Ec Nc eq_refl H).
  - exact (Hheld _ _ _ Es Ns eq_refl H).
Qed.

(** X15.  A pickup removes exactly the order asked for.  In a system that
    stores no id twice, the ids stored after [PickupOrder] are the ids
    stored before except the one picked up, in whichever group it was: the
    order is gone from every unit and no other order is touched. *)
Theorem PickupOrder_removes_exactly (later : Z) (fs : FulfillmentSystem)
  (orderID : string) :
  NoDup (all_ids fs) ->
  forall x, In x (all_ids (PickupOrder later fs orderID))
            <-> In x (all_ids fs) /\ x <> orderID.
Proof. exact (PickupOrder_ids later fs orderID). Qed.

Lemma PickupOrder_removes_exactly_witness :
  In "C"%string
    (all_ids (PickupOrder second
                (run shelfFullRun (NewFulfillmentSystem smallConfig)) "B"))
  <-> In "C"%string (all_ids (run shelfFullRun (NewFulfillmentSystem smallConfig)))
      /\ "C"%string <> "B"%string.
Proof.
  refine (PickupOrder_removes_exactly second
            (run shelfFullRun (NewFulfillmentSystem smallConfig)) "B" _ "C").
  let l := eval vm_compute in
    (all_ids (run shelfFullRun (NewFulfillmentSystem smallConfig))) in
  change (all_ids (run shelfFullRun (NewFulfillmentSystem smallConfig))) with l.
  repeat (apply NoDup_cons || apply NoDup_nil); simpl; intuition discriminate.
Defined.

Lemma run_snoc (trace : list (Z * Op)) (now : Z) (op : Op) (fs : FulfillmentSystem) :
  run (trace ++ [(now, op)]) fs = step now op (run trace fs).
Proof.
  revert fs. induction trace as [| [now' op'] rest IH]; intros fs; simpl;
    [reflexivity | apply IH].
Qed.

Lemma placedIDs_snoc (trace : list (Z * Op)) (now : Z) (order : Order) :
  placedIDs (trace ++ [(now, OpPlace order)]) = placedIDs trace ++ [ID order].
Proof. unfold placedIDs. now rewrite flat_map_app. Qed.

Lemma PickupOrder_absent (later : Z) (fs : FulfillmentSystem) (orderID : string) :
  ~ In orderID (all_ids fs) -> PickupOrder later fs orderID = fs.
Proof.
  intros Hnot.
  assert (H : forall sg, (group_holds sg orderID = true -> In orderID (all_ids fs)) ->
                         StorageGroup_Remove sg orderID = (None, sg)).
  { intros sg Hsg. apply StorageGroup_Remove_absent.
    destruct (group_holds sg orderID); [exfalso; now apply Hnot, Hsg | reflexivity]. }
  unfold PickupOrder.
  rewrite (H (HeaterGroup fs)) by (intros Hh; apply all_ids_in; auto).
  rewrite (H (CoolerGroup fs)) by (intros Hh; apply all_ids_in; auto).
  rewrite (H (ShelfGroup fs)) by (intros Hh; apply all_ids_in; auto).
  reflexivity.
Qed.

(** X16.  Place, then pick up.  In a system configured with at least one
    shelf unit of capacity at least one, after any run whose placements
    carry pairwise distinct ids, an order placed under a new id can be
    picked up at any later instant: the pickup appends exactly one pickup
    action naming the order, afterwards no unit of the system holds the
    order, and a second pickup of the same id changes nothing. *)
Theorem place_then_pickup (cfg : FulfillmentConfig) (trace : list (Z * Op))
  (now later : Z) (order : Order) :
  1 <= NumShelves cfg -> 1 <= ShelfCap cfg ->
  NoDup (ID order :: placedIDs trace) ->
  let fs1 := PlaceOrder now (run trace (NewFulfillmentSystem cfg)) order in
  let fs2 := PickupOrder later fs1 (ID order) in
  Actions fs2
  = Actions fs1 ++ [mkAction (UnixMicro later) (ID order) ACTION_TYPE_PICKUP]
  /\ holders fs2 (ID order) = []
  /\ forall again, PickupOrder again fs2 (ID order) = fs2.
Proof.
  intros Hn Hc Hfresh fs1 fs2.
  assert (N1 : NoDup (all_ids fs1)).
  { subst fs1. change (PlaceOrder now (run trace (NewFulfillmentSystem cfg)) order)
      with (step now (OpPlace order) (run trace (NewFulfillmentSystem cfg))).
    rewrite <- run_snoc. apply run_ids_NoDup. rewrite placedIDs_snoc.
    apply (Permutation_NoDup (l := ID order :: placedIDs trace)); [| exact Hfresh].
    apply Permutation_cons_append. }
  assert (S1 : stores (all_units fs1) {| Order_ := order; PlacedAt := now |}).
  { subst fs1. apply PlaceOrder_stores.
    eapply shelf_ready_evolves; [apply run_evolves |].
    now apply NewFulfillmentSystem_shelf_ready. }
  assert (Hgone : ~ In (ID order) (all_ids fs2)).
  { subst fs2. intros Hin. apply (PickupOrder_ids later fs1 (ID order) N1) in Hin.
    now destruct Hin. }
  split; [| split].
  - exact (PickupOrder_stored later fs1 _ N1 S1).
  - unfold holders. apply filter_none.
    destruct (existsb (fun s => holds s (ID order)) (all_units fs2)) eqn:E;
      [| reflexivity].
    exfalso. apply Hgone. apply existsb_exists in E. destruct E as (s & Hs & Hh).
    unfold all_ids, units_ids. apply in_flat_map. exists s.
    split; [exact Hs | now apply holds_true_iff].
  - intros again. now apply PickupOrder_absent.
Qed.

Lemma place_then_pickup_witness :
  let fs1 := PlaceOrder second
               (run shelfFullRun (NewFulfillmentSystem smallConfig)) roomE in
  let fs2 := PickupOrder (2 * second) fs1 (ID roomE) in
  Actions fs2
  = Actions fs1 ++ [mkAction (UnixMicro (2 * second)) (ID roomE) ACTION_TYPE_PICKUP]
  /\ holders fs2 (ID roomE) = []
  /\ forall again, PickupOrder again fs2 (ID roomE) = fs2.
Proof.
  apply (place_then_pickup smallConfig shelfFullRun second (2 * second) roomE).
  - vm_compute. discriminate.
  - vm_compute. discriminate.
  - let l := eval vm_compute in (ID roomE :: placedIDs shelfFullRun) in
    change (ID roomE :: placedIDs shelfFullRun) with l.
    repeat (apply NoDup_cons || apply NoDup_nil); simpl; intuition discriminate.
Defined.

(* ------------------------------------------------------------------ *)
(** ** The reallocation loop *)

Lemma reallocateTick_ids (now : Z) (fs : FulfillmentSystem) (x : string) :
  In x (all_ids (reallocateTick now fs)) <-> In x (all_ids fs).
Proof.
  split; [| apply reallocateTick_keeps_ids].
  apply (step_no_new_ids now OpTick fs x). discriminate.
Qed.

(** X17.  The reallocation loop only moves.  Whatever ticks and stop signals
    [ReallocateOrders] receives, the ids stored in the system are the same
    before and after, every order of the heater or cooler group stays in
    its group, the log grows by move actions only, and nothing that arrives
    after the first stop signal has any effect. *)
Theorem ReallocateOrders_only_moves (events : list LoopEvent)
  (fs : FulfillmentSystem) :
  (forall x, In x (all_ids (ReallocateOrders events fs)) <-> In x (all_ids fs))
  /\ (forall x g, In x (ideal_ids fs g) ->
                  In x (ideal_ids (ReallocateOrders events fs) g))
  /\ (exists new,
         Actions (ReallocateOrders events fs) = Actions fs ++ new
         /\ Forall (fun a => Action_ a = ACTION_TYPE_MOVE) new)
  /\ (forall later, ReallocateOrders (events ++ Stop :: later) fs
                    = ReallocateOrders events fs).
Proof.
  revert fs. induction events as [| [now |] rest IH]; intros fs;
    cbn [ReallocateOrders app].
  - repeat split; try tauto. exists []. rewrite app_nil_r. split; [reflexivity | constructor].
  - destruct (IH (reallocateTick now fs)) as (Hids & Hideal & (new & Hlog & Hnew) & Hstop).
    split; [| split; [| split]].
    + intros x. rewrite Hids. apply reallocateTick_ids.
    + intros x g Hx. apply Hideal. now apply reallocateTick_keeps_ideal.
    + destruct (reallocateTick_appends now fs) as (new0 & Hlog0 & Hnew0).
      exists (new0 ++ new). rewrite Hlog, Hlog0, app_assoc. split; [reflexivity |].
      apply Forall_app. split; [| exact Hnew].
      eapply Forall_impl; [| exact Hnew0]. intros a [_ [<- | []]]. reflexivity.
    + exact Hstop.
  - repeat split; try tauto. exists []. rewrite app_nil_r. split; [reflexivity | constructor].
Qed.

(* ------------------------------------------------------------------ *)
(** ** The system as [NewFulfillmentSystem] builds it *)

Lemma append_injective (p a b : string) :
  (p ++ a)%string = (p ++ b)%string -> a = b.
Proof. induction p as [| c p IH]; simpl; [auto |]. intros [= H]. now apply IH. Qed.

Lemma unitName_injective (prefix : string) (i j : nat) :
  unitName prefix i = unitName prefix j -> i = j.
Proof.
  unfold unitName. intros H. apply append_injective in H.
  simpl in H. injection H as H.
  assert (Hd : Nat.to_uint i = Nat.to_uint j).
  { pose proof (NilEmpty.usu (Nat.to_uint i)) as Hi.
    pose proof (NilEmpty.usu (Nat.to_uint j)) as Hj.
    rewrite H in Hi. congruence. }
  rewrite <- (Unsigned.of_to i), <- (Unsigned.of_to j). now rewrite Hd.
Qed.

Lemma newUnits_names (prefix : string) (n cap : Z) :
  map Storage_Name (newUnits prefix n cap)
  = map (unitName prefix) (seq 1 (Z.to_nat n)).
Proof. unfold newUnits. rewrite map_map. reflexivity. Qed.

Lemma newUnits_names_NoDup (prefix : string) (n cap : Z) :
  NoDup (map Storage_Name (newUnits prefix n cap)).
Proof.
  rewrite newUnits_names. apply NoDup_map_NoDup_ForallPairs; [| apply seq_NoDup].
  intros i j _ _. apply unitName_injective.
Qed.

Lemma newUnits_name_prefix (prefix : string) (n cap : Z) (name : string) :
  In name (map Storage_Name (newUnits prefix n cap)) ->
  exists i, name = unitName prefix i.
Proof.
  rewrite newUnits_names. intros H. apply in_map_iff in H.
  destruct H as (i & <- & _). now exists i.
Qed.

Lemma NoDup_app_intro {A : Type} (l1 l2 : list A) :
  NoDup l1 -> NoDup l2 -> (forall x, In x l1 -> In x l2 -> False) ->
  NoDup (l1 ++ l2).
Proof.
  induction l1 as [| a l1 IH]; simpl; intros N1 N2 D; [exact N2 |].
  inversion N1 as [| ? ? Hnot N1']; subst. constructor.
  - intros H. apply in_app_or in H. destruct H as [H | H]; [now apply Hnot |].
    apply (D a); auto.
  - apply IH; [exact N1' | exact N2 |]. intros x H1 H2. apply (D x); auto.
Qed.

Lemma newUnits_fresh (prefix : string) (n cap : Z) :
  Forall (fun s => Capacity s = cap /\ Orders s = []) (newUnits prefix n cap).
Proof.
  unfold newUnits. apply Forall_map. rewrite Forall_forall. intros i _. now split.
Qed.

(** X18.  The system as built.  [NewFulfillmentSystem] creates, for each of
    the three groups, as many units as the configuration asks for (none
    when the count is zero or negative), each empty and with the capacity
    configured for its group; no two units of the system share a name; and
    the log is empty. *)
Theorem NewFulfillmentSystem_shape (cfg : FulfillmentConfig) :
  let fs := NewFulfillmentSystem cfg in
  (List.length (Storages (HeaterGroup fs)) = Z.to_nat (NumHeaters cfg)
   /\ List.length (Storages (CoolerGroup fs)) = Z.to_nat (NumCoolers cfg)
   /\ List.length (Storages (ShelfGroup fs)) = Z.to_nat (NumShelves cfg))
  /\ (Forall (fun s => Capacity s = HeaterCap cfg /\ Orders s = [])
        (Storages (HeaterGroup fs))
      /\ Forall (fun s => Capacity s = CoolerCap cfg /\ Orders s = [])
           (Storages (CoolerGroup fs))
      /\ Forall (fun s => Capacity s = ShelfCap cfg /\ Orders s = [])
           (Storages (ShelfGroup fs)))
  /\ NoDup (map Storage_Name (all_units fs))
  /\ Actions fs = [].
Proof.
  intros fs. subst fs. unfold NewFulfillmentSystem, all_units. simpl.
  split; [| split; [| split]].
  - unfold newUnits. now rewrite !length_map, !length_seq.
  - repeat split; apply newUnits_fresh.
  - rewrite !map_app.
    apply NoDup_app_intro; [apply newUnits_names_NoDup | |].
    + apply NoDup_app_intro; try apply newUnits_names_NoDup.
      intros x H1 H2.
      apply newUnits_name_prefix in H1. apply newUnits_name_prefix in H2.
      destruct H1 as (i & ->). destruct H2 as (j & H). discriminate H.
    + intros x H1 H2. apply newUnits_name_prefix in H1. destruct H1 as (i & ->).
      apply in_app_or in H2.
      destruct H2 as [H2 | H2]; apply newUnits_name_prefix in H2;
        destruct H2 as (j & H); discriminate H.
  - reflexivity.
Qed.

Lemma evolves_stay_empty (units units' : list Storage) :
  Forall2 evolves units units' ->
  Forall (fun s => Capacity s = 0 /\ Orders s = []) units ->
  Forall (fun s => Capacity s = 0 /\ Orders s = []) units'.
Proof.
  induction 1 as [| s s' l l' (_ & Hcap & Hw) _ IH]; intros F; [constructor |].
  inversion F as [| ? ? [Hc Ho] Fl]; subst. constructor; [| now apply IH].
  split; [congruence |].
  assert (W : within_capacity s) by (unfold within_capacity, GoMap.len; rewrite Hc, Ho; simpl; lia).
  specialize (Hw W). unfold within_capacity, GoMap.len in Hw. rewrite Hcap, Hc in Hw.
  destruct (Orders s'); [reflexivity | simpl in Hw; lia].
Qed.

Lemma newUnits_unusable (prefix : string) (n cap : Z) :
  n <= 0 \/ cap = 0 ->
  Forall (fun s => Capacity s = 0 /\ Orders s = []) (newUnits prefix n cap).
Proof.
  intros [Hn | ->]; [| apply newUnits_fresh].
  unfold newUnits. replace (Z.to_nat n) with 0%nat by lia. constructor.
Qed.

Lemma empty_units (units : list Storage) :
  Forall (fun s => Capacity s = 0 /\ Orders s = []) units ->
  units_ids units = [] /\ forallb Storage_IsFull units = true.
Proof.
  induction 1 as [| s l [Hc Ho] _ [IH1 IH2]]; [now split |].
  rewrite units_ids_cons, IH1. unfold unit_ids. cbn [forallb].
  rewrite IH2. unfold Storage_IsFull. rewrite Ho, Hc. now split.
Qed.

(** X19.  A group that cannot hold anything never does.  When the heater
    group (or the cooler group) is configured with no unit or with capacity
    zero, it stores no order after any run and reports itself full
    throughout, so every hot (or cold) order is handled on the shelf. *)
Theorem unusable_group_stays_empty (cfg : FulfillmentConfig) (g : IdealGroup)
  (trace : list (Z * Op)) :
  match g with
  | ToHeater => NumHeaters cfg <= 0 \/ HeaterCap cfg = 0
  | ToCooler => NumCoolers cfg <= 0 \/ CoolerCap cfg = 0
  end ->
  ideal_ids (run trace (NewFulfillmentSystem cfg)) g = []
  /\ StorageGroup_IsFull (idealGroup (run trace (NewFulfillmentSystem cfg)) g) = true.
Proof.
  intros H.
  destruct (run_evolves trace (NewFulfillmentSystem cfg)) as (_ & Hh & Hc).
  unfold ideal_ids, StorageGroup_IsFull. apply empty_units.
  destruct g; simpl.
  - eapply evolves_stay_empty; [exact Hh |]. now apply newUnits_unusable.
  - eapply evolves_stay_empty; [exact Hc |]. now apply newUnits_unusable.
Qed.

Lemma unusable_group_stays_empty_witness :
  ideal_ids (run [(0, OpPlace hotA); (0, OpPlace hotB); (second, OpTick)]
               (NewFulfillmentSystem shelfOnlyConfig)) ToHeater = []
  /\ StorageGroup_IsFull
       (idealGroup (run [(0, OpPlace hotA); (0, OpPlace hotB); (second, OpTick)]
                      (NewFulfillmentSystem shelfOnlyConfig)) ToHeater) = true.
Proof.
  apply (unusable_group_stays_empty shelfOnlyConfig ToHeater
           [(0, OpPlace hotA); (0, OpPlace hotB); (second, OpTick)]).
  left. vm_compute. discriminate.
Defined.

(* ------------------------------------------------------------------ *)
(** ** The pickup delay of the harness *)

(** X20.  The pickup delay of [RunHarness].  With the two bounds and their
    difference inside the int64 range: when the maximum is not above the
    minimum the computation of the delay panics ([rand.Int63n] is handed a
    bound that is not positive), so equal bounds crash the harness; when
    the minimum is below the maximum, whatever number below the difference
    [rand.Int63n] draws, the delay is at least the minimum and strictly
    below the maximum. *)
Theorem pickupDelay_bounds (minPickup maxPickup draw : Z) :
  Duration.fits minPickup -> Duration.fits maxPickup ->
  Duration.fits (maxPickup - minPickup) ->
  (maxPickup <= minPickup -> pickupDelay minPickup maxPickup draw = None)
  /\ (minPickup < maxPickup -> 0 <= draw < maxPickup - minPickup ->
      exists delay,
        pickupDelay minPickup maxPickup draw = Some delay
        /\ minPickup <= delay < maxPickup).
Proof.
  intros Fmin Fmax Fdiff. unfold pickupDelay, Duration.sub.
  rewrite (wrap_fits _ Fdiff). split.
  - intros Hle. destruct (Z.leb_spec (maxPickup - minPickup) 0); [reflexivity | lia].
  - intros Hlt Hdraw.
    destruct (Z.leb_spec (maxPickup - minPickup) 0); [lia |].
    exists (minPickup + draw). split; [| lia].
    f_equal. apply wrap_fits. unfold Duration.fits in *. lia.
Qed.

Lemma pickupDelay_bounds_witness :
  exists delay,
    pickupDelay (4 * second) (8 * second) second = Some delay
    /\ 4 * second <= delay < 8 * second.
Proof.
  refine (proj2 (pickupDelay_bounds (4 * second) (8 * second) second _ _ _) _ _);
    unfold Duration.fits, Duration.min_int64, Duration.max_int64, second; lia.
Defined.

(* ------------------------------------------------------------------ *)
(** ** Temperatures of the orders in the heater and cooler groups *)

Lemma atomicMoveOrder_destination_temperature (now : Z) (orderID : string)
  (source source' : Storage) (destination destination' : StorageGroup)
  (moved : bool) (T : string) :
  atomicMoveOrder now orderID source destination = (moved, source', destination') ->
  all_temperature T (Storages destination) ->
  (forall o, GetOrder source orderID = Some o -> Temperature (Order_ o) = T) ->
  all_temperature T (Storages destination').
Proof.
  intros E HT Hsrc.
  destruct (atomicMoveOrder_cases now orderID source destination)
    as [(_ & E') | [(order & _ & _ & _ & E') | (order & order' & Hget & Hrel & Hcase)]].
  - rewrite E' in E. injection E as <- <- <-. exact HT.
  - rewrite E' in E. injection E as <- <- <-. exact HT.
  - cbv zeta in Hcase.
    destruct (putInFirstWithRoom (Storages destination) orderID order')
      as [units |] eqn:Eput; rewrite Hcase in E; injection E as <- <- <-;
      [| exact HT].
    destruct (putInFirstWithRoom_Some _ _ _ _ Eput)
      as (before & d & after & Hu & Hu' & _ & _).
    subst units. simpl. unfold all_temperature in *. rewrite Hu in HT.
    apply Forall_app in HT. destruct HT as [Hb Hda].
    inversion Hda as [| ? ? Hd Ha]; subst.
    apply Forall_app. split; [exact Hb |]. constructor; [| exact Ha].
    simpl. apply Forall_set; [| exact Hd]. simpl.
    destruct Hrel as [[_ ->] | [_ Href]]; [now apply Hsrc |].
    apply refreshOrder_ID in Href. destruct Href as [_ ->]. now apply Hsrc.
Qed.

Lemma atomicMoveOrder_source_temperature (now : Z) (orderID : string)
  (source source' : Storage) (destination destination' : StorageGroup)
  (moved : bool) (k : string) (o' : StoredOrder) :
  atomicMoveOrder now orderID source destination = (moved, source', destination') ->
  GetOrder source' k = Some o' ->
  exists o, GetOrder source k = Some o
            /\ Temperature (Order_ o') = Temperature (Order_ o).
Proof.
  intros E Hget.
  destruct (atomicMoveOrder_cases now orderID source destination)
    as [(_ & E') | [(order & _ & _ & _ & E') | (order & order' & Hsrc & Hrel & Hcase)]].
  - rewrite E' in E. injection E as <- <- <-. now exists o'.
  - rewrite E' in E. injection E as <- <- <-. now exists o'.
  - assert (Ht : Temperature (Order_ order') = Temperature (Order_ order)).
    { destruct Hrel as [[_ ->] | [_ Href]]; [reflexivity |].
      now apply refreshOrder_ID in Href. }
    cbv zeta in Hcase.
    destruct (putInFirstWithRoom (Storages destination) orderID order')
      as [units |]; rewrite Hcase in E; injection E as <- <- <-;
      unfold GetOrder in *; simpl in Hget.
    + destruct (string_dec k orderID) as [-> | Hne].
      * rewrite get_delete_same in Hget. discriminate.
      * rewrite get_delete_other, get_set_other in Hget by exact Hne. now exists o'.
    + destruct (string_dec k orderID) as [-> | Hne].
      * rewrite get_set_same in Hget. injection Hget as <-. now exists order.
      * rewrite get_set_other in Hget by exact Hne. now exists o'.
Qed.

Lemma moveFromShelves_destination_temperature (now : Z) (orderID : string)
  (shelves shelves' : list Storage) (destination destination' : StorageGroup)
  (moved : bool) (T : string) :
  moveFromShelves now orderID shelves destination = (moved, shelves', destination') ->
  all_temperature T (Storages destination) ->
  (forall s o, In s shelves -> GetOrder s orderID = Some o ->
               Temperature (Order_ o) = T) ->
  all_temperature T (Storages destination').
Proof.
  revert shelves' destination destination' moved.
  induction shelves as [| shelf rest IH];
    intros shelves' destination destination' moved; cbn [moveFromShelves].
  - now intros [= <- <- <-].
  - destruct (atomicMoveOrder now orderID shelf destination) as [[m shelf1] d1] eqn:Ea.
    assert (H1 : all_temperature T (Storages destination) ->
                 (forall s o, In s (shelf :: rest) -> GetOrder s orderID = Some o ->
                              Temperature (Order_ o) = T) ->
                 all_temperature T (Storages d1)).
    { intros HT Hs. eapply atomicMoveOrder_destination_temperature; eauto.
      intros o Ho. apply (Hs shelf o); [now left | exact Ho]. }
    destruct m.
    + intros [= <- <- <-]. exact H1.
    + destruct (moveFromShelves now orderID rest d1) as [[r rest'] d2] eqn:Er.
      intros [= <- <- <-] HT Hs. eapply IH; [exact Er | now apply H1 |].
      intros s o Hin. apply Hs. now right.
Qed.

Lemma moveFromShelves_source_temperature (now : Z) (orderID : string)
  (shelves shelves' : list Storage) (destination destination' : StorageGroup)
  (moved : bool) (s' : Storage) (k : string) (o' : StoredOrder) :
  moveFromShelves now orderID shelves destination = (moved, shelves', destination') ->
  In s' shelves' -> GetOrder s' k = Some o' ->
  exists s o, In s shelves /\ GetOrder s k = Some o
              /\ Temperature (Order_ o') = Temperature (Order_ o).
Proof.
  revert shelves' destination destination' moved.
  induction shelves as [| shelf rest IH];
    intros shelves' destination destination' moved; cbn [moveFromShelves].
  - intros [= <- <- <-] [].
  - destruct (atomicMoveOrder now orderID shelf destination) as [[m shelf1] d1] eqn:Ea.
    assert (H1 : GetOrder shelf1 k = Some o' ->
                 exists s o, In s (shelf :: rest) /\ GetOrder s k = Some o
                             /\ Temperature (Order_ o') = Temperature (Order_ o)).
    { intros Hget.
      destruct (atomicMoveOrder_source_temperature _ _ _ _ _ _ _ k o' Ea Hget)
        as (o & Ho & Et).
      exists shelf, o. split; [now left | auto]. }
    destruct m.
    + intros [= <- <- <-] [<- | Hin] Hget; [now apply H1 |].
      exists s', o'. split; [now right | auto].
    + destruct (moveFromShelves now orderID rest d1) as [[r rest'] d2] eqn:Er.
      intros [= <- <- <-] [<- | Hin] Hget; [now apply H1 |].
      destruct (IH _ _ _ _ Er Hin Hget) as (s & o & Hs & Hg & Et).
      exists s, o. split; [now right | auto].
Qed.

Lemma agree_moveFromShelves (now : Z) (orderID : string) (orders : list StoredOrder)
  (shelves shelves' : list Storage) (destination destination' : StorageGroup)
  (moved : bool) :
  moveFromShelves now orderID shelves destination = (moved, shelves', destination') ->
  agree orders shelves -> agree orders shelves'.
Proof.
  intros E A so s' o' Hso Hs' Hget.
  destruct (moveFromShelves_source_temperature _ _ _ _ _ _ _ s' _ o' E Hs' Hget)
    as (s & o & Hs & Hg & ->).
  exact (A so s o Hso Hs Hg).
Qed.

Lemma agree_tail (so : StoredOrder) (orders : list StoredOrder)
  (shelves : list Storage) :
  agree (so :: orders) shelves -> agree orders shelves.
Proof. intros A so' s o Hso. apply A. now right. Qed.

Lemma agree_listing (shelves : list Storage) :
  Forall keyed shelves -> NoDup (units_ids shelves) ->
  agree (flat_map Storage_ListOrders shelves) shelves.
Proof.
  intros K N so s o Hso Hs Hget.
  destruct (lookup_of_listed shelves so s K N Hso Hs) as [E | E];
    rewrite E in Hget; [discriminate | now injection Hget as <-].
Qed.

Lemma tryMoveOrders_temperature (now : Z) (temp : string) (orders : list StoredOrder)
  (shelves shelves' : list Storage) (destination destination' : StorageGroup)
  (r : option string) :
  tryMoveOrders now temp orders shelves destination = (r, shelves', destination') ->
  agree orders shelves ->
  all_temperature temp (Storages destination) ->
  all_temperature temp (Storages destination').
Proof.
  revert shelves destination.
  induction orders as [| so rest IH]; intros shelves destination;
    cbn [tryMoveOrders].
  - now intros [= <- <- <-].
  - destruct (String.eqb_spec (Temperature (Order_ so)) temp) as [Et | Nt].
    + destruct (moveFromShelves now (ID (Order_ so)) shelves destination)
        as [[m sh1] d1] eqn:Em.
      intros E A HT.
      assert (H1 : all_temperature temp (Storages d1)).
      { eapply moveFromShelves_destination_temperature; [exact Em | exact HT |].
        intros s o Hs Hget. rewrite <- Et. apply (A so s o); auto. now left. }
      destruct m.
      * injection E as <- <- <-. exact H1.
      * eapply IH; [exact E | | exact H1].
        apply agree_tail with (so := so).
        eapply agree_moveFromShelves; [exact Em | exact A].
    + intros E A HT. eapply IH; [exact E | | exact HT].
      now apply agree_tail with (so := so).
Qed.

Lemma NoDup_shelf_ids (fs : FulfillmentSystem) :
  NoDup (all_ids fs) -> NoDup (units_ids (Storages (ShelfGroup fs))).
Proof.
  unfold all_ids, all_units. rewrite !units_ids_app. intros N.
  apply NoDup_app_remove_l in N. now apply NoDup_app_remove_l in N.
Qed.

Lemma tryMoveFromShelfGroup_sorted (now : Z) (fs : FulfillmentSystem) (temp : string) :
  Forall keyed (Storages (ShelfGroup fs)) ->
  NoDup (all_ids fs) ->
  sorted_by_temperature fs ->
  sorted_by_temperature (snd (tryMoveFromShelfGroup now fs temp)).
Proof.
  intros K N [Hh Hc]. apply NoDup_shelf_ids in N.
  pose proof (agree_listing _ K N) as A.
  unfold tryMoveFromShelfGroup.
  destruct (String.eqb_spec temp TEMP_TYPE_HOT) as [-> | Nhot].
  - destruct (tryMoveOrders now TEMP_TYPE_HOT (StorageGroup_ListOrders (ShelfGroup fs))
                (Storages (ShelfGroup fs)) (idealGroup fs ToHeater))
      as [[r sh] d] eqn:E.
    pose proof (tryMoveOrders_temperature _ _ _ _ _ _ _ _ E A Hh) as Hd.
    destruct r; simpl; split; assumption.
  - destruct (String.eqb_spec temp TEMP_TYPE_COLD) as [-> | Ncold];
      [| simpl; now split].
    destruct (tryMoveOrders now TEMP_TYPE_COLD (StorageGroup_ListOrders (ShelfGroup fs))
                (Storages (ShelfGroup fs)) (idealGroup fs ToCooler))
      as [[r sh] d] eqn:E.
    pose proof (tryMoveOrders_temperature _ _ _ _ _ _ _ _ E A Hc) as Hd.
    destruct r; simpl; split; assumption.
Qed.

Lemma moveToIdeal_sorted (now : Z) (fs : FulfillmentSystem) (so : StoredOrder)
  (orders : list StoredOrder) (g : IdealGroup) :
  Temperature (Order_ so) = idealTemperature g ->
  agree (so :: orders) (Storages (ShelfGroup fs)) ->
  sorted_by_temperature fs ->
  sorted_by_temperature (moveToIdeal now fs (ID (Order_ so)) g)
  /\ agree orders (Storages (ShelfGroup (moveToIdeal now fs (ID (Order_ so)) g))).
Proof.
  intros Et A [Hh Hc]. unfold moveToIdeal.
  destruct (moveFromShelves now (ID (Order_ so)) (Storages (ShelfGroup fs))
              (idealGroup fs g)) as [[m sh] d] eqn:Em.
  assert (Hd : all_temperature (idealTemperature g) (Storages d)).
  { eapply moveFromShelves_destination_temperature; [exact Em | now destruct g |].
    intros s o Hs Hget. rewrite <- Et. apply (A so s o); auto. now left. }
  pose proof (agree_tail _ _ _ (agree_moveFromShelves _ _ _ _ _ _ _ _ Em A)) as A'.
  destruct m, g; simpl; (split; [split; assumption | exact A']).
Qed.

Lemma reallocateLoop_sorted (now : Z) (orders : list StoredOrder)
  (fs : FulfillmentSystem) :
  agree orders (Storages (ShelfGroup fs)) ->
  sorted_by_temperature fs ->
  sorted_by_temperature (reallocateLoop now orders fs).
Proof.
  revert fs. induction orders as [| so rest IH]; intros fs A S;
    cbn [reallocateLoop]; [exact S |].
  destruct (String.eqb_spec (Temperature (Order_ so)) TEMP_TYPE_HOT) as [Ehot | Nhot].
  - destruct (negb (StorageGroup_IsFull (HeaterGroup fs))); cbn [andb].
    + destruct (moveToIdeal_sorted now fs so rest ToHeater Ehot A S) as [S' A'].
      now apply IH.
    + destruct (String.eqb_spec (Temperature (Order_ so)) TEMP_TYPE_COLD)
        as [Ecold | Ncold]; cbn [andb];
        [| apply IH; [now apply agree_tail with (so := so) | exact S]].
      destruct (negb (StorageGroup_IsFull (CoolerGroup fs)));
        [| apply IH; [now apply agree_tail with (so := so) | exact S]].
      destruct (moveToIdeal_sorted now fs so rest ToCooler Ecold A S) as [S' A'].
      now apply IH.
  - cbn [andb].
    destruct (String.eqb_spec (Temperature (Order_ so)) TEMP_TYPE_COLD)
      as [Ecold | Ncold]; cbn [andb];
      [| apply IH; [now apply agree_tail with (so := so) | exact S]].
    destruct (negb (StorageGroup_IsFull (CoolerGroup fs)));
      [| apply IH; [now apply agree_tail with (so := so) | exact S]].
    destruct (moveToIdeal_sorted now fs so rest ToCooler Ecold A S) as [S' A'].
    now apply IH.
Qed.

Lemma reallocateTick_sorted (now : Z) (fs : FulfillmentSystem) :
  Forall keyed (Storages (ShelfGroup fs)) ->
  NoDup (all_ids fs) ->
  sorted_by_temperature fs ->
  sorted_by_temperature (reallocateTick now fs).
Proof.
  intros K N S. unfold reallocateTick. destruct (negb _); [exact S |].
  apply reallocateLoop_sorted; [| exact S].
  apply agree_listing; [exact K | now apply NoDup_shelf_ids].
Qed.

Lemma StorageGroup_Add_temperature (sg sg' : StorageGroup) (order : StoredOrder)
  (ok : bool) (T : string) :
  StorageGroup_Add sg order = (ok, sg') ->
  Temperature (Order_ order) = T ->
  all_temperature T (Storages sg) -> all_temperature T (Storages sg').
Proof.
  unfold StorageGroup_Add.
  destruct (addToUnits_spec (Storages sg) order)
    as [(_ & E) | (before & s & after & Eunits & _ & _ & E)]; rewrite E.
  - now intros [= _ <-].
  - intros [= _ <-] Et HT. simpl. unfold all_temperature in *. rewrite Eunits in HT.
    apply Forall_app in HT. destruct HT as [Hb Hsa].
    inversion Hsa as [| ? ? Hs Ha]; subst.
    apply Forall_app. split; [exact Hb |]. constructor; [| exact Ha].
    simpl. now apply Forall_set.
Qed.

Lemma StorageGroup_Remove_temperature (sg sg' : StorageGroup) (orderID : string)
  (r : option StoredOrder) (T : string) :
  StorageGroup_Remove sg orderID = (r, sg') ->
  all_temperature T (Storages sg) -> all_temperature T (Storages sg').
Proof.
  unfold StorageGroup_Remove.
  destruct (removeFromUnits_spec (Storages sg) orderID)
    as [(_ & E) | (before & s & after & so & Eunits & _ & _ & E)]; rewrite E.
  - now intros [= _ <-].
  - intros [= _ <-] HT. simpl. unfold all_temperature in *. rewrite Eunits in HT.
    apply Forall_app in HT. destruct HT as [Hb Hsa].
    inversion Hsa as [| ? ? Hs Ha]; subst.
    apply Forall_app. split; [exact Hb |]. constructor; [| exact Ha].
    simpl. now apply Forall_delete.
Qed.

Lemma sorted_same_groups (fs fs' : FulfillmentSystem) :
  HeaterGroup fs' = HeaterGroup fs -> CoolerGroup fs' = CoolerGroup fs ->
  sorted_by_temperature fs -> sorted_by_temperature fs'.
Proof. unfold sorted_by_temperature. now intros -> ->. Qed.

Lemma keyed_system_evolves (fs fs' : FulfillmentSystem) :
  system_evolves fs fs' ->
  Forall keyed (Storages (ShelfGroup fs)) ->
  Forall keyed (Storages (ShelfGroup fs')).
Proof.
  intros (S & _ & _). induction S as [| s s' l l' [_ Hk] _ IH]; intros K;
    [constructor |].
  inversion K; subst. constructor; auto.
Qed.

Lemma NoDup_occ_le (fs fs' : FulfillmentSystem) :
  (forall x, (occ (all_ids fs') x <= occ (all_ids fs) x)%nat) ->
  NoDup (all_ids fs) -> NoDup (all_ids fs').
Proof.
  intros Hle N. apply (NoDup_count_occ string_dec). intros x.
  apply (proj1 (NoDup_count_occ string_dec _)) with (x := x) in N.
  specialize (Hle x). lia.
Qed.

Lemma discardOrderFromShelfGroup_sorted (now : Z) (fs : FulfillmentSystem) :
  Forall keyed (Storages (ShelfGroup fs)) ->
  NoDup (all_ids fs) ->
  sorted_by_temperature fs ->
  sorted_by_temperature (discardOrderFromShelfGroup now fs).
Proof.
  intros K N S. unfold discardOrderFromShelfGroup.
  destruct (GetLeastFreshOrder now (ShelfGroup fs)) as [candidate |]; [| exact S].
  pose proof (tryMoveFromShelfGroup_sorted now fs (Temperature (Order_ candidate)) K N S)
    as S1.
  destruct (tryMoveFromShelfGroup now fs (Temperature (Order_ candidate)))
    as [moved fs1]. simpl in S1.
  destruct moved; [exact S1 |].
  destruct (StorageGroup_Remove (ShelfGroup fs1) (ID (Order_ candidate)))
    as [[removed |] shelf']; exact S1.
Qed.

Lemma placeOnShelf_sorted (now : Z) (fs fs' : FulfillmentSystem)
  (storedOrder : StoredOrder) :
  placeOnShelf now fs storedOrder = Some fs' ->
  sorted_by_temperature fs -> sorted_by_temperature fs'.
Proof.
  unfold placeOnShelf.
  destruct (StorageGroup_Add (ShelfGroup fs) storedOrder) as [[|] shelf'];
    [| discriminate].
  now intros [= <-].
Qed.

Lemma discardThenPlace_sorted (now : Z) (fs : FulfillmentSystem)
  (storedOrder : StoredOrder) :
  Forall keyed (Storages (ShelfGroup fs)) ->
  NoDup (all_ids fs) ->
  sorted_by_temperature fs ->
  sorted_by_temperature (discardThenPlace now fs storedOrder).
Proof.
  intros K N S. unfold discardThenPlace.
  set (fs1 := if StorageGroup_IsFull (ShelfGroup fs)
              then discardOrderFromShelfGroup now fs else fs).
  assert (S1 : sorted_by_temperature fs1).
  { subst fs1. destruct (StorageGroup_IsFull (ShelfGroup fs));
      [now apply discardOrderFromShelfGroup_sorted | exact S]. }
  destruct (placeOnShelf now fs1 storedOrder) as [fs2 |] eqn:E; [| exact S1].
  exact (placeOnShelf_sorted _ _ _ _ E S1).
Qed.

Lemma PlaceOrder_sorted (now : Z) (fs : FulfillmentSystem) (order : Order) :
  Forall keyed (Storages (ShelfGroup fs)) ->
  NoDup (all_ids fs) ->
  sorted_by_temperature fs ->
  sorted_by_temperature (PlaceOrder now fs order).
Proof.
  intros K N S. unfold PlaceOrder.
  set (storedOrder := {| Order_ := order; PlacedAt := now |}).
  destruct (String.eqb_spec (Temperature order) TEMP_TYPE_HOT) as [Ehot | Nhot];
    cbn [orb].
  - destruct (StorageGroup_Add (idealGroup fs ToHeater) storedOrder)
      as [[|] ideal'] eqn:Eadd.
    { destruct S as [Hh Hc]. split; [| exact Hc]. simpl.
      exact (StorageGroup_Add_temperature _ _ _ _ _ Eadd Ehot Hh). }
    destruct (placeOnShelf now fs storedOrder) as [fs1 |] eqn:E1;
      [exact (placeOnShelf_sorted _ _ _ _ E1 S) |].
    destruct (StorageGroup_IsFull (ShelfGroup fs));
      [| now apply discardThenPlace_sorted].
    pose proof (tryMoveFromShelfGroup_sorted now fs (Temperature order) K N S) as S1.
    pose proof (keyed_system_evolves _ _
                  (tryMoveFromShelfGroup_evolves now fs (Temperature order)) K) as K1.
    pose proof (NoDup_occ_le _ _ (tryMoveFromShelfGroup_occ now fs (Temperature order)) N)
      as N1.
    destruct (tryMoveFromShelfGroup now fs (Temperature order)) as [moved fs1].
    simpl in S1, K1, N1.
    destruct moved; [| now apply discardThenPlace_sorted].
    destruct (placeOnShelf now fs1 storedOrder) as [fs2 |] eqn:E2;
      [exact (placeOnShelf_sorted _ _ _ _ E2 S1) | now apply discardThenPlace_sorted].
  - destruct (String.eqb_spec (Temperature order) TEMP_TYPE_COLD) as [Ecold | Ncold].
    + destruct (StorageGroup_Add (idealGroup fs ToCooler) storedOrder)
        as [[|] ideal'] eqn:Eadd.
      { destruct S as [Hh Hc]. split; [exact Hh |]. simpl.
        exact (StorageGroup_Add_temperature _ _ _ _ _ Eadd Ecold Hc). }
      destruct (placeOnShelf now fs storedOrder) as [fs1 |] eqn:E1;
        [exact (placeOnShelf_sorted _ _ _ _ E1 S) |].
      destruct (StorageGroup_IsFull (ShelfGroup fs));
        [| now apply discardThenPlace_sorted].
      pose proof (tryMoveFromShelfGroup_sorted now fs (Temperature order) K N S) as S1.
      pose proof (keyed_system_evolves _ _
                    (tryMoveFromShelfGroup_evolves now fs (Temperature order)) K) as K1.
      pose proof (NoDup_occ_le _ _
                    (tryMoveFromShelfGroup_occ now fs (Temperature order)) N) as N1.
      destruct (tryMoveFromShelfGroup now fs (Temperature order)) as [moved fs1].
      simpl in S1, K1, N1.
      destruct moved; [| now apply discardThenPlace_sorted].
      destruct (placeOnShelf now fs1 storedOrder) as [fs2 |] eqn:E2;
        [exact (placeOnShelf_sorted _ _ _ _ E2 S1) | now apply discardThenPlace_sorted].
    + destruct (placeOnShelf now fs storedOrder) as [fs1 |] eqn:E1;
        [exact (placeOnShelf_sorted _ _ _ _ E1 S) | now apply discardThenPlace_sorted].
Qed.

Lemma PickupOrder_sorted (now : Z) (fs : FulfillmentSystem) (orderID : string) :
  sorted_by_temperature fs -> sorted_by_temperature (PickupOrder now fs orderID).
Proof.
  intros [Hh Hc]. unfold PickupOrder.
  destruct (StorageGroup_Remove (HeaterGroup fs) orderID) as [[so |] heater'] eqn:Eh.
  { split; [| exact Hc]. simpl. exact (StorageGroup_Remove_temperature _ _ _ _ _ Eh Hh). }
  destruct (StorageGroup_Remove (CoolerGroup fs) orderID) as [[so |] cooler'] eqn:Ec.
  { split; [exact Hh |]. simpl. exact (StorageGroup_Remove_temperature _ _ _ _ _ Ec Hc). }
  destruct (StorageGroup_Remove (ShelfGroup fs) orderID) as [[so |] shelf'];
    now split.
Qed.

Lemma updateUnit_temperature (n i : nat) (units : list Storage) (T : string) :
  all_temperature T units ->
  all_temperature T
    (updateUnit n (fun s => with_Orders s (swapCells i (Orders s))) units).
Proof.
  unfold all_temperature. revert n.
  induction units as [| s rest IH]; intros n F; destruct n; simpl;
    try constructor; inversion F; subst; auto.
  simpl. eapply Permutation_Forall; [| eassumption].
  apply Permutation_sym, swapCells_Permutation.
Qed.

Lemma reorderUnit_sorted (fs : FulfillmentSystem) (g : GroupName) (n i : nat) :
  sorted_by_temperature fs -> sorted_by_temperature (reorderUnit fs g n i).
Proof.
  intros [Hh Hc]. destruct g; split; simpl; auto using updateUnit_temperature.
Qed.

Lemma step_sorted (now : Z) (op : Op) (fs : FulfillmentSystem) :
  (forall orderID g, op <> OpMove orderID g) ->
  Forall keyed (Storages (ShelfGroup fs)) ->
  NoDup (all_ids fs) ->
  sorted_by_temperature fs ->
  sorted_by_temperature (step now op fs).
Proof.
  intros Hop K N S.
  destruct op as [order | orderID | | orderID g | temp | | g n i]; cbn [step].
  - now apply PlaceOrder_sorted.
  - now apply PickupOrder_sorted.
  - now apply reallocateTick_sorted.
  - now contradiction (Hop orderID g).
  - now apply tryMoveFromShelfGroup_sorted.
  - now apply discardOrderFromShelfGroup_sorted.
  - now apply reorderUnit_sorted.
Qed.

Lemma NewFulfillmentSystem_keyed (cfg : FulfillmentConfig) :
  Forall keyed (Storages (ShelfGroup (NewFulfillmentSystem cfg))).
Proof.
  simpl. unfold newUnits. apply Forall_map. apply Forall_forall. intros i _.
  unfold keyed. simpl. constructor.
Qed.

Lemma run_sorted (cfg : FulfillmentConfig) (trace : list (Z * Op)) :
  NoDup (placedIDs trace) ->
  Forall (fun e => forall orderID g, snd e <> OpMove orderID g) trace ->
  sorted_by_temperature (run trace (NewFulfillmentSystem cfg)).
Proof.
  induction trace as [| [now op] rest IH] using rev_ind; intros N F.
  - assert (H : forall prefix n cap T, all_temperature T (newUnits prefix n cap)).
    { intros prefix n cap T. unfold all_temperature.
      eapply Forall_impl; [| apply newUnits_fresh]. intros s [_ ->]. constructor. }
    split; simpl; apply H.
  - rewrite run_snoc.
    apply Forall_app in F. destruct F as [Frest Fop].
    inversion Fop as [| ? ? Hop _]; subst. simpl in Hop.
    assert (Nrest : NoDup (placedIDs rest)).
    { unfold placedIDs in N. rewrite flat_map_app in N.
      now apply NoDup_app_remove_r in N. }
    apply step_sorted; [exact Hop | | now apply run_ids_NoDup | now apply IH].
    eapply keyed_system_evolves; [apply run_evolves | apply NewFulfillmentSystem_keyed].
Qed.

(** X21.  Heaters hold hot orders, coolers cold ones.  After any run of
    placements with pairwise distinct ids, pickups, reallocation ticks, move
    attempts, discards and changes of enumeration order, started on the
    empty system, every order stored in a unit of the heater group is hot
    and every order stored in a unit of the cooler group is cold: neither a
    placement nor a reallocation ever files an order in the wrong group. *)
Theorem ideal_groups_sorted_by_temperature (cfg : FulfillmentConfig)
  (trace : list (Z * Op)) :
  NoDup (placedIDs trace) ->
  Forall (fun e => forall orderID g, snd e <> OpMove orderID g) trace ->
  (forall s so,
      In s (Storages (HeaterGroup (run trace (NewFulfillmentSystem cfg)))) ->
      In so (Storage_ListOrders s) ->
      Temperature (Order_ so) = TEMP_TYPE_HOT)
  /\ (forall s so,
         In s (Storages (CoolerGroup (run trace (NewFulfillmentSystem cfg)))) ->
         In so (Storage_ListOrders s) ->
         Temperature (Order_ so) = TEMP_TYPE_COLD).
Proof.
  intros N F. destruct (run_sorted cfg trace N F) as [Hh Hc].
  unfold all_temperature in Hh, Hc. rewrite Forall_forall in Hh, Hc.
  split; intros s so Hs Hso; unfold Storage_ListOrders, GoMap.values in Hso;
    apply in_map_iff in Hso; destruct Hso as (e & <- & He).
  - specialize (Hh s Hs). rewrite Forall_forall in Hh. now apply Hh.
  - specialize (Hc s Hs). rewrite Forall_forall in Hc. now apply Hc.
Qed.

Lemma ideal_groups_sorted_by_temperature_witness :
  (forall s so,
      In s (Storages (HeaterGroup (run overflowRun (NewFulfillmentSystem smallConfig)))) ->
      In so (Storage_ListOrders s) ->
      Temperature (Order_ so) = TEMP_TYPE_HOT)
  /\ (forall s so,
         In s (Storages (CoolerGroup (run overflowRun (NewFulfillmentSystem smallConfig)))) ->
         In so (Storage_ListOrders s) ->
         Temperature (Order_ so) = TEMP_TYPE_COLD).
Proof.
  apply (ideal_groups_sorted_by_temperature smallConfig overflowRun).
  - let l := eval vm_compute in (placedIDs overflowRun) in
    change (placedIDs overflowRun) with l.
    repeat (apply NoDup_cons || apply NoDup_nil); simpl; intuition discriminate.
  - unfold overflowRun.
    repeat (apply Forall_cons || apply Forall_nil); simpl; discriminate.
Defined.

(* ------------------------------------------------------------------ *)
(** ** Orders are filed under their own id *)

Lemma keyed_units_evolve (l l' : list Storage) :
  Forall2 shelf_evolves l l' -> Forall keyed l -> Forall keyed l'.
Proof.
  induction 1 as [| s s' l l' [_ Hk] _ IH]; intros K; [constructor |].
  inversion K; subst. constructor; auto.
Qed.

Lemma atomicMoveOrder_destination_keyed (now : Z) (orderID : string)
  (source source' : Storage) (destination destination' : StorageGroup)
  (moved : bool) :
  atomicMoveOrder now orderID source destination = (moved, source', destination') ->
  keyed source ->
  Forall keyed (Storages destination) ->
  Forall keyed (Storages destination').
Proof.
  intros E Ks Kd.
  destruct (atomicMoveOrder_cases now orderID source destination)
    as [(_ & E') | [(order & _ & _ & _ & E') | (order & order' & Hget & Hrel & Hcase)]].
  - rewrite E' in E. injection E as <- <- <-. exact Kd.
  - rewrite E' in E. injection E as <- <- <-. exact Kd.
  - cbv zeta in Hcase.
    destruct (putInFirstWithRoom (Storages destination) orderID order')
      as [units |] eqn:Eput; rewrite Hcase in E; injection E as <- <- <-;
      [| exact Kd].
    destruct (putInFirstWithRoom_Some _ _ _ _ Eput)
      as (before & d & after & Hu & Hu' & _ & _).
    subst units. simpl. rewrite Hu in Kd.
    apply Forall_app in Kd. destruct Kd as [Hb Hda].
    inversion Hda as [| ? ? Hd Ha]; subst.
    apply Forall_app. split; [exact Hb |]. constructor; [| exact Ha].
    apply keyed_set; [| exact Hd].
    rewrite (keyed_get _ _ _ Ks Hget).
    destruct Hrel as [[_ ->] | [_ Href]]; [reflexivity |].
    apply refreshOrder_ID in Href. now destruct Href as [-> _].
Qed.

Lemma moveFromShelves_destination_keyed (now : Z) (orderID : string)
  (shelves shelves' : list Storage) (destination destination' : StorageGroup)
  (moved : bool) :
  moveFromShelves now orderID shelves destination = (moved, shelves', destination') ->
  Forall keyed shelves ->
  Forall keyed (Storages destination) ->
  Forall keyed (Storages destination').
Proof.
  revert shelves' destination destination' moved.
  induction shelves as [| shelf rest IH];
    intros shelves' destination destination' moved; cbn [moveFromShelves].
  - now intros [= <- <- <-].
  - destruct (atomicMoveOrder now orderID shelf destination) as [[m shelf1] d1] eqn:Ea.
    intros E K Kd. inversion K as [| ? ? Ks Krest]; subst.
    pose proof (atomicMoveOrder_destination_keyed _ _ _ _ _ _ _ Ea Ks Kd) as K1.
    destruct m.
    + injection E as <- <- <-. exact K1.
    + destruct (moveFromShelves now orderID rest d1) as [[r rest'] d2] eqn:Er.
      injection E as <- <- <-. exact (IH _ _ _ _ Er Krest K1).
Qed.

Lemma tryMoveOrders_destination_keyed (now : Z) (temp : string)
  (orders : list StoredOrder) (shelves shelves' : list Storage)
  (destination destination' : StorageGroup) (r : option string) :
  tryMoveOrders now temp orders shelves destination = (r, shelves', destination') ->
  Forall keyed shelves ->
  Forall keyed (Storages destination) ->
  Forall keyed (Storages destination').
Proof.
  revert shelves destination.
  induction orders as [| so rest IH]; intros shelves destination;
    cbn [tryMoveOrders].
  - now intros [= <- <- <-].
  - destruct (String.eqb (Temperature (Order_ so)) temp); [| apply IH].
    pose proof (moveFromShelves_evolves now (ID (Order_ so)) shelves destination)
      as [Hev _].
    destruct (moveFromShelves now (ID (Order_ so)) shelves destination)
      as [[m sh1] d1] eqn:Em.
    simpl in Hev. intros E K Kd.
    pose proof (moveFromShelves_destination_keyed _ _ _ _ _ _ _ Em K Kd) as K1.
    destruct m.
    + injection E as <- <- <-. exact K1.
    + exact (IH _ _ E (keyed_units_evolve _ _ Hev K) K1).
Qed.

Lemma ideal_keyed_with (fs : FulfillmentSystem) (g : IdealGroup)
  (shelf destination : StorageGroup) :
  ideal_keyed fs ->
  Forall keyed (Storages destination) ->
  ideal_keyed (with_idealGroup (with_ShelfGroup fs shelf) g destination).
Proof. intros [Hh Hc] Hd. destruct g; split; assumption. Qed.

Lemma ideal_keyed_group (fs : FulfillmentSystem) (g : IdealGroup) :
  ideal_keyed fs -> Forall keyed (Storages (idealGroup fs g)).
Proof. intros [Hh Hc]. now destruct g. Qed.

Lemma tryMoveFromShelfGroup_ideal_keyed (now : Z) (fs : FulfillmentSystem)
  (temp : string) :
  Forall keyed (Storages (ShelfGroup fs)) ->
  ideal_keyed fs ->
  ideal_keyed (snd (tryMoveFromShelfGroup now fs temp)).
Proof.
  intros K I.
  assert (Hg : forall g,
            ideal_keyed
              (snd (let '(moved, shelves, destination) :=
                      tryMoveOrders now temp (StorageGroup_ListOrders (ShelfGroup fs))
                        (Storages (ShelfGroup fs)) (idealGroup fs g) in
                    let fs' := with_idealGroup (with_ShelfGroup fs (mkGroup shelves))
                                 g destination in
                    match moved with
                    | Some orderID => (true, logAction fs' orderID ACTION_TYPE_MOVE now)
                    | None => (false, fs')
                    end))).
  { intros g.
    destruct (tryMoveOrders now temp (StorageGroup_ListOrders (ShelfGroup fs))
                (Storages (ShelfGroup fs)) (idealGroup fs g))
      as [[moved shelves] destination] eqn:E.
    pose proof (tryMoveOrders_destination_keyed _ _ _ _ _ _ _ _ E K
                  (ideal_keyed_group fs g I)) as Hd.
    pose proof (ideal_keyed_with fs g (mkGroup shelves) destination I Hd) as H.
    destruct moved; exact H. }
  unfold tryMoveFromShelfGroup.
  destruct (String.eqb temp TEMP_TYPE_HOT); [apply Hg |].
  destruct (String.eqb temp TEMP_TYPE_COLD); [apply Hg | exact I].
Qed.

Lemma moveToIdeal_ideal_keyed (now : Z) (fs : FulfillmentSystem)
  (orderID : string) (g : IdealGroup) :
  Forall keyed (Storages (ShelfGroup fs)) ->
  ideal_keyed fs ->
  ideal_keyed (moveToIdeal now fs orderID g).
Proof.
  intros K I. unfold moveToIdeal.
  destruct (moveFromShelves now orderID (Storages (ShelfGroup fs)) (idealGroup fs g))
    as [[moved shelves] destination] eqn:E.
  pose proof (moveFromShelves_destination_keyed _ _ _ _ _ _ _ E K
                (ideal_keyed_group fs g I)) as Hd.
  pose proof (ideal_keyed_with fs g (mkGroup shelves) destination I Hd) as H.
  destruct moved; exact H.
Qed.

Lemma reallocateTick_ideal_keyed (now : Z) (fs : FulfillmentSystem) :
  Forall keyed (Storages (ShelfGroup fs)) ->
  ideal_keyed fs ->
  ideal_keyed (reallocateTick now fs).
Proof.
  unfold reallocateTick. destruct (negb _); [auto |].
  generalize (StorageGroup_ListOrders (ShelfGroup fs)). intros orders. revert fs.
  induction orders as [| so rest IH]; intros fs K I; cbn [reallocateLoop];
    [exact I |].
  assert (Hmove : forall g,
            Forall keyed (Storages (ShelfGroup (moveToIdeal now fs (ID (Order_ so)) g)))
            /\ ideal_keyed (moveToIdeal now fs (ID (Order_ so)) g)).
  { intros g. split; [| now apply moveToIdeal_ideal_keyed].
    eapply keyed_system_evolves; [apply moveToIdeal_evolves | exact K]. }
  destruct (_ && _); [apply IH; apply Hmove |].
  destruct (_ && _); [apply IH; apply Hmove | now apply IH].
Qed.

Lemma discardOrderFromShelfGroup_ideal_keyed (now : Z) (fs : FulfillmentSystem) :
  Forall keyed (Storages (ShelfGroup fs)) ->
  ideal_keyed fs ->
  ideal_keyed (discardOrderFromShelfGroup now fs).
Proof.
  intros K I. unfold discardOrderFromShelfGroup.
  destruct (GetLeastFreshOrder now (ShelfGroup fs)) as [candidate |]; [| exact I].
  pose proof (tryMoveFromShelfGroup_ideal_keyed now fs
                (Temperature (Order_ candidate)) K I) as I1.
  destruct (tryMoveFromShelfGroup now fs (Temperature (Order_ candidate)))
    as [moved fs1]. simpl in I1.
  destruct moved; [exact I1 |].
  destruct (StorageGroup_Remove (ShelfGroup fs1) (ID (Order_ candidate)))
    as [[removed |] shelf']; exact I1.
Qed.

Lemma placeOnShelf_ideal_keyed (now : Z) (fs fs' : FulfillmentSystem)
  (storedOrder : StoredOrder) :
  placeOnShelf now fs storedOrder = Some fs' -> ideal_keyed fs -> ideal_keyed fs'.
Proof.
  unfold placeOnShelf.
  destruct (StorageGroup_Add (ShelfGroup fs) storedOrder) as [[|] shelf'];
    [| discriminate].
  now intros [= <-].
Qed.

Lemma discardThenPlace_ideal_keyed (now : Z) (fs : FulfillmentSystem)
  (storedOrder : StoredOrder) :
  Forall keyed (Storages (ShelfGroup fs)) ->
  ideal_keyed fs ->
  ideal_keyed (discardThenPlace now fs storedOrder).
Proof.
  intros K I. unfold discardThenPlace.
  set (fs1 := if StorageGroup_IsFull (ShelfGroup fs)
              then discardOrderFromShelfGroup now fs else fs).
  assert (I1 : ideal_keyed fs1).
  { subst fs1. destruct (StorageGroup_IsFull (ShelfGroup fs));
      [now apply discardOrderFromShelfGroup_ideal_keyed | exact I]. }
  destruct (placeOnShelf now fs1 storedOrder) as [fs2 |] eqn:E; [| exact I1].
  exact (placeOnShelf_ideal_keyed _ _ _ _ E I1).
Qed.

Lemma StorageGroup_Add_keyed (sg sg' : StorageGroup) (order : StoredOrder)
  (ok : bool) :
  StorageGroup_Add sg order = (ok, sg') ->
  Forall keyed (Storages sg) -> Forall keyed (Storages sg').
Proof.
  unfold StorageGroup_Add.
  destruct (addToUnits_spec (Storages sg) order)
    as [(_ & E) | (before & s & after & Eunits & _ & _ & E)]; rewrite E.
  - now intros [= _ <-].
  - intros [= _ <-] K. simpl. rewrite Eunits in K.
    apply Forall_app in K. destruct K as [Hb Hsa].
    inversion Hsa as [| ? ? Hs Ha]; subst.
    apply Forall_app. split; [exact Hb |]. constructor; [| exact Ha].
    now apply keyed_set.
Qed.

Lemma StorageGroup_Remove_keyed (sg sg' : StorageGroup) (orderID : string)
  (r : option StoredOrder) :
  StorageGroup_Remove sg orderID = (r, sg') ->
  Forall keyed (Storages sg) -> Forall keyed (Storages sg').
Proof.
  unfold StorageGroup_Remove.
  destruct (removeFromUnits_spec (Storages sg) orderID)
    as [(_ & E) | (before & s & after & so & Eunits & _ & _ & E)]; rewrite E.
  - now intros [= _ <-].
  - intros [= _ <-] K. simpl. rewrite Eunits in K.
    apply Forall_app in K. destruct K as [Hb Hsa].
    inversion Hsa as [| ? ? Hs Ha]; subst.
    apply Forall_app. split; [exact Hb |]. constructor; [| exact Ha].
    now apply keyed_delete.
Qed.

Lemma PlaceOrder_ideal_keyed (now : Z) (fs : FulfillmentSystem) (order : Order) :
  Forall keyed (Storages (ShelfGroup fs)) ->
  ideal_keyed fs ->
  ideal_keyed (PlaceOrder now fs order).
Proof.
  intros K I. unfold PlaceOrder.
  set (storedOrder := {| Order_ := order; PlacedAt := now |}).
  destruct (_ || _).
  - set (g := if String.eqb (Temperature order) TEMP_TYPE_HOT
              then ToHeater else ToCooler).
    destruct (StorageGroup_Add (idealGroup fs g) storedOrder) as [[|] ideal'] eqn:Eadd.
    { pose proof (StorageGroup_Add_keyed _ _ _ _ Eadd (ideal_keyed_group fs g I)) as Hd.
      destruct I as [Hh Hc]. destruct g; split; assumption. }
    destruct (placeOnShelf now fs storedOrder) as [fs1 |] eqn:E1;
      [exact (placeOnShelf_ideal_keyed _ _ _ _ E1 I) |].
    destruct (StorageGroup_IsFull (ShelfGroup fs));
      [| now apply discardThenPlace_ideal_keyed].
    pose proof (tryMoveFromShelfGroup_ideal_keyed now fs (Temperature order) K I) as I1.
    pose proof (keyed_system_evolves _ _
                  (tryMoveFromShelfGroup_evolves now fs (Temperature order)) K) as K1.
    destruct (tryMoveFromShelfGroup now fs (Temperature order)) as [moved fs1].
    simpl in I1, K1.
    destruct moved; [| now apply discardThenPlace_ideal_keyed].
    destruct (placeOnShelf now fs1 storedOrder) as [fs2 |] eqn:E2;
      [exact (placeOnShelf_ideal_keyed _ _ _ _ E2 I1)
      | now apply discardThenPlace_ideal_keyed].
  - destruct (placeOnShelf now fs storedOrder) as [fs1 |] eqn:E1;
      [exact (placeOnShelf_ideal_keyed _ _ _ _ E1 I)
      | now apply discardThenPlace_ideal_keyed].
Qed.

Lemma PickupOrder_ideal_keyed (now : Z) (fs : FulfillmentSystem) (orderID : string) :
  ideal_keyed fs -> ideal_keyed (PickupOrder now fs orderID).
Proof.
  intros [Hh Hc]. unfold PickupOrder.
  destruct (StorageGroup_Remove (HeaterGroup fs) orderID) as [[so |] heater'] eqn:Eh.
  { split; [| exact Hc]. simpl. exact (StorageGroup_Remove_keyed _ _ _ _ Eh Hh). }
  destruct (StorageGroup_Remove (CoolerGroup fs) orderID) as [[so |] cooler'] eqn:Ec.
  { split; [exact Hh |]. simpl. exact (StorageGroup_Remove_keyed _ _ _ _ Ec Hc). }
  destruct (StorageGroup_Remove (ShelfGroup fs) orderID) as [[so |] shelf'];
    now split.
Qed.

Lemma updateUnit_keyed (n i : nat) (units : list Storage) :
  Forall keyed units ->
  Forall keyed (updateUnit n (fun s => with_Orders s (swapCells i (Orders s))) units).
Proof.
  revert n. induction units as [| s rest IH]; intros n F; destruct n; simpl;
    try constructor; inversion F; subst; auto.
  unfold keyed in *. simpl. eapply Permutation_Forall; [| eassumption].
  apply Permutation_sym, swapCells_Permutation.
Qed.

Lemma reorderUnit_ideal_keyed (fs : FulfillmentSystem) (g : GroupName) (n i : nat) :
  ideal_keyed fs -> ideal_keyed (reorderUnit fs g n i).
Proof.
  intros [Hh Hc]. destruct g; split; simpl; auto using updateUnit_keyed.
Qed.

Lemma step_ideal_keyed (now : Z) (op : Op) (fs : FulfillmentSystem) :
  Forall keyed (Storages (ShelfGroup fs)) ->
  ideal_keyed fs ->
  ideal_keyed (step now op fs).
Proof.
  intros K I.
  destruct op as [order | orderID | | orderID g | temp | | g n i]; cbn [step].
  - now apply PlaceOrder_ideal_keyed.
  - now apply PickupOrder_ideal_keyed.
  - now apply reallocateTick_ideal_keyed.
  - now apply moveToIdeal_ideal_keyed.
  - now apply tryMoveFromShelfGroup_ideal_keyed.
  - now apply discardOrderFromShelfGroup_ideal_keyed.
  - now apply reorderUnit_ideal_keyed.
Qed.

Lemma run_keyed (cfg : FulfillmentConfig) (trace : list (Z * Op)) :
  Forall keyed (all_units (run trace (NewFulfillmentSystem cfg))).
Proof.
  assert (Hshelf : forall tr,
            Forall keyed (Storages (ShelfGroup (run tr (NewFulfillmentSystem cfg))))).
  { intros tr. eapply keyed_system_evolves;
      [apply run_evolves | apply NewFulfillmentSystem_keyed]. }
  assert (Hideal : ideal_keyed (run trace (NewFulfillmentSystem cfg))).
  { induction trace as [| [now op] rest IH] using rev_ind.
    - assert (H : forall prefix n cap, Forall keyed (newUnits prefix n cap)).
      { intros prefix n cap. eapply Forall_impl; [| apply newUnits_fresh].
        intros s [_ Ho]. unfold keyed. rewrite Ho. constructor. }
      split; simpl; apply H.
    - rewrite run_snoc. apply step_ideal_keyed; [apply Hshelf | exact IH]. }
  destruct Hideal as [Hh Hc]. unfold all_units.
  apply Forall_app. split; [exact Hh |]. apply Forall_app. split; [exact Hc |].
  apply Hshelf.
Qed.

(* ------------------------------------------------------------------ *)
(** ** What the log says about a run *)

Lemma placeActions_app (l1 l2 : list Action) :
  placeActions (l1 ++ l2) = placeActions l1 ++ placeActions l2.
Proof. unfold placeActions. now rewrite filter_app, map_app. Qed.

Lemma placeActions_none (l : list Action) :
  Forall (fun a => Action_ a <> ACTION_TYPE_PLACE) l -> placeActions l = [].
Proof.
  unfold placeActions. induction 1 as [| a l Ha _ IH]; simpl; [reflexivity |].
  destruct (String.eqb_spec (Action_ a) ACTION_TYPE_PLACE); [contradiction | exact IH].
Qed.

Lemma run_shelf_ready (cfg : FulfillmentConfig) (trace : list (Z * Op)) :
  1 <= NumShelves cfg -> 1 <= ShelfCap cfg ->
  shelf_ready (run trace (NewFulfillmentSystem cfg)).
Proof.
  intros Hn Hc. eapply shelf_ready_evolves; [apply run_evolves |].
  now apply NewFulfillmentSystem_shelf_ready.
Qed.

(** X22.  The place actions of the log are the placements of the run.  In a
    system configured with at least one shelf unit of capacity at least one,
    after any run from the empty system, the ids named by the place actions
    of the log, read in log order, are exactly the ids of the orders handed
    to [PlaceOrder], in the order of the calls: every placement is recorded
    once, also when the same id is placed again, and no other operation
    records a place action. *)
Theorem log_records_every_placement (cfg : FulfillmentConfig)
  (trace : list (Z * Op)) :
  1 <= NumShelves cfg -> 1 <= ShelfCap cfg ->
  placeActions (Actions (run trace (NewFulfillmentSystem cfg))) = placedIDs trace.
Proof.
  intros Hn Hc. induction trace as [| [now op] rest IH] using rev_ind;
    [reflexivity |].
  rewrite run_snoc.
  assert (Hother : (forall order, op <> OpPlace order) ->
            placeActions (Actions (step now op (run rest (NewFulfillmentSystem cfg))))
            = placedIDs (rest ++ [(now, op)])).
  { intros Hop.
    destruct (step_appends now op (run rest (NewFulfillmentSystem cfg)))
      as (new & E & Hnew).
    rewrite E, placeActions_app, IH.
    unfold placedIDs at 2. rewrite flat_map_app. fold (placedIDs rest). f_equal.
    rewrite placeActions_none.
    - destruct op; simpl; try reflexivity. now contradiction (Hop order).
    - eapply Forall_impl; [| exact Hnew]. intros a [_ Hk] Hp. rewrite Hp in Hk.
      destruct op; simpl in Hk;
        try (now contradiction (Hop order));
        repeat (destruct Hk as [Hk | Hk]; [discriminate Hk |]); destruct Hk. }
  destruct op as [order | orderID | | orderID g | temp | | g n i];
    try (apply Hother; discriminate).
  cbn [step].
  destruct (PlaceOrder_places now (run rest (NewFulfillmentSystem cfg)) order
              (run_shelf_ready cfg rest Hn Hc)) as (before & E & Hb).
  rewrite E, !placeActions_app, IH, (placeActions_none _ Hb), placedIDs_snoc.
  reflexivity.
Qed.

Lemma log_records_every_placement_witness :
  placeActions (Actions (run overflowRun (NewFulfillmentSystem smallConfig)))
  = placedIDs overflowRun.
Proof.
  apply (log_records_every_placement smallConfig overflowRun);
    vm_compute; discriminate.
Defined.

Lemma names_same (ids : list string) (fs fs' : FulfillmentSystem) :
  Actions fs' = Actions fs -> names ids fs fs'.
Proof. intros E. exists []. rewrite E, app_nil_r. split; [reflexivity | constructor]. Qed.

Lemma names_one (ids : list string) (fs fs' : FulfillmentSystem) (t : Z)
  (orderID kind : string) :
  Actions fs' = Actions fs ++ [mkAction t orderID kind] ->
  In orderID ids -> names ids fs fs'.
Proof.
  intros E Hin. exists [mkAction t orderID kind]. split; [exact E |].
  constructor; [exact Hin | constructor].
Qed.

Lemma names_trans (ids : list string) (fs1 fs2 fs3 : FulfillmentSystem) :
  names ids fs1 fs2 -> names ids fs2 fs3 -> names ids fs1 fs3.
Proof.
  intros (n1 & E1 & F1) (n2 & E2 & F2). exists (n1 ++ n2).
  rewrite E2, E1, app_assoc. split; [reflexivity | now apply Forall_app].
Qed.

Lemma names_incl (ids ids' : list string) (fs fs' : FulfillmentSystem) :
  incl ids ids' -> names ids fs fs' -> names ids' fs fs'.
Proof.
  intros Hincl (new & E & F). exists new. split; [exact E |].
  eapply Forall_impl; [| exact F]. intros a Ha. now apply Hincl.
Qed.

Lemma tryMoveFromShelfGroup_names (now : Z) (fs : FulfillmentSystem) (temp : string) :
  Forall keyed (Storages (ShelfGroup fs)) ->
  names (all_ids fs) fs (snd (tryMoveFromShelfGroup now fs temp)).
Proof.
  intros K.
  destruct (tryMoveFromShelfGroup now fs temp) as [moved fs'] eqn:E.
  pose proof (tryMoveFromShelfGroup_spec now fs fs' temp moved E) as H.
  destruct moved; simpl.
  - destruct H as (so & g & Hin & _ & _ & _ & Hlog & _).
    eapply names_one; [exact Hlog |].
    apply all_ids_in. right. right. now apply listed_order_is_held.
  - destruct H as (Hlog & _). now apply names_same.
Qed.

Lemma moveToIdeal_names (now : Z) (fs : FulfillmentSystem) (orderID : string)
  (g : IdealGroup) :
  names (all_ids fs) fs (moveToIdeal now fs orderID g).
Proof.
  destruct (moveToIdeal_spec now fs orderID g) as [(Hlog & _) | (Hlog & Hheld & _)].
  - now apply names_same.
  - eapply names_one; [exact Hlog |]. apply all_ids_in. auto.
Qed.

Lemma reallocateLoop_names (now : Z) (shelfOrders : list StoredOrder)
  (fs : FulfillmentSystem) :
  names (all_ids fs) fs (reallocateLoop now shelfOrders fs).
Proof.
  revert fs. induction shelfOrders as [| so rest IH]; intros fs;
    cbn [reallocateLoop]; [now apply names_same |].
  assert (Hmove : forall g,
            names (all_ids fs) fs
              (reallocateLoop now rest (moveToIdeal now fs (ID (Order_ so)) g))).
  { intros g. eapply names_trans; [apply moveToIdeal_names |].
    eapply names_incl; [| apply IH].
    intros x. apply (step_no_new_ids now (OpMove (ID (Order_ so)) g) fs x).
    discriminate. }
  destruct (_ && _); [apply Hmove |].
  destruct (_ && _); [apply Hmove | apply IH].
Qed.

Lemma discardOrderFromShelfGroup_names (now : Z) (fs : FulfillmentSystem) :
  Forall keyed (Storages (ShelfGroup fs)) ->
  names (all_ids fs) fs (discardOrderFromShelfGroup now fs).
Proof.
  intros K. unfold discardOrderFromShelfGroup.
  destruct (GetLeastFreshOrder now (ShelfGroup fs)) as [candidate |] eqn:Ec;
    [| now apply names_same].
  assert (Hcand : In (ID (Order_ candidate)) (all_ids fs)).
  { apply all_ids_in. right. right. apply listed_order_is_held; [exact K |].
    destruct (GetLeastFreshOrder_Some _ _ _ Ec) as (l1 & l2 & -> & _).
    apply in_or_app. right. now left. }
  pose proof (tryMoveFromShelfGroup_names now fs (Temperature (Order_ candidate)) K)
    as Hmove.
  destruct (tryMoveFromShelfGroup now fs (Temperature (Order_ candidate)))
    as [moved fs1]. simpl in Hmove.
  destruct moved; [exact Hmove |].
  eapply names_trans; [exact Hmove |].
  destruct (StorageGroup_Remove (ShelfGroup fs1) (ID (Order_ candidate)))
    as [[removed |] shelf'].
  - eapply names_one; [reflexivity | exact Hcand].
  - now apply names_same.
Qed.

Lemma placeOnShelf_names (now : Z) (fs fs' : FulfillmentSystem)
  (storedOrder : StoredOrder) (ids : list string) :
  placeOnShelf now fs storedOrder = Some fs' ->
  In (ID (Order_ storedOrder)) ids -> names ids fs fs'.
Proof.
  intros E Hin. eapply names_one; [exact (placeOnShelf_log _ _ _ _ E) | exact Hin].
Qed.

Lemma discardThenPlace_names (now : Z) (fs : FulfillmentSystem)
  (storedOrder : StoredOrder) :
  Forall keyed (Storages (ShelfGroup fs)) ->
  names (ID (Order_ storedOrder) :: all_ids fs) fs
    (discardThenPlace now fs storedOrder).
Proof.
  intros K. unfold discardThenPlace.
  set (fs1 := if StorageGroup_IsFull (ShelfGroup fs)
              then discardOrderFromShelfGroup now fs else fs).
  assert (H1 : names (ID (Order_ storedOrder) :: all_ids fs) fs fs1).
  { subst fs1. destruct (StorageGroup_IsFull (ShelfGroup fs));
      [| now apply names_same].
    eapply names_incl; [| now apply discardOrderFromShelfGroup_names].
    intros x Hx. now right. }
  destruct (placeOnShelf now fs1 storedOrder) as [fs2 |] eqn:E; [| exact H1].
  eapply names_trans; [exact H1 |].
  eapply placeOnShelf_names; [exact E | now left].
Qed.

Lemma PlaceOrder_names (now : Z) (fs : FulfillmentSystem) (order : Order) :
  Forall keyed (Storages (ShelfGroup fs)) ->
  names (ID order :: all_ids fs) fs (PlaceOrder now fs order).
Proof.
  intros K. unfold PlaceOrder.
  set (storedOrder := {| Order_ := order; PlacedAt := now |}).
  assert (Hshelf : forall fs0 fs',
            placeOnShelf now fs0 storedOrder = Some fs' ->
            names (ID order :: all_ids fs) fs0 fs').
  { intros fs0 fs' E. eapply placeOnShelf_names; [exact E | now left]. }
  assert (Hlast : forall fs0,
            Forall keyed (Storages (ShelfGroup fs0)) ->
            incl (all_ids fs0) (all_ids fs) ->
            names (ID order :: all_ids fs) fs0 (discardThenPlace now fs0 storedOrder)).
  { intros fs0 K0 Hincl. eapply names_incl; [| now apply discardThenPlace_names].
    intros x [<- | Hx]; [now left | right; now apply Hincl]. }
  destruct (_ || _).
  - destruct (StorageGroup_Add _ _) as [[|] ideal'].
    + eapply names_one; [| now left].
      destruct (String.eqb (Temperature order) TEMP_TYPE_HOT); reflexivity.
    + destruct (placeOnShelf now fs storedOrder) as [fs1 |] eqn:E1;
        [now apply Hshelf |].
      destruct (StorageGroup_IsFull (ShelfGroup fs));
        [| apply Hlast; [exact K | apply incl_refl]].
      pose proof (tryMoveFromShelfGroup_names now fs (Temperature order) K) as Hmove.
      apply (names_incl _ (ID order :: all_ids fs)) in Hmove;
        [| intros x Hx; now right].
      pose proof (keyed_system_evolves _ _
                    (tryMoveFromShelfGroup_evolves now fs (Temperature order)) K) as K1.
      assert (Hincl : incl (all_ids (snd (tryMoveFromShelfGroup now fs (Temperature order))))
                        (all_ids fs)).
      { intros x. apply (step_no_new_ids now (OpTryMove (Temperature order)) fs x).
        discriminate. }
      destruct (tryMoveFromShelfGroup now fs (Temperature order)) as [moved fs1].
      simpl in Hmove, K1, Hincl.
      destruct moved.
      * destruct (placeOnShelf now fs1 storedOrder) as [fs2 |] eqn:E2.
        -- eapply names_trans; [exact Hmove | now apply Hshelf].
        -- eapply names_trans; [exact Hmove | now apply Hlast].
      * eapply names_trans; [exact Hmove | now apply Hlast].
  - destruct (placeOnShelf now fs storedOrder) as [fs1 |] eqn:E1;
      [now apply Hshelf |].
    apply Hlast; [exact K | apply incl_refl].
Qed.

Lemma StorageGroup_Remove_found (sg sg' : StorageGroup) (orderID : string)
  (so : StoredOrder) :
  StorageGroup_Remove sg orderID = (Some so, sg') ->
  exists s, In s (Storages sg) /\ GetOrder s orderID = Some so.
Proof.
  unfold StorageGroup_Remove.
  destruct (removeFromUnits_spec (Storages sg) orderID)
    as [(_ & E) | (before & s & after & so0 & Eunits & _ & Hget & E)]; rewrite E;
    [discriminate |].
  intros [= <- _]. exists s. split; [| exact Hget].
  rewrite Eunits. apply in_or_app. right. now left.
Qed.

Lemma PickupOrder_names (now : Z) (fs : FulfillmentSystem) (orderID : string) :
  Forall keyed (all_units fs) ->
  names (all_ids fs) fs (PickupOrder now fs orderID).
Proof.
  intros K.
  assert (Hfound : forall sg sg' so,
            (forall s, In s (Storages sg) -> In s (all_units fs)) ->
            StorageGroup_Remove sg orderID = (Some so, sg') ->
            In (ID (Order_ so)) (all_ids fs)).
  { intros sg sg' so Hsub E.
    destruct (StorageGroup_Remove_found _ _ _ _ E) as (s & Hs & Hget).
    rewrite Forall_forall in K.
    rewrite <- (keyed_get _ _ _ (K s (Hsub s Hs)) Hget).
    unfold all_ids, units_ids. apply in_flat_map. exists s.
    split; [now apply Hsub |]. apply holds_true_iff. unfold holds. now rewrite Hget. }
  unfold PickupOrder.
  destruct (StorageGroup_Remove (HeaterGroup fs) orderID) as [[so |] heater'] eqn:Eh.
  { eapply names_one; [reflexivity |]. eapply Hfound; [| exact Eh].
    intros s Hs. unfold all_units. apply in_or_app. now left. }
  destruct (StorageGroup_Remove (CoolerGroup fs) orderID) as [[so |] cooler'] eqn:Ec.
  { eapply names_one; [reflexivity |]. eapply Hfound; [| exact Ec].
    intros s Hs. unfold all_units. apply in_or_app. right. apply in_or_app. now left. }
  destruct (StorageGroup_Remove (ShelfGroup fs) orderID) as [[so |] shelf'] eqn:Es;
    [| now apply names_same].
  eapply names_one; [reflexivity |]. eapply Hfound; [| exact Es].
  intros s Hs. unfold all_units. apply in_or_app. right. apply in_or_app. now right.
Qed.

Lemma step_names (now : Z) (op : Op) (fs : FulfillmentSystem) :
  Forall keyed (all_units fs) ->
  names (placedIDs [(now, op)] ++ all_ids fs) fs (step now op fs).
Proof.
  intros K.
  assert (Ks : Forall keyed (Storages (ShelfGroup fs))).
  { unfold all_units in K. apply Forall_app in K. destruct K as [_ K].
    apply Forall_app in K. now destruct K. }
  destruct op as [order | orderID | | orderID g | temp | | g n i]; cbn [step];
    [exact (PlaceOrder_names now fs order Ks) | ..];
    (eapply names_incl; [intros x Hx; apply in_or_app; right; exact Hx |]).
  - now apply PickupOrder_names.
  - unfold reallocateTick. destruct (negb _);
      [now apply names_same | apply reallocateLoop_names].
  - apply moveToIdeal_names.
  - now apply tryMoveFromShelfGroup_names.
  - now apply discardOrderFromShelfGroup_names.
  - apply names_same. now destruct g.
Qed.

Lemma run_ids_placed (cfg : FulfillmentConfig) (trace : list (Z * Op)) (x : string) :
  In x (all_ids (run trace (NewFulfillmentSystem cfg))) -> In x (placedIDs trace).
Proof.
  intros Hin. apply (count_occ_In string_dec) in Hin.
  pose proof (run_occ trace (NewFulfillmentSystem cfg) x) as Hr.
  rewrite NewFulfillmentSystem_ids in Hr. simpl in Hr.
  apply (count_occ_In string_dec). lia.
Qed.

(** X23.  The log names placed orders only.  After any run from the empty
    system, every action of the log, whether place, move, discard or
    pickup, names the id of an order that was handed to [PlaceOrder] during
    the run; in particular a pickup of an id that was never placed leaves no
    trace. *)
Theorem log_names_placed_orders (cfg : FulfillmentConfig) (trace : list (Z * Op)) :
  Forall (fun a => In (OrderID a) (placedIDs trace))
    (Actions (run trace (NewFulfillmentSystem cfg))).
Proof.
  induction trace as [| [now op] rest IH] using rev_ind; [constructor |].
  rewrite run_snoc.
  destruct (step_names now op (run rest (NewFulfillmentSystem cfg)) (run_keyed cfg rest))
    as (new & E & Hnew).
  rewrite E. unfold placedIDs. rewrite flat_map_app. fold (placedIDs rest).
  fold (placedIDs [(now, op)]).
  apply Forall_app. split.
  - eapply Forall_impl; [| exact IH]. intros a Ha. apply in_or_app. now left.
  - eapply Forall_impl; [| exact Hnew]. intros a Ha.
    apply in_app_or in Ha. apply in_or_app.
    destruct Ha as [Ha | Ha]; [now right | left].
    now apply (run_ids_placed cfg rest).
Qed.

(* ------------------------------------------------------------------ *)
(** ** The layout of the system *)

Lemma evolves_layout (units units' : list Storage) :
  Forall2 evolves units units' ->
  map (fun s => (Storage_Name s, Capacity s)) units'
  = map (fun s => (Storage_Name s, Capacity s)) units.
Proof.
  induction 1 as [| s s' l l' (Hn & Hc & _) _ IH]; simpl; [reflexivity |].
  now rewrite Hn, Hc, IH.
Qed.

Lemma newUnits_layout (prefix : string) (n cap : Z) :
  map (fun s => (Storage_Name s, Capacity s)) (newUnits prefix n cap)
  = map (fun i => (unitName prefix i, cap)) (seq 1 (Z.to_nat n)).
Proof. unfold newUnits. now rewrite map_map. Qed.

(** X24.  The layout never changes.  After any run, each group consists of
    the units [NewFulfillmentSystem] built for it, in the same order, with
    the same names ("Heater-1", "Heater-2", ...) and the configured
    capacity: no operation adds, drops, renames, resizes or reorders a
    unit. *)
Theorem run_keeps_layout (cfg : FulfillmentConfig) (trace : list (Z * Op)) :
  let fs := run trace (NewFulfillmentSystem cfg) in
  map (fun s => (Storage_Name s, Capacity s)) (Storages (HeaterGroup fs))
  = map (fun i => (unitName "Heater" i, HeaterCap cfg))
      (seq 1 (Z.to_nat (NumHeaters cfg)))
  /\ map (fun s => (Storage_Name s, Capacity s)) (Storages (CoolerGroup fs))
     = map (fun i => (unitName "Cooler" i, CoolerCap cfg))
         (seq 1 (Z.to_nat (NumCoolers cfg)))
  /\ map (fun s => (Storage_Name s, Capacity s)) (Storages (ShelfGroup fs))
     = map (fun i => (unitName "Shelf" i, ShelfCap cfg))
         (seq 1 (Z.to_nat (NumShelves cfg))).
Proof.
  intros fs. subst fs.
  destruct (run_evolves trace (NewFulfillmentSystem cfg)) as (Hs & Hh & Hc).
  apply shelf_evolves_evolves in Hs.
  rewrite (evolves_layout _ _ Hh), (evolves_layout _ _ Hc), (evolves_layout _ _ Hs).
  simpl. now rewrite !newUnits_layout.
Qed.

(* ------------------------------------------------------------------ *)
(** ** Where stored orders come from *)

Section Cells.

Variable P : string * StoredOrder -> Prop.

Hypothesis P_refresh :
  forall now k o o',
    P (k, o) -> Temperature (Order_ o) <> TEMP_TYPE_ROOM ->
    refreshOrder now o = Some o' -> P (k, o').

Lemma atomicMoveOrder_cells (now : Z) (orderID : string)
  (source source' : Storage) (destination destination' : StorageGroup)
  (moved : bool) :
  atomicMoveOrder now orderID source destination = (moved, source', destination') ->
  Forall P (Orders source) ->
  cells_ok P (Storages destination) ->
  Forall P (Orders source') /\ cells_ok P (Storages destination').
Proof.
  intros E Hs Hd.
  destruct (atomicMoveOrder_cases now orderID source destination)
    as [(_ & E') | [(order & _ & _ & _ & E') | (order & order' & Hget & Hrel & Hcase)]].
  - rewrite E' in E. injection E as <- <- <-. now split.
  - rewrite E' in E. injection E as <- <- <-. now split.
  - assert (Hcell : P (orderID, order')).
    { assert (H0 : P (orderID, order)).
      { unfold GetOrder in Hget. apply get_Some_In in Hget.
        rewrite Forall_forall in Hs. now apply Hs. }
      destruct Hrel as [[_ ->] | [Hne Href]]; [exact H0 |].
      exact (P_refresh now orderID order order' H0 Hne Href). }
    cbv zeta in Hcase.
    destruct (putInFirstWithRoom (Storages destination) orderID order')
      as [units |] eqn:Eput; rewrite Hcase in E; injection E as <- <- <-; simpl.
    + split; [apply Forall_delete; now apply Forall_set |].
      destruct (putInFirstWithRoom_Some _ _ _ _ Eput)
        as (before & d & after & Hu & Hu' & _ & _).
      subst units. unfold cells_ok in *. rewrite Hu in Hd.
      apply Forall_app in Hd. destruct Hd as [Hb Hda].
      inversion Hda as [| ? ? Hd0 Ha]; subst.
      apply Forall_app. split; [exact Hb |]. constructor; [| exact Ha].
      simpl. now apply Forall_set.
    + split; [now apply Forall_set | exact Hd].
Qed.

Lemma moveFromShelves_cells (now : Z) (orderID : string)
  (shelves shelves' : list Storage) (destination destination' : StorageGroup)
  (moved : bool) :
  moveFromShelves now orderID shelves destination = (moved, shelves', destination') ->
  cells_ok P shelves ->
  cells_ok P (Storages destination) ->
  cells_ok P shelves' /\ cells_ok P (Storages destination').
Proof.
  revert shelves' destination destination' moved.
  induction shelves as [| shelf rest IH];
    intros shelves' destination destination' moved; cbn [moveFromShelves].
  - intros [= <- <- <-]. now split.
  - destruct (atomicMoveOrder now orderID shelf destination) as [[m shelf1] d1] eqn:Ea.
    intros E Hs Hd. inversion Hs as [| ? ? Hshelf Hrest]; subst.
    destruct (atomicMoveOrder_cells _ _ _ _ _ _ _ Ea Hshelf Hd) as [H1 Hd1].
    destruct m.
    + injection E as <- <- <-. split; [now constructor | exact Hd1].
    + destruct (moveFromShelves now orderID rest d1) as [[r rest'] d2] eqn:Er.
      injection E as <- <- <-.
      destruct (IH _ _ _ _ Er Hrest Hd1) as [Hr Hd2].
      split; [now constructor | exact Hd2].
Qed.

Lemma tryMoveOrders_cells (now : Z) (temp : string) (orders : list StoredOrder)
  (shelves shelves' : list Storage) (destination destination' : StorageGroup)
  (r : option string) :
  tryMoveOrders now temp orders shelves destination = (r, shelves', destination') ->
  cells_ok P shelves ->
  cells_ok P (Storages destination) ->
  cells_ok P shelves' /\ cells_ok P (Storages destination').
Proof.
  revert shelves destination.
  induction orders as [| so rest IH]; intros shelves destination;
    cbn [tryMoveOrders].
  - intros [= <- <- <-]. now split.
  - destruct (String.eqb (Temperature (Order_ so)) temp); [| apply IH].
    destruct (moveFromShelves now (ID (Order_ so)) shelves destination)
      as [[m sh1] d1] eqn:Em.
    intros E Hs Hd.
    destruct (moveFromShelves_cells _ _ _ _ _ _ _ Em Hs Hd) as [Hs1 Hd1].
    destruct m.
    + injection E as <- <- <-. now split.
    + exact (IH _ _ E Hs1 Hd1).
Qed.

Lemma system_ok_moved (fs : FulfillmentSystem) (g : IdealGroup)
  (shelves : list Storage) (destination : StorageGroup) :
  system_ok P fs ->
  cells_ok P shelves ->
  cells_ok P (Storages destination) ->
  system_ok P (with_idealGroup (with_ShelfGroup fs (mkGroup shelves)) g destination).
Proof. intros (Hh & Hc & Hs) Hs' Hd. destruct g; repeat split; assumption. Qed.

Lemma system_ok_ideal (fs : FulfillmentSystem) (g : IdealGroup) :
  system_ok P fs -> cells_ok P (Storages (idealGroup fs g)).
Proof. intros (Hh & Hc & Hs). now destruct g. Qed.

Lemma tryMoveFromShelfGroup_cells (now : Z) (fs : FulfillmentSystem) (temp : string) :
  system_ok P fs -> system_ok P (snd (tryMoveFromShelfGroup now fs temp)).
Proof.
  intros S.
  assert (Hg : forall g,
            system_ok P
              (snd (let '(moved, shelves, destination) :=
                      tryMoveOrders now temp (StorageGroup_ListOrders (ShelfGroup fs))
                        (Storages (ShelfGroup fs)) (idealGroup fs g) in
                    let fs' := with_idealGroup (with_ShelfGroup fs (mkGroup shelves))
                                 g destination in
                    match moved with
                    | Some orderID => (true, logAction fs' orderID ACTION_TYPE_MOVE now)
                    | None => (false, fs')
                    end))).
  { intros g.
    destruct (tryMoveOrders now temp (StorageGroup_ListOrders (ShelfGroup fs))
                (Storages (ShelfGroup fs)) (idealGroup fs g))
      as [[moved shelves] destination] eqn:E.
    destruct (tryMoveOrders_cells _ _ _ _ _ _ _ _ E (proj2 (proj2 S))
                (system_ok_ideal fs g S)) as [Hs Hd].
    pose proof (system_ok_moved fs g shelves destination S Hs Hd) as H.
    destruct moved; exact H. }
  unfold tryMoveFromShelfGroup.
  destruct (String.eqb temp TEMP_TYPE_HOT); [apply Hg |].
  destruct (String.eqb temp TEMP_TYPE_COLD); [apply Hg | exact S].
Qed.

Lemma moveToIdeal_cells (now : Z) (fs : FulfillmentSystem) (orderID : string)
  (g : IdealGroup) :
  system_ok P fs -> system_ok P (moveToIdeal now fs orderID g).
Proof.
  intros S. unfold moveToIdeal.
  destruct (moveFromShelves now orderID (Storages (ShelfGroup fs)) (idealGroup fs g))
    as [[moved shelves] destination] eqn:E.
  destruct (moveFromShelves_cells _ _ _ _ _ _ _ E (proj2 (proj2 S))
              (system_ok_ideal fs g S)) as [Hs Hd].
  pose proof (system_ok_moved fs g shelves destination S Hs Hd) as H.
  destruct moved; exact H.
Qed.

Lemma reallocateTick_cells (now : Z) (fs : FulfillmentSystem) :
  system_ok P fs -> system_ok P (reallocateTick now fs).
Proof.
  unfold reallocateTick. destruct (negb _); [auto |].
  generalize (StorageGroup_ListOrders (ShelfGroup fs)). intros orders. revert fs.
  induction orders as [| so rest IH]; intros fs S; cbn [reallocateLoop];
    [exact S |].
  destruct (_ && _); [apply IH; now apply moveToIdeal_cells |].
  destruct (_ && _); [apply IH; now apply moveToIdeal_cells | now apply IH].
Qed.

Lemma StorageGroup_Add_cells (sg sg' : StorageGroup) (order : StoredOrder)
  (ok : bool) :
  StorageGroup_Add sg order = (ok, sg') ->
  P (ID (Order_ order), order) ->
  cells_ok P (Storages sg) -> cells_ok P (Storages sg').
Proof.
  unfold StorageGroup_Add.
  destruct (addToUnits_spec (Storages sg) order)
    as [(_ & E) | (before & s & after & Eunits & _ & _ & E)]; rewrite E.
  - now intros [= _ <-].
  - intros [= _ <-] Hp K. simpl. unfold cells_ok in *. rewrite Eunits in K.
    apply Forall_app in K. destruct K as [Hb Hsa].
    inversion Hsa as [| ? ? Hs Ha]; subst.
    apply Forall_app. split; [exact Hb |]. constructor; [| exact Ha].
    simpl. now apply Forall_set.
Qed.

Lemma StorageGroup_Remove_cells (sg sg' : StorageGroup) (orderID : string)
  (r : option StoredOrder) :
  StorageGroup_Remove sg orderID = (r, sg') ->
  cells_ok P (Storages sg) -> cells_ok P (Storages sg').
Proof.
  unfold StorageGroup_Remove.
  destruct (removeFromUnits_spec (Storages sg) orderID)
    as [(_ & E) | (before & s & after & so & Eunits & _ & _ & E)]; rewrite E.
  - now intros [= _ <-].
  - intros [= _ <-] K. simpl. unfold cells_ok in *. rewrite Eunits in K.
    apply Forall_app in K. destruct K as [Hb Hsa].
    inversion Hsa as [| ? ? Hs Ha]; subst.
    apply Forall_app. split; [exact Hb |]. constructor; [| exact Ha].
    simpl. now apply Forall_delete.
Qed.

Lemma discardOrderFromShelfGroup_cells (now : Z) (fs : FulfillmentSystem) :
  system_ok P fs -> system_ok P (discardOrderFromShelfGroup now fs).
Proof.
  intros S. unfold discardOrderFromShelfGroup.
  destruct (GetLeastFreshOrder now (ShelfGroup fs)) as [candidate |]; [| exact S].
  pose proof (tryMoveFromShelfGroup_cells now fs (Temperature (Order_ candidate)) S)
    as S1.
  destruct (tryMoveFromShelfGroup now fs (Temperature (Order_ candidate)))
    as [moved fs1]. simpl in S1.
  destruct moved; [exact S1 |].
  destruct (StorageGroup_Remove (ShelfGroup fs1) (ID (Order_ candidate)))
    as [r shelf'] eqn:Er.
  pose proof (StorageGroup_Remove_cells _ _ _ _ Er (proj2 (proj2 S1))) as Hs.
  destruct S1 as (Hh & Hc & _). destruct r; repeat split; assumption.
Qed.

Lemma placeOnShelf_cells (now : Z) (fs fs' : FulfillmentSystem)
  (storedOrder : StoredOrder) :
  placeOnShelf now fs storedOrder = Some fs' ->
  P (ID (Order_ storedOrder), storedOrder) ->
  system_ok P fs -> system_ok P fs'.
Proof.
  unfold placeOnShelf.
  destruct (StorageGroup_Add (ShelfGroup fs) storedOrder) as [[|] shelf'] eqn:E;
    [| discriminate].
  intros [= <-] Hp (Hh & Hc & Hs).
  pose proof (StorageGroup_Add_cells _ _ _ _ E Hp Hs) as Hs'.
  repeat split; assumption.
Qed.

Lemma discardThenPlace_cells (now : Z) (fs : FulfillmentSystem)
  (storedOrder : StoredOrder) :
  P (ID (Order_ storedOrder), storedOrder) ->
  system_ok P fs -> system_ok P (discardThenPlace now fs storedOrder).
Proof.
  intros Hp S. unfold discardThenPlace.
  set (fs1 := if StorageGroup_IsFull (ShelfGroup fs)
              then discardOrderFromShelfGroup now fs else fs).
  assert (S1 : system_ok P fs1).
  { subst fs1. destruct (StorageGroup_IsFull (ShelfGroup fs));
      [now apply discardOrderFromShelfGroup_cells | exact S]. }
  destruct (placeOnShelf now fs1 storedOrder) as [fs2 |] eqn:E; [| exact S1].
  exact (placeOnShelf_cells _ _ _ _ E Hp S1).
Qed.

Lemma PlaceOrder_cells (now : Z) (fs : FulfillmentSystem) (order : Order) :
  P (ID order, {| Order_ := order; PlacedAt := now |}) ->
  system_ok P fs -> system_ok P (PlaceOrder now fs order).
Proof.
  intros Hp S. unfold PlaceOrder.
  set (storedOrder := {| Order_ := order; PlacedAt := now |}).
  destruct (_ || _).
  - set (g := if String.eqb (Temperature order) TEMP_TYPE_HOT
              then ToHeater else ToCooler).
    destruct (StorageGroup_Add (idealGroup fs g) storedOrder) as [[|] ideal'] eqn:Eadd.
    { pose proof (StorageGroup_Add_cells _ _ _ _ Eadd Hp (system_ok_ideal fs g S)) as Hd.
      destruct S as (Hh & Hc & Hs). destruct g; repeat split; assumption. }
    destruct (placeOnShelf now fs storedOrder) as [fs1 |] eqn:E1;
      [exact (placeOnShelf_cells _ _ _ _ E1 Hp S) |].
    destruct (StorageGroup_IsFull (ShelfGroup fs));
      [| now apply discardThenPlace_cells].
    pose proof (tryMoveFromShelfGroup_cells now fs (Temperature order) S) as S1.
    destruct (tryMoveFromShelfGroup now fs (Temperature order)) as [moved fs1].
    simpl in S1.
    destruct moved; [| now apply discardThenPlace_cells].
    destruct (placeOnShelf now fs1 storedOrder) as [fs2 |] eqn:E2;
      [exact (placeOnShelf_cells _ _ _ _ E2 Hp S1) | now apply discardThenPlace_cells].
  - destruct (placeOnShelf now fs storedOrder) as [fs1 |] eqn:E1;
      [exact (placeOnShelf_cells _ _ _ _ E1 Hp S) | now apply discardThenPlace_cells].
Qed.

Lemma PickupOrder_cells (now : Z) (fs : FulfillmentSystem) (orderID : string) :
  system_ok P fs -> system_ok P (PickupOrder now fs orderID).
Proof.
  intros (Hh & Hc & Hs). unfold PickupOrder.
  destruct (StorageGroup_Remove (HeaterGroup fs) orderID) as [[so |] heater'] eqn:Eh.
  { pose proof (StorageGroup_Remove_cells _ _ _ _ Eh Hh). repeat split; assumption. }
  destruct (StorageGroup_Remove (CoolerGroup fs) orderID) as [[so |] cooler'] eqn:Ec.
  { pose proof (StorageGroup_Remove_cells _ _ _ _ Ec Hc). repeat split; assumption. }
  destruct (StorageGroup_Remove (ShelfGroup fs) orderID) as [[so |] shelf'] eqn:Es.
  { pose proof (StorageGroup_Remove_cells _ _ _ _ Es Hs). repeat split; assumption. }
  repeat split; assumption.
Qed.

Lemma updateUnit_cells (n i : nat) (units : list Storage) :
  cells_ok P units ->
  cells_ok P (updateUnit n (fun s => with_Orders s (swapCells i (Orders s))) units).
Proof.
  unfold cells_ok. revert n.
  induction units as [| s rest IH]; intros n F; destruct n; simpl;
    try constructor; inversion F; subst; auto.
  simpl. eapply Permutation_Forall; [| eassumption].
  apply Permutation_sym, swapCells_Permutation.
Qed.

Lemma reorderUnit_cells (fs : FulfillmentSystem) (g : GroupName) (n i : nat) :
  system_ok P fs -> system_ok P (reorderUnit fs g n i).
Proof.
  intros (Hh & Hc & Hs). destruct g; repeat split; simpl;
    auto using updateUnit_cells.
Qed.

Lemma step_cells (now : Z) (op : Op) (fs : FulfillmentSystem) :
  (forall order, op = OpPlace order ->
                 P (ID order, {| Order_ := order; PlacedAt := now |})) ->
  system_ok P fs -> system_ok P (step now op fs).
Proof.
  intros Hp S.
  destruct op as [order | orderID | | orderID g | temp | | g n i]; cbn [step].
  - apply PlaceOrder_cells; [now apply Hp | exact S].
  - now apply PickupOrder_cells.
  - now apply reallocateTick_cells.
  - now apply moveToIdeal_cells.
  - now apply tryMoveFromShelfGroup_cells.
  - now apply discardOrderFromShelfGroup_cells.
  - now apply reorderUnit_cells.
Qed.

End Cells.

Lemma placed_as_refresh (trace : list (Z * Op)) (now : Z) (k : string)
  (o o' : StoredOrder) :
  placed_as trace (k, o) -> Temperature (Order_ o) <> TEMP_TYPE_ROOM ->
  refreshOrder now o = Some o' -> placed_as trace (k, o').
Proof.
  intros (t & order & Hin & Hk & Hid & Hname & Htemp & Hinit & Hroom) Hne Href.
  exists t, order. simpl in *.
  unfold refreshOrder in Href.
  destruct (_ <=? 0); [discriminate |]. injection Href as <-. simpl.
  repeat split; try assumption.
  intros Hr. rewrite Hr in Htemp. contradiction.
Qed.

Lemma run_placed_as (cfg : FulfillmentConfig) (trace done : list (Z * Op)) :
  incl done trace ->
  system_ok (placed_as trace) (run done (NewFulfillmentSystem cfg)).
Proof.
  induction done as [| [now op] rest IH] using rev_ind; intros Hincl.
  - assert (H : forall prefix n cap, cells_ok (placed_as trace) (newUnits prefix n cap)).
    { intros prefix n cap. unfold cells_ok.
      eapply Forall_impl; [| apply newUnits_fresh]. intros s [_ ->]. constructor. }
    repeat split; simpl; apply H.
  - rewrite run_snoc. apply step_cells.
    + intros t k o o'. apply placed_as_refresh.
    + intros order ->. exists now, order. simpl.
      split; [apply Hincl, in_or_app; right; now left |]. repeat split; reflexivity.
    + apply IH. intros e He. apply Hincl, in_or_app. now left.
Qed.

(** X25.  Stored orders are placed orders.  After any run from the empty
    system, whatever a lookup finds in a unit of any group is an order that
    was handed to [PlaceOrder] during the run: it is filed under that
    order's id and has its id, name, temperature and initial freshness (only
    the remaining freshness and the placement instant may have been
    rewritten by moves), and a room-temperature order is stored exactly as
    it was placed, with the instant of its placement. *)
Theorem stored_orders_were_placed (cfg : FulfillmentConfig) (trace : list (Z * Op))
  (s : Storage) (orderID : string) (so : StoredOrder) :
  In s (all_units (run trace (NewFulfillmentSystem cfg))) ->
  GetOrder s orderID = Some so ->
  exists now order,
    In (now, OpPlace order) trace
    /\ orderID = ID order
    /\ ID (Order_ so) = ID order
    /\ Name (Order_ so) = Name order
    /\ Temperature (Order_ so) = Temperature order
    /\ InitialFreshness (Order_ so) = InitialFreshness order
    /\ (Temperature order = TEMP_TYPE_ROOM ->
        so = {| Order_ := order; PlacedAt := now |}).
Proof.
  intros Hs Hget.
  destruct (run_placed_as cfg trace trace (incl_refl _)) as (Hh & Hc & Hsh).
  assert (Hcells : Forall (placed_as trace) (Orders s)).
  { unfold cells_ok in *. rewrite Forall_forall in Hh, Hc, Hsh.
    unfold all_units in Hs. apply in_app_or in Hs.
    destruct Hs as [Hs | Hs]; [now apply Hh |].
    apply in_app_or in Hs. destruct Hs as [Hs | Hs]; [now apply Hc | now apply Hsh]. }
  unfold GetOrder in Hget. apply get_Some_In in Hget.
  rewrite Forall_forall in Hcells. exact (Hcells _ Hget).
Qed.

Lemma stored_orders_were_placed_witness :
  exists s so,
    In s (all_units (run movedRun (NewFulfillmentSystem smallConfig)))
    /\ GetOrder s "B" = Some so
    /\ exists now order,
         In (now, OpPlace order) movedRun
         /\ "B"%string = ID order
         /\ ID (Order_ so) = ID order
         /\ Name (Order_ so) = Name order
         /\ Temperature (Order_ so) = Temperature order
         /\ InitialFreshness (Order_ so) = InitialFreshness order
         /\ (Temperature order = TEMP_TYPE_ROOM ->
             so = {| Order_ := order; PlacedAt := now |}).
Proof.
  exists (hd (NewStorage "" 0)
            (Storages (HeaterGroup (run movedRun (NewFulfillmentSystem smallConfig))))).
  eexists.
  assert (Hin : In (hd (NewStorage "" 0)
                      (Storages (HeaterGroup
                                   (run movedRun (NewFulfillmentSystem smallConfig)))))
                  (all_units (run movedRun (NewFulfillmentSystem smallConfig))))
    by (vm_compute; left; reflexivity).
  split; [exact Hin |]. split; [vm_compute; reflexivity |].
  apply (stored_orders_were_placed smallConfig movedRun _ "B" _ Hin).
  vm_compute. reflexivity.
Defined.
